(** * Accrual engine of [loan_logic.py]: [amount_due_with_payments]

    Shallow embedding of the payment-aware accrual engine.

    - Python [float] is IEEE binary64 with round-to-nearest-even: it is
      modelled by Rocq's primitive [float], whose operations are binary64.
    - A [datetime.date] is modelled by its proleptic day number ([Z]); the
      difference of two dates in days is then a subtraction.
    - Payments are modelled as already normalised [Payment] records
      (amount, paid_on); the dict branch of the normalisation only converts
      the fields. *)

From Stdlib Require Import ZArith Floats List Bool Lia QArith Qpower Lqa Sorted Permutation.
Import ListNotations.

#[local] Set Warnings "-inexact-float".

Open Scope Z_scope.

(** ** Python helpers on floats *)

Module Py.

(** [min(a, b)]: the first argument unless the second is strictly smaller. *)
Definition fmin (a b : float) : float := if (b <? a)%float then b else a.

(** [max(a, b)]: the first argument unless the second is strictly greater. *)
Definition fmax (a b : float) : float := if (a <? b)%float then b else a.

(** [float(n)] for a Python [int]: the nearest binary64. *)
Definition float_of_Z (n : Z) : float :=
  SF2Prim (binary_normalize prec emax n 0 false).

(** Round-half-even division of a non-negative [a] by a positive [b]. *)
Definition rne_div (a b : Z) : Z :=
  let '(q, r) := Z.div_eucl a b in
  match Z.compare (2 * r) b with
  | Lt => q
  | Gt => q + 1
  | Eq => if Z.even q then q else q + 1
  end.

(** [round(x, 2)] as CPython computes it: nans and infinities round to
    themselves; otherwise the exact binary value of [x] is rounded to a
    multiple [k/100] (ties to even, as [_Py_dg_dtoa] mode 3 does) and the
    decimal [k/100] is read back as the nearest binary64 (as
    [_Py_dg_strtod] does). A zero keeps the sign of [x]. *)
Definition round2 (x : float) : float :=
  match Prim2SF x with
  | S754_finite s m e =>
      if (0 <=? e) then x
      else
        let k := rne_div (Zpos m * 100) (2 ^ (- e)) in
        match k with
        | Zpos kp =>
            SF2Prim (SFdiv prec emax (S754_finite s kp 0) (S754_finite false 100 0))
        | _ => SF2Prim (S754_zero s)
        end
  | _ => x
  end.

(** [math.ceil(x)] for a float: the least integer not below [x]; [None]
    for an infinity or a NaN, where it raises. *)
Definition ceil (f : spec_float) : option Z :=
  match f with
  | S754_zero _ => Some 0
  | S754_finite s m e =>
      if 0 <=? e then Some (cond_Zopp s (Zpos m) * 2 ^ e)
      else Some (- (- cond_Zopp s (Zpos m) / 2 ^ (- e)))
  | _ => None
  end.

(** [a / b] for Python [int]s [a, b > 0]: the correctly rounded quotient,
    as CPython's [long_true_divide] computes it (an infinity where it
    raises [OverflowError]). *)
Definition int_truediv (a b : positive) : spec_float :=
  SFdiv prec emax (S754_finite false a 0) (S754_finite false b 0).

End Py.

(** ** Dates and week counting *)

(** [_ceil_weeks(days)] as the source computes it: [0] for [days <= 0],
    else [math.ceil] of the float [days / 7]; [None] where Python raises. *)
Definition ceil_weeks_float (days : Z) : option Z :=
  if days <=? 0 then Some 0 else Py.ceil (Py.int_truediv (Z.to_pos days) 7).

(** [_ceil_weeks(days)] with the exact ceiling of [days / 7], as the engine
    below uses it. It is [ceil_weeks_float] for every [days <= 7 * 2^49]
    ([ceil_weeks_float_exact]), a range that holds every difference of two
    [datetime.date]s (at most 3652058 days). *)
Definition ceil_weeks (days : Z) : Z :=
  if days <=? 0 then 0 else (days + 6) / 7.

(** [d + timedelta(days=n)] when it does not raise; the [OverflowError]
    cases are [add_days_overflows] below, and [amount_due_call] is the call
    with them. *)
Definition add_days (d : Z) (n : Z) : Z := d + n.

(** [overdue_weeks(as_of, due_on, disbursed_on)]: [not due_on] holds only
    for [None] (a [date] is truthy); [disbursed_on] is not used. *)
Definition overdue_weeks (as_of : Z) (due_on : option Z) (disbursed_on : Z) : Z :=
  match due_on with
  | None => 0
  | Some due => if as_of <=? due then 0 else ceil_weeks (as_of - due)
  end.

(** The four results of [aging_bucket]: ["Current"], ["1–2w"], ["3–4w"]
    and ["5+w"]. *)
Inductive Bucket := Current | Weeks1_2 | Weeks3_4 | Weeks5_plus.

(** [aging_bucket(ov_weeks)] *)
Definition aging_bucket (ov_weeks : Z) : Bucket :=
  if ov_weeks <=? 0 then Current
  else if (1 <=? ov_weeks) && (ov_weeks <=? 2) then Weeks1_2
  else if (3 <=? ov_weeks) && (ov_weeks <=? 4) then Weeks3_4
  else Weeks5_plus.

(** The order of the buckets, from current to most overdue. *)
Definition bucket_rank (b : Bucket) : nat :=
  match b with Current => 0 | Weeks1_2 => 1 | Weeks3_4 => 2 | Weeks5_plus => 3 end.

(** ** Payments *)

Record Payment := mkPayment { amount : float; paid_on : Z }.

(** The sort key [(paid_on, amount)] compared as Python tuples. *)
Definition key_lt (p q : Payment) : bool :=
  (paid_on p <? paid_on q) || ((paid_on p =? paid_on q) && (amount p <? amount q)%float).

(** [list.sort(key=...)] is stable: each element goes after every element
    already placed that it is not strictly smaller than. For keys without
    NaN amounts this is the unique stable sort, the one Timsort returns;
    with a NaN amount the two may order a date's payments differently, so
    the properties that depend on the order assume no NaN amount. *)
Fixpoint insert_sorted (p : Payment) (l : list Payment) : list Payment :=
  match l with
  | [] => [p]
  | q :: l' => if key_lt p q then p :: q :: l' else q :: insert_sorted p l'
  end.

Definition sort_payments (l : list Payment) : list Payment :=
  fold_left (fun acc p => insert_sorted p acc) l [].

(** [pays = [p for p in pays if p.paid_on <= as_of]; pays.sort(...)] *)
Definition normalize_payments (as_of : Z) (payments : list Payment) : list Payment :=
  sort_payments (filter (fun p => paid_on p <=? as_of) payments).

(** ** Loan terms *)

(** The "SAFE DEFAULTS" block: returns [(term_weeks, agreed_due_on)], for
    inputs where it does not raise ([terms_overflow] below is [false]). *)
Definition resolve_terms (disbursed_on : Z) (term_weeks : option Z)
    (agreed_due_on : option Z) : Z * Z :=
  match agreed_due_on, term_weeks with
  | None, None => (1, add_days disbursed_on 7)
  | None, Some tw => (tw, add_days disbursed_on (7 * tw))
  | Some due, None => (Z.max 1 (ceil_weeks (due - disbursed_on)), due)
  | Some due, Some tw => (tw, due)
  end.

(** ** Engine state *)

Record State := mkState {
  principal_rem : float;
  accrued_interest : float;
  accrued_late : float;
  pre_charged_weeks : Z;
  over_charged_weeks : Z
}.

Definition eps : float := 1e-9%float.

(** [_apply_payment(amount)]: interest, then late, then principal; the
    residue is dropped. *)
Definition apply_payment (amt0 : float) (s : State) : State :=
  let amt := amt0 in
  let take_i := Py.fmin (accrued_interest s) amt in
  let ai := (accrued_interest s - take_i)%float in
  let amt := (amt - take_i)%float in
  let take_l := Py.fmin (accrued_late s) amt in
  let al := (accrued_late s - take_l)%float in
  let amt := (amt - take_l)%float in
  let take_p := Py.fmin (principal_rem s) amt in
  let pr := (principal_rem s - take_p)%float in
  mkState pr ai al (pre_charged_weeks s) (over_charged_weeks s).

Section Accrual.

(** The variables the closures [_process_accrual_until] capture. *)
Variables (disbursed_on agreed_due_on term_weeks : Z).
Variables (weekly_interest_rate late_step_rate : float).

(** One iteration of the pre-due [while] loop. *)
Definition pre_step (s : State) : State :=
  let s := mkState (principal_rem s) (accrued_interest s) (accrued_late s)
                   (pre_charged_weeks s + 1) (over_charged_weeks s) in
  if (eps <? principal_rem s)%float then
    mkState (principal_rem s)
            (accrued_interest s + principal_rem s * weekly_interest_rate)%float
            (accrued_late s) (pre_charged_weeks s) (over_charged_weeks s)
  else s.

(** [while pre_charged_weeks < total: ...], run with enough fuel. *)
Fixpoint pre_loop (fuel : nat) (total : Z) (s : State) : State :=
  match fuel with
  | O => s
  | S fuel' => if pre_charged_weeks s <? total then pre_loop fuel' total (pre_step s) else s
  end.

(** One iteration of the overdue [while] loop. *)
Definition over_step (s : State) : State :=
  let k := over_charged_weeks s + 1 in
  let s := mkState (principal_rem s) (accrued_interest s) (accrued_late s)
                   (pre_charged_weeks s) k in
  if (eps <? principal_rem s)%float then
    mkState (principal_rem s)
            (accrued_interest s + principal_rem s * weekly_interest_rate)%float
            (accrued_late s + principal_rem s * (Py.float_of_Z k * late_step_rate))%float
            (pre_charged_weeks s) k
  else s.

Fixpoint over_loop (fuel : nat) (total : Z) (s : State) : State :=
  match fuel with
  | O => s
  | S fuel' => if over_charged_weeks s <? total then over_loop fuel' total (over_step s) else s
  end.

(** [_process_accrual_until(target)]. A [date] is always truthy, so the
    [if agreed_due_on] tests reduce to their first branch. [term_weeks or x]
    is [x] when [term_weeks] is [0]. *)
Definition process_accrual_until (target : Z) (s : State) : State :=
  let pre_limit_date := if agreed_due_on <? target then agreed_due_on else target in
  let total_pre_started := ceil_weeks (pre_limit_date - disbursed_on) in
  let total_pre_started :=
    Z.max 0 (Z.min total_pre_started
                   (if term_weeks =? 0 then total_pre_started else term_weeks)) in
  let s := pre_loop (Z.to_nat (total_pre_started - pre_charged_weeks s)) total_pre_started s in
  if agreed_due_on <? target then
    let total_over_started := ceil_weeks (target - agreed_due_on) in
    over_loop (Z.to_nat (total_over_started - over_charged_weeks s)) total_over_started s
  else s.

(** The settlement test after the payments of one date. *)
Definition is_settled (s : State) : bool :=
  (principal_rem s <=? eps)%float && (accrued_interest s + accrued_late s <=? eps)%float.

(** The inner loop: apply every payment dated [pdate] at the head of the
    list; returns the rest of the list. *)
Fixpoint apply_day (pdate : Z) (l : list Payment) (s : State) : list Payment * State :=
  match l with
  | p :: l' =>
      if paid_on p =? pdate then apply_day pdate l' (apply_payment (amount p) s)
      else (l, s)
  | [] => ([], s)
  end.

(** The outer loop [while idx < n and not settled]; each round consumes at
    least one payment, so [length pays] rounds of fuel suffice. Returns the
    state and the [settled] flag. *)
Fixpoint walk (fuel : nat) (l : list Payment) (s : State) : State * bool :=
  match fuel with
  | O => (s, false)
  | S fuel' =>
      match l with
      | [] => (s, false)
      | p :: _ =>
          let pdate := paid_on p in
          let s1 := process_accrual_until pdate s in
          let '(rest, s2) := apply_day pdate l s1 in
          if is_settled s2 then (s2, true) else walk fuel' rest s2
      end
  end.

End Accrual.

(** ** Result *)

Record Result := mkResult {
  principal_receivable : float;
  accrued_interest_fees : float;
  outstanding : float;
  principal_alias : float;
  interest : float;
  late_incremental : float
}.

Definition init_state (principal : float) : State := mkState principal 0 0 0 0.

(** [amount_due_with_payments]; [processing_fee_rate] and
    [tx_charge_expense] are informational and unused. *)
Definition amount_due_with_payments (principal : float) (disbursed_on as_of : Z)
    (payments : list Payment) (weekly_interest_rate late_step_rate : float)
    (term_weeks : option Z) (agreed_due_on : option Z) : Result :=
  let pays := normalize_payments as_of payments in
  let '(tw, due) := resolve_terms disbursed_on term_weeks agreed_due_on in
  let '(s, settled) :=
    walk disbursed_on due tw weekly_interest_rate late_step_rate
         (length pays) pays (init_state principal) in
  let s := if settled then s
           else process_accrual_until disbursed_on due tw weekly_interest_rate
                  late_step_rate as_of s in
  let principal_receivable := Py.round2 (Py.fmax 0 (principal_rem s)) in
  let accrued_interest_fees :=
    Py.round2 (Py.fmax 0 (accrued_interest s + accrued_late s)%float) in
  let outstanding_total := Py.round2 (principal_receivable + accrued_interest_fees)%float in
  mkResult principal_receivable accrued_interest_fees outstanding_total
           principal_receivable (Py.round2 (accrued_interest s))
           (Py.round2 (accrued_late s)).

(** The [settled] flag of [amount_due_with_payments] after the walk over the payments. *)
Definition settled_flag (principal : float) (disbursed_on as_of : Z) (payments : list Payment)
    (weekly_interest_rate late_step_rate : float) (term_weeks agreed_due_on : option Z) : bool :=
  let pays := normalize_payments as_of payments in
  let '(tw, due) := resolve_terms disbursed_on term_weeks agreed_due_on in
  snd (walk disbursed_on due tw weekly_interest_rate late_step_rate (length pays) pays
            (init_state principal)).

(** ** Dates out of range *)

(** The ordinals of [date.min] (0001-01-01) and [date.max] (9999-12-31). *)
Definition date_min : Z := 1.
Definition date_max : Z := 3652059.

Definition date_ok (d : Z) : bool := (date_min <=? d) && (d <=? date_max).

(** [d + timedelta(days=n)] raises [OverflowError] when the [timedelta] is
    out of its range ([|n| > 999999999]) or the sum is not a [date]. *)
Definition add_days_overflows (d n : Z) : bool :=
  (999999999 <? Z.abs n) || negb (date_ok (d + n)).

(** The "SAFE DEFAULTS" block raises exactly when one of its two date
    additions overflows. *)
Definition terms_overflow (disbursed_on : Z) (term_weeks agreed_due_on : option Z) : bool :=
  match agreed_due_on, term_weeks with
  | None, None => add_days_overflows disbursed_on 7
  | None, Some tw => add_days_overflows disbursed_on (7 * tw)
  | Some _, _ => false
  end.

(** A call of [amount_due_with_payments] on dates of [datetime.date]:
    [None] when it raises [OverflowError], else its result. The rest of the
    function has no failing operation on such inputs. *)
Definition amount_due_call (principal : float) (disbursed_on as_of : Z)
    (payments : list Payment) (weekly_interest_rate late_step_rate : float)
    (term_weeks : option Z) (agreed_due_on : option Z) : option Result :=
  if terms_overflow disbursed_on term_weeks agreed_due_on then None
  else Some (amount_due_with_payments principal disbursed_on as_of payments
               weekly_interest_rate late_step_rate term_weeks agreed_due_on).

(** ** Payments made before disbursement, as the claims describe them *)

(** A payment paid entirely to principal: the principal goes down by
    [min(principal_rem, amount)]; interest and late are untouched. *)
Definition pay_to_principal (amt : float) (s : State) : State :=
  mkState (principal_rem s - Py.fmin (principal_rem s) amt)%float
          (accrued_interest s) (accrued_late s) (pre_charged_weeks s) (over_charged_weeks s).

(** The payments of date [pdate] at the head of the list, each paid entirely
    to principal; returns the rest of the list. *)
Fixpoint pay_day_to_principal (pdate : Z) (l : list Payment) (s : State) : list Payment * State :=
  match l with
  | p :: l' =>
      if paid_on p =? pdate then pay_day_to_principal pdate l' (pay_to_principal (amount p) s)
      else (l, s)
  | [] => ([], s)
  end.

(** The default rates of the signature. *)
Definition default_weekly_interest_rate : float := 0.10%float.
Definition default_late_step_rate : float := 0.025%float.

(** The dictionary returned by [scheduled_due_on_date]. *)
Record Schedule := mkSchedule {
  weeks : Z;
  scheduled_due_amount : float;
  processing_fee_upfront : float;
  net_cash_to_borrower : float
}.

Definition default_processing_fee_rate : float := 0.01%float.

(** [scheduled_due_on_date(...)]. [principal * weekly_interest_rate * weeks]
    is [(principal * weekly_interest_rate) * float(weeks)]. *)
Definition scheduled_due_on_date (principal : float) (disbursed_on due_on : Z)
    (weekly_interest_rate processing_fee_rate : float) : Schedule :=
  let weeks := Z.max 1 (ceil_weeks (due_on - disbursed_on)) in
  let base_interest := ((principal * weekly_interest_rate) * Py.float_of_Z weeks)%float in
  let processing_fee_upfront := (principal * processing_fee_rate)%float in
  let scheduled_due_amount := (principal + base_interest)%float in
  let net_cash_to_borrower := (principal - processing_fee_upfront)%float in
  mkSchedule weeks (Py.round2 scheduled_due_amount) (Py.round2 processing_fee_upfront)
             (Py.round2 net_cash_to_borrower).

(** ** Dates of the examples (proleptic ordinals of [datetime.date]) *)

Definition d_2024_01_01 : Z := 738886.
Definition d_2024_01_08 : Z := 738893.
Definition d_2024_01_22 : Z := 738907.

(** ** Sign and finiteness of binary64 values, read on [Prim2SF] *)

Module SF.

Definition finite (f : spec_float) : bool :=
  match f with S754_zero _ | S754_finite _ _ _ => true | _ => false end.

(** [0 <= x] holds in Python: a zero, [+inf] or a positive finite value. *)
Definition nonneg (f : spec_float) : bool :=
  match f with
  | S754_zero _ => true
  | S754_infinity s | S754_finite s _ _ => negb s
  | S754_nan => false
  end.

(** [f] is a zero, an infinity or a finite value of sign [s]. *)
Definition has_sign (s : bool) (f : spec_float) : bool :=
  match f with
  | S754_zero s' | S754_infinity s' | S754_finite s' _ _ => Bool.eqb s s'
  | S754_nan => false
  end.

End SF.

(** ** Auxiliary notions of the proofs

    The exact rational value of a binary64 datum and the rounding relation
    of the round-to-nearest-even operations, and the invariants of the
    accrual walk used below. *)

Module QF.
Definition pw (e : Z) : Q := Qpower (inject_Z 2) e.

Definition loc_ok (x : Q) (e m : Z) (l : location) : Prop :=
  match l with
  | loc_Exact => (x == inject_Z m * pw e)%Q
  | loc_Inexact c =>
      (inject_Z m * pw e < x < (inject_Z m + 1) * pw e)%Q /\
      (2 * x ?= (2 * inject_Z m + 1) * pw e)%Q = c
  end.

Definition rep (x : Q) (m e : Z) (l : location) : Prop :=
  1 <= m /\ loc_ok x e m l /\ e <= fexp prec emax (Zdigits2 m + e).
End QF.
Import QF.

(** The second rounding step of [binary_round_aux] (positive sign),
    applied to the rounded mantissa [M] at exponent [E]. *)
Definition out (M E : Z) : spec_float :=
  let '(mrs'', e'') := shr_fexp prec emax M E loc_Exact in
  match shr_m mrs'' with
  | Z0 => S754_zero false
  | Zpos m => if e'' <=? emax - prec then S754_finite false m e'' else S754_infinity false
  | _ => S754_nan
  end.

Definition out_spec (M E : Z) : spec_float :=
  if M =? 0 then S754_zero false
  else if M =? 9007199254740992 then
    (if E + 1 <=? 971 then S754_finite false 4503599627370496 (E + 1) else S754_infinity false)
  else if E <=? 971 then S754_finite false (Z.to_pos M) E else S754_infinity false.

(** The exact value of a finite binary64 datum. *)
Definition val (f : spec_float) : Q :=
  match f with
  | S754_finite s m e => inject_Z (cond_Zopp s (Zpos m)) * pw e
  | _ => 0
  end.

(** [f] is the binary64 rounding (to nearest even) of the non-negative exact value [x]. *)
Definition rnd (x : Q) (f : spec_float) : Prop :=
  ((x == 0)%Q /\ exists s, f = S754_zero s) \/
  (exists m e l, rep x m e l /\ f = binary_round_aux prec emax false m e l).

(** A finite binary64 datum that is not negative: a zero or a positive value. *)
Definition fin_nn (f : spec_float) : Prop :=
  f = S754_zero false \/ f = S754_zero true \/ exists m e, f = S754_finite false m e.

Definition date_le (p q : Payment) : Prop := paid_on p <= paid_on q.

Definition I2 (principal : float) (s : State) : Prop :=
  is_finite (principal_rem s) = true /\ (0 <=? principal_rem s)%float = true /\
  (principal_rem s <=? principal)%float = true.

Definition K10 (p : Payment) (s : State) : Prop :=
  accrued_interest s = 0%float /\ accrued_late s = 0%float /\ 0 <= pre_charged_weeks s /\
  is_finite (principal_rem s) = true /\ (0 <=? principal_rem s)%float = true /\
  (principal_rem s <=? amount p)%float = true.

Definition K10_done (s : State) : Prop :=
  accrued_interest s = 0%float /\ accrued_late s = 0%float /\ 0 <= pre_charged_weeks s /\
  principal_rem s = 0%float.

Definition I6 (s : State) : Prop :=
  is_finite (principal_rem s) = true /\ (0 <=? principal_rem s)%float = true /\
  (0 <=? accrued_interest s)%float = true /\ (0 <=? accrued_late s)%float = true /\
  0 <= over_charged_weeks s.

Definition Mono (s s' : State) : Prop :=
  (accrued_interest s <=? accrued_interest s')%float = true /\
  (accrued_late s <=? accrued_late s')%float = true.

(** Finite, non-negative payment amount. *)
Definition fin_amount (p : Payment) : Prop :=
  is_finite (amount p) = true /\ (0 <=? amount p)%float = true.

(** [kle p q]: [p] may precede [q] in the sorted list. *)
Definition kle (p q : Payment) : Prop := key_lt q p = false.

(** The state of a loan under zero rates: finite principal [>= 0], nothing accrued. *)
Definition J0 (s : State) : Prop :=
  is_finite (principal_rem s) = true /\ (0 <=? principal_rem s)%float = true /\
  accrued_interest s = 0%float /\ accrued_late s = 0%float /\ 0 <= over_charged_weeks s.


(** * Properties *)

(** ** Binary64 facts, from the specification of the primitive floats *)

Module F64.

Lemma Prim2SF_zero : Prim2SF 0%float = S754_zero false.
Proof. reflexivity. Qed.

Lemma is_finite_sf (x : float) : is_finite x = true -> SF.finite (Prim2SF x) = true.
Proof.
  unfold is_finite, Prim2SF.
  destruct (is_nan x), (is_zero x), (is_infinity x); simpl; try discriminate; auto.
  intros _. destruct (FloatOps.Z.frexp x) as [r ex].
  destruct (shr_fexp _ _ _ _ _) as [sh e'].
  destruct (shr_m sh); reflexivity.
Qed.

Lemma sub_self (x : float) : is_finite x = true -> (x - x)%float = 0%float.
Proof.
  intros H. apply Prim2SF_inj. rewrite sub_spec, Prim2SF_zero.
  apply is_finite_sf in H. unfold SF64sub.
  destruct (Prim2SF x) as [s|s| |s m e]; try discriminate.
  - destruct s; reflexivity.
  - cbn [SFsub]. rewrite Z.sub_diag. reflexivity.
Qed.

Lemma sub_zero (x : float) : (x - 0)%float = x.
Proof.
  apply Prim2SF_inj. rewrite sub_spec, Prim2SF_zero. unfold SF64sub.
  destruct (Prim2SF x) as [[|]|[|]| |s m e]; reflexivity.
Qed.

(** [0 - z] is [+0] for a zero [z] of either sign. *)
Lemma zero_sub_zero (x : float) (s : bool) :
  Prim2SF x = S754_zero s -> (0 - x)%float = 0%float.
Proof.
  intros H. apply Prim2SF_inj. rewrite sub_spec, Prim2SF_zero, H.
  destruct s; reflexivity.
Qed.

(** *** Comparisons *)

Lemma SFcompare_antisym (x y : spec_float) :
  SFcompare y x = option_map CompOpp (SFcompare x y).
Proof.
  destruct x as [sx|sx| |sx mx ex], y as [sy|sy| |sy my ey];
    try destruct sx; try destruct sy; try reflexivity; cbn [SFcompare option_map].
  all: rewrite (Z.compare_antisym ex ey); destruct (ex ?= ey)%Z; cbn [CompOpp];
    try reflexivity.
  all: pose proof (Pos.compare_cont_antisym mx my Eq) as A; cbn [CompOpp] in A;
    rewrite A; reflexivity.
Qed.

Lemma leb_not_gtb (x y : float) : (x <=? y)%float = true -> (y <? x)%float = false.
Proof.
  rewrite leb_spec, ltb_spec. unfold SFleb, SFltb.
  rewrite (SFcompare_antisym (Prim2SF x) (Prim2SF y)).
  destruct (SFcompare (Prim2SF x) (Prim2SF y)) as [[]|]; cbn; congruence.
Qed.

Lemma ltb_leb (x y : float) : (x <? y)%float = true -> (x <=? y)%float = true.
Proof.
  rewrite leb_spec, ltb_spec. unfold SFleb, SFltb.
  destruct (SFcompare (Prim2SF x) (Prim2SF y)) as [[]|]; cbn; congruence.
Qed.

Lemma not_ltb_leb (x y : float) :
  (x <? y)%float = false -> SF.finite (Prim2SF x) = true -> SF.finite (Prim2SF y) = true ->
  (y <=? x)%float = true.
Proof.
  rewrite leb_spec, ltb_spec. unfold SFleb, SFltb.
  rewrite (SFcompare_antisym (Prim2SF y) (Prim2SF x)).
  destruct (Prim2SF x) as [sx|sx| |sx mx ex], (Prim2SF y) as [sy|sy| |sy my ey];
    cbn [SF.finite]; try discriminate; intros H _ _;
    destruct (SFcompare _ _) as [[]|] eqn:E; cbn in *; try congruence;
    try (destruct sx; discriminate); try (destruct sy; discriminate);
    destruct sx, sy; discriminate.
Qed.

Lemma eqb_refl (x : float) : Prim2SF x <> S754_nan -> (x =? x)%float = true.
Proof.
  intros H. rewrite FloatAxioms.eqb_spec. unfold SFeqb.
  destruct (Prim2SF x) as [s|s| |s m e]; [destruct s; reflexivity| destruct s; reflexivity
    | congruence |].
  cbn. rewrite Z.compare_refl. destruct s; [rewrite Pos.compare_cont_refl; reflexivity|].
  rewrite Pos.compare_cont_refl. reflexivity.
Qed.

Lemma nonneg_spec (x : float) : (0 <=? x)%float = SF.nonneg (Prim2SF x).
Proof.
  rewrite leb_spec, Prim2SF_zero. destruct (Prim2SF x) as [[]|[]| |[] m e]; reflexivity.
Qed.

(** A non-negative value that is not positive is a zero. *)
Lemma nonneg_not_pos_zero (x : float) :
  (0 <=? x)%float = true -> (0 <? x)%float = false -> exists s, Prim2SF x = S754_zero s.
Proof.
  rewrite nonneg_spec, ltb_spec, Prim2SF_zero. unfold SFltb.
  destruct (Prim2SF x) as [s|[]| |[] m e]; cbn; try discriminate; eauto.
Qed.

(** *** Signs of rounded results *)

Lemma iter_pos_inv {A : Type} (P : A -> Prop) (f : A -> A) :
  (forall x, P x -> P (f x)) -> forall p x, P x -> P (SpecFloat.iter_pos f p x).
Proof. intros Hf p. induction p; intros x Hx; cbn; auto. Qed.

Lemma shr_1_nonneg (r : shr_record) : 0 <= shr_m r -> 0 <= shr_m (shr_1 r).
Proof. destruct r as [m rr ss]; cbn; destruct m as [|[p|p|]|p]; cbn; lia. Qed.

Lemma shr_nonneg (r : shr_record) (e n : Z) :
  0 <= shr_m r -> 0 <= shr_m (fst (shr r e n)).
Proof.
  intros H. unfold shr. destruct n; cbn; auto.
  apply (iter_pos_inv (fun r => 0 <= shr_m r)); auto using shr_1_nonneg.
Qed.

Lemma shr_fexp_nonneg (m e : Z) (l : location) :
  0 <= m -> 0 <= shr_m (fst (shr_fexp prec emax m e l)).
Proof. intros H. unfold shr_fexp. apply shr_nonneg. destruct l as [|[]]; cbn; auto. Qed.

Lemma rne_nonneg (m : Z) (l : location) : 0 <= m -> 0 <= round_nearest_even m l.
Proof. destruct l as [|[]]; cbn; try destruct (Z.even m); lia. Qed.

Lemma binary_round_aux_sign (sx : bool) (mx ex : Z) (lx : location) :
  0 <= mx -> SF.has_sign sx (binary_round_aux prec emax sx mx ex lx) = true.
Proof.
  intros H. unfold binary_round_aux.
  pose proof (shr_fexp_nonneg mx ex lx H) as H1.
  destruct (shr_fexp prec emax mx ex lx) as [mrs' e'] eqn:E1. cbn in H1.
  pose proof (shr_fexp_nonneg _ e' loc_Exact
                (rne_nonneg _ (loc_of_shr_record mrs') H1)) as H2.
  destruct (shr_fexp prec emax _ e' loc_Exact) as [mrs'' e''] eqn:E2. cbn in H2.
  destruct (shr_m mrs'') as [|p|p]; cbn.
  - apply Bool.eqb_reflx.
  - destruct (e'' <=? _); apply Bool.eqb_reflx.
  - lia.
Qed.

Lemma binary_round_sign (sx : bool) (mx : positive) (ex : Z) :
  SF.has_sign sx (binary_round prec emax sx mx ex) = true.
Proof.
  unfold binary_round. destruct (shl_align _ _ _) as [mz ez].
  apply binary_round_aux_sign. lia.
Qed.

Lemma has_sign_false_nonneg (f : spec_float) : SF.has_sign false f = true -> SF.nonneg f = true.
Proof. destruct f as [[]|[]| |[] m e]; cbn; auto. Qed.

Lemma binary_normalize_nonneg (m e : Z) :
  0 <= m -> SF.nonneg (binary_normalize prec emax m e false) = true.
Proof.
  destruct m as [|p|p]; intros H; cbn [binary_normalize]; [reflexivity| |lia].
  apply has_sign_false_nonneg, binary_round_sign.
Qed.

Lemma add_nonneg (x y : float) :
  (0 <=? x)%float = true -> (0 <=? y)%float = true -> (0 <=? x + y)%float = true.
Proof.
  rewrite !nonneg_spec, add_spec. unfold SF64add.
  destruct (Prim2SF x) as [sx|sx| |sx mx ex], (Prim2SF y) as [sy|sy| |sy my ey];
    cbn [SF.nonneg]; intros Hx Hy; try discriminate;
    try (destruct sx; try discriminate); try (destruct sy; try discriminate);
    try reflexivity.
  unfold SFadd. apply binary_normalize_nonneg. cbn [cond_Zopp]. lia.
Qed.

Lemma SFldexp_nonneg (g : spec_float) (k : Z) :
  SF.nonneg g = true -> SF.nonneg (SFldexp prec emax g k) = true.
Proof.
  destruct g as [sg|sg| |sg mg eg]; cbn [SFldexp]; auto.
  cbn [SF.nonneg]. destruct sg; try discriminate. intros _.
  apply has_sign_false_nonneg, binary_round_sign.
Qed.

Lemma SF2Prim_nonneg (f : spec_float) : SF.has_sign false f = true -> (0 <=? SF2Prim f)%float = true.
Proof.
  destruct f as [[]|[]| |[] m e]; cbn [SF.has_sign]; try discriminate; try reflexivity.
  intros _. cbn [SF2Prim]. rewrite nonneg_spec. unfold FloatOps.Z.ldexp.
  rewrite ldshiftexp_spec. apply SFldexp_nonneg.
  rewrite of_uint63_spec. apply binary_normalize_nonneg.
  apply Uint63.to_Z_bounded.
Qed.

Lemma SFdiv_core_nonneg (m1 e1 m2 e2 : Z) :
  0 <= m1 -> 0 < m2 -> 0 <= fst (fst (SFdiv_core_binary prec emax m1 e1 m2 e2)).
Proof.
  intros H1 H2. unfold SFdiv_core_binary. cbv zeta.
  set (s := e1 - e2 - _).
  set (m' := match s with Zpos _ => Z.shiftl m1 s | Z0 => m1 | Zneg _ => 0 end).
  assert (Hm : 0 <= m') by (unfold m'; destruct s; [lia | apply Z.shiftl_nonneg; lia | lia]).
  assert (Hq : 0 <= fst (Z.div_eucl m' m2)).
  { change (fst (Z.div_eucl m' m2)) with (m' / m2). apply Z.div_pos; lia. }
  destruct (Z.div_eucl m' m2) as [q r]. exact Hq.
Qed.

Lemma round2_nonneg (x : float) : (0 <=? x)%float = true -> (0 <=? Py.round2 x)%float = true.
Proof.
  intros H. pose proof H as H'. rewrite nonneg_spec in H'. unfold Py.round2.
  destruct (Prim2SF x) as [s|s| |s m e] eqn:E; auto.
  destruct s; [discriminate|].
  destruct (0 <=? e); auto.
  destruct (Py.rne_div _ _) as [|kp|kp]; try reflexivity.
  apply SF2Prim_nonneg. unfold SFdiv.
  pose proof (SFdiv_core_nonneg (Zpos kp) 0 (Zpos 100) 0) as Hq.
  destruct (SFdiv_core_binary _ _ _ _ _ _) as [[mz ez] lz].
  apply binary_round_aux_sign. cbn in Hq. lia.
Qed.

Lemma fmax_zero_nonneg (x : float) : (0 <=? Py.fmax 0 x)%float = true.
Proof.
  unfold Py.fmax. destruct (0 <? x)%float eqn:E; [apply ltb_leb; exact E | reflexivity].
Qed.

(** *** Exact values of canonical finite floats *)

Lemma iter_xO_value (m d : positive) : Zpos (Pos.iter xO m d) = Zpos m * 2 ^ Zpos d.
Proof.
  induction d as [|d IH] using Pos.peano_ind.
  - cbn. lia.
  - rewrite Pos.iter_succ, Pos2Z.inj_succ, Z.pow_succ_r by lia.
    change (Zpos (xO (Pos.iter xO m d))) with (2 * Zpos (Pos.iter xO m d)).
    rewrite IH. ring.
Qed.

Lemma shl_align_value (m : positive) (e ez : Z) :
  ez <= e -> Zpos (fst (shl_align m e ez)) = Zpos m * 2 ^ (e - ez).
Proof.
  intros H. unfold shl_align. destruct (ez - e) as [|d|d] eqn:E.
  - replace (e - ez) with 0 by lia. cbn. lia.
  - lia.
  - cbn [fst]. rewrite iter_xO_value. f_equal. f_equal. lia.
Qed.

Lemma digits2_pos_bounds (m : positive) :
  2 ^ (Zpos (digits2_pos m) - 1) <= Zpos m < 2 ^ Zpos (digits2_pos m).
Proof.
  induction m as [m IH|m IH|]; cbn [digits2_pos]; [| |cbn; lia];
    rewrite Pos2Z.inj_succ, <- Z.add_1_r;
    [change (Zpos (xI m)) with (2 * Zpos m + 1)
    | change (Zpos (xO m)) with (2 * Zpos m)];
    assert (P : 0 < Zpos (digits2_pos m)) by lia;
    assert (E1 : 2 ^ (Zpos (digits2_pos m) + 1 - 1) = 2 ^ Zpos (digits2_pos m))
      by (f_equal; lia);
    assert (E2 : 2 ^ (Zpos (digits2_pos m) + 1) = 2 * 2 ^ Zpos (digits2_pos m))
      by (rewrite Z.pow_add_r by lia; ring);
    assert (E3 : 2 ^ Zpos (digits2_pos m) = 2 * 2 ^ (Zpos (digits2_pos m) - 1))
      by (rewrite <- (Z.pow_1_r 2) at 2; rewrite <- Z.pow_add_r by lia; f_equal; lia);
    rewrite ?E1, ?E2; lia.
Qed.

(** A valid finite float has at most 53 digits, exactly 53 unless it is
    subnormal, and an exponent between [emin] and [emax - prec]. *)
Lemma valid_finite_bounds (s : bool) (m : positive) (e : Z) :
  valid_binary (S754_finite s m e) = true ->
  -1074 <= e <= 971 /\ Zpos (digits2_pos m) <= 53 /\
  (e = -1074 \/ Zpos (digits2_pos m) = 53).
Proof.
  cbn [valid_binary]. unfold bounded, canonical_mantissa, fexp, SpecFloat.emin.
  rewrite andb_true_iff, Z.eqb_eq, Z.leb_le.
  change prec with 53; change emax with 1024. lia.
Qed.

Lemma compare_pos_finite (m1 m2 : positive) (e1 e2 : Z) :
  valid_binary (S754_finite false m1 e1) = true ->
  valid_binary (S754_finite false m2 e2) = true ->
  SFcompare (S754_finite false m1 e1) (S754_finite false m2 e2) =
  Some (Z.compare (Zpos m1 * 2 ^ (e1 - Z.min e1 e2)) (Zpos m2 * 2 ^ (e2 - Z.min e1 e2))).
Proof.
  intros V1 V2.
  apply valid_finite_bounds in V1, V2.
  pose proof (digits2_pos_bounds m1) as D1. pose proof (digits2_pos_bounds m2) as D2.
  cbn [SFcompare]. destruct (Z.compare_spec e1 e2) as [E|E|E].
  - subst e2. rewrite Z.min_id, Z.sub_diag, !Z.mul_1_r. reflexivity.
  - rewrite Z.min_l by lia. rewrite Z.sub_diag, Z.mul_1_r.
    assert (P53 : 2 ^ Zpos (digits2_pos m1) <= 2 ^ 53) by (apply Z.pow_le_mono_r; lia).
    assert (M2 : 2 ^ 52 <= Zpos m2).
    { destruct V2 as [_ [_ [V2|V2]]]; [lia|]. rewrite V2 in D2. apply D2. }
    assert (K : 2 <= 2 ^ (e2 - e1)).
    { change 2 with (2 ^ 1) at 1. apply Z.pow_le_mono_r; lia. }
    assert (Q : 2 ^ 53 = 2 * 2 ^ 52) by reflexivity.
    symmetry. f_equal. apply Z.compare_lt_iff. nia.
  - rewrite Z.min_r by lia. rewrite Z.sub_diag, Z.mul_1_r.
    assert (P53 : 2 ^ Zpos (digits2_pos m2) <= 2 ^ 53) by (apply Z.pow_le_mono_r; lia).
    assert (M1 : 2 ^ 52 <= Zpos m1).
    { destruct V1 as [_ [_ [V1|V1]]]; [lia|]. rewrite V1 in D1. apply D1. }
    assert (K : 2 <= 2 ^ (e1 - e2)).
    { change 2 with (2 ^ 1) at 1. apply Z.pow_le_mono_r; lia. }
    assert (Q : 2 ^ 53 = 2 * 2 ^ 52) by reflexivity.
    symmetry. f_equal. apply Z.compare_gt_iff. nia.
Qed.

Lemma compare_neg_finite (m1 m2 : positive) (e1 e2 : Z) :
  SFcompare (S754_finite true m1 e1) (S754_finite true m2 e2) =
  option_map CompOpp (SFcompare (S754_finite false m1 e1) (S754_finite false m2 e2)).
Proof. cbn. destruct (e1 ?= e2)%Z; reflexivity. Qed.

(** [b - a] is non-negative when [a <= b]. *)
Lemma sub_nonneg_of_le (a b : float) :
  is_finite a = true -> is_finite b = true -> (a <=? b)%float = true ->
  (0 <=? b - a)%float = true.
Proof.
  intros Ha Hb Hle. rewrite nonneg_spec, sub_spec. rewrite leb_spec in Hle.
  apply is_finite_sf in Ha, Hb.
  pose proof (Prim2SF_valid a) as Va. pose proof (Prim2SF_valid b) as Vb.
  unfold SF64sub.
  destruct (Prim2SF a) as [sa|sa| |sa ma ea], (Prim2SF b) as [sb|sb| |sb mb eb];
    try discriminate; try (destruct sa, sb; reflexivity);
    try (destruct sa; [reflexivity|discriminate]);
    try (destruct sb; [discriminate|reflexivity]).
  unfold SFsub.
  destruct sa, sb.
  - unfold SFleb in Hle. rewrite compare_neg_finite, compare_pos_finite in Hle by assumption.
    apply binary_normalize_nonneg. cbn [cond_Zopp].
    rewrite Z.min_comm, !shl_align_value by lia.
    destruct (Z.compare_spec (Zpos ma * 2 ^ (ea - Z.min ea eb))
                            (Zpos mb * 2 ^ (eb - Z.min ea eb))); cbn in Hle;
      try discriminate; lia.
  - apply binary_normalize_nonneg. cbn [cond_Zopp].
    assert (0 < Zpos (fst (shl_align mb eb (Z.min eb ea)))) by lia.
    assert (0 < Zpos (fst (shl_align ma ea (Z.min eb ea)))) by lia. lia.
  - discriminate.
  - unfold SFleb in Hle. rewrite compare_pos_finite in Hle by assumption.
    apply binary_normalize_nonneg. cbn [cond_Zopp].
    rewrite Z.min_comm, !shl_align_value by lia.
    destruct (Z.compare_spec (Zpos ma * 2 ^ (ea - Z.min ea eb))
                            (Zpos mb * 2 ^ (eb - Z.min ea eb))); cbn in Hle;
      try discriminate; lia.
Qed.

Lemma sf_is_finite (x : float) : SF.finite (Prim2SF x) = true -> is_finite x = true.
Proof.
  unfold is_finite, is_nan, is_infinity.
  rewrite !FloatAxioms.eqb_spec, abs_spec.
  change (Prim2SF infinity) with (S754_infinity false).
  destruct (Prim2SF x) as [s|s| |s m e]; intros H; try discriminate; [destruct s; reflexivity|].
  unfold SFeqb. cbn [SFabs SFcompare].
  destruct s; rewrite Z.compare_refl, Pos.compare_cont_refl; reflexivity.
Qed.

(** A non-negative value below a finite one is finite. *)
Lemma finite_of_nonneg_lt (x y : float) :
  (0 <=? x)%float = true -> (x <? y)%float = true -> is_finite y = true ->
  is_finite x = true.
Proof.
  intros H0 Hlt Hy. apply sf_is_finite. apply is_finite_sf in Hy.
  rewrite nonneg_spec in H0. rewrite ltb_spec in Hlt.
  destruct (Prim2SF x) as [s|[]| |s m e], (Prim2SF y) as [s'|s'| |s' m' e'];
    try reflexivity; try discriminate.
Qed.

(** Taking [min(y, 0)] from a non-negative [y] leaves [y] (up to the sign of
    a zero) and leaves nothing to carry on. *)
Lemma fmin_zero_step (y : float) :
  is_finite y = true -> (0 <=? y)%float = true ->
  ((y - Py.fmin y 0) =? y)%float = true /\ (0 - Py.fmin y 0)%float = 0%float.
Proof.
  intros Hf H0. unfold Py.fmin. destruct (0 <? y)%float eqn:E.
  - rewrite !sub_zero. split; [|reflexivity].
    apply eqb_refl. apply is_finite_sf in Hf. destruct (Prim2SF y); discriminate.
  - destruct (nonneg_not_pos_zero y H0 E) as [s Hs]. rewrite sub_self by exact Hf.
    split; [|exact (zero_sub_zero y s Hs)].
    rewrite FloatAxioms.eqb_spec, Prim2SF_zero, Hs. destruct s; reflexivity.
Qed.

Lemma fmin_le (a b : float) : (a <=? b)%float = true -> Py.fmin a b = a.
Proof. intros H. unfold Py.fmin. rewrite (leb_not_gtb a b H). reflexivity. Qed.

Lemma fmin_lt (a b : float) : (b <? a)%float = true -> Py.fmin a b = b.
Proof. intros H. unfold Py.fmin. rewrite H. reflexivity. Qed.

(** *** Values of sign [+]: no [-0] *)

Lemma binary_normalize_pos (m e : Z) :
  0 <= m -> SF.has_sign false (binary_normalize prec emax m e false) = true.
Proof.
  destruct m as [|p|p]; intros H; cbn [binary_normalize]; [reflexivity| |lia].
  apply binary_round_sign.
Qed.

Lemma SF2Prim_pos (f : spec_float) :
  SF.has_sign false f = true -> SF.has_sign false (Prim2SF (SF2Prim f)) = true.
Proof.
  destruct f as [[]|[]| |[] m e]; cbn [SF.has_sign]; try discriminate; try reflexivity.
  intros _. cbn [SF2Prim]. unfold FloatOps.Z.ldexp.
  rewrite ldshiftexp_spec, of_uint63_spec.
  pose proof (binary_normalize_pos (Uint63.to_Z (Uint63.of_Z (Zpos m))) 0
                (proj1 (Uint63.to_Z_bounded _))) as H.
  destruct (binary_normalize _ _ _ _ _) as [[]|[]| |[] m' e']; try discriminate;
    cbn [SFldexp]; try reflexivity.
  apply binary_round_sign.
Qed.

Lemma round2_pos (x : float) :
  SF.has_sign false (Prim2SF x) = true -> SF.has_sign false (Prim2SF (Py.round2 x)) = true.
Proof.
  intros H. unfold Py.round2.
  destruct (Prim2SF x) as [s|s| |s m e] eqn:E; try (rewrite E; exact H).
  cbn in H. destruct s; [discriminate|].
  destruct (0 <=? e); [rewrite E; reflexivity|].
  destruct (Py.rne_div _ _) as [|kp|kp]; try reflexivity.
  apply SF2Prim_pos. unfold SFdiv.
  pose proof (SFdiv_core_nonneg (Zpos kp) 0 (Zpos 100) 0) as Hq.
  destruct (SFdiv_core_binary _ _ _ _ _ _) as [[mz ez] lz].
  apply binary_round_aux_sign. cbn in Hq. lia.
Qed.

Lemma fmax_zero_pos (x : float) : SF.has_sign false (Prim2SF (Py.fmax 0 x)) = true.
Proof.
  unfold Py.fmax. destruct (0 <? x)%float eqn:E; [|reflexivity].
  rewrite ltb_spec, Prim2SF_zero in E.
  destruct (Prim2SF x) as [[]|[]| |[] m e]; try discriminate; reflexivity.
Qed.

Lemma add_zero_pos (x : float) :
  SF.has_sign false (Prim2SF x) = true -> (x + 0)%float = x.
Proof.
  intros H. apply Prim2SF_inj. rewrite add_spec, Prim2SF_zero. unfold SF64add.
  destruct (Prim2SF x) as [[]|[]| |[] m e]; try discriminate; reflexivity.
Qed.

Lemma pos_not_nan (x : float) : SF.has_sign false (Prim2SF x) = true -> Prim2SF x <> S754_nan.
Proof. intros H E. rewrite E in H. discriminate. Qed.

End F64.

(** ** Structure of the result *)

Lemma amount_due_fields (principal : float) (disbursed_on as_of : Z)
    (payments : list Payment) (wr lr : float) (tw due : option Z) :
  let r := amount_due_with_payments principal disbursed_on as_of payments wr lr tw due in
  outstanding r = Py.round2 (principal_receivable r + accrued_interest_fees r)%float.
Proof.
  unfold amount_due_with_payments.
  destruct (resolve_terms _ _ _) as [tw' due'].
  destruct (walk _ _ _ _ _ _ _ _) as [s settled].
  reflexivity.
Qed.

(** ** Claim C1 *)

(** C1 (counterexample): with principal 10000.12, default rates, default
    term and [as_of] one day after disbursement, [principal_receivable] is
    10000.12 and [accrued_interest_fees] is 1000.01, whose float sum
    11000.130000000001 differs from [outstanding] = 11000.13. *)
Lemma C1_counterexample :
  let r := amount_due_with_payments 10000.12%float d_2024_01_01 (d_2024_01_01 + 1) []
             default_weekly_interest_rate default_late_step_rate None None in
  principal_receivable r = 10000.12%float /\
  accrued_interest_fees r = 1000.01%float /\
  outstanding r = 11000.13%float /\
  (principal_receivable r + accrued_interest_fees r =? outstanding r)%float = false.
Proof. vm_compute. repeat split; reflexivity. Qed.

(** C1 (amended): for every input, [outstanding] is the 2-decimal rounding
    [round(principal_receivable + accrued_interest_fees, 2)] of the float sum
    of the two other returned fields. *)
Theorem C1_outstanding_is_rounded_sum (principal : float) (disbursed_on as_of : Z)
    (payments : list Payment) (wr lr : float) (tw due : option Z) :
  let r := amount_due_with_payments principal disbursed_on as_of payments wr lr tw due in
  outstanding r = Py.round2 (principal_receivable r + accrued_interest_fees r)%float.
Proof. apply amount_due_fields. Qed.

(** ** Claim C3 *)

(** C3: principal 200,000 disbursed 2024-01-01, due 2024-01-08, no
    payments, default rates, evaluated on 2024-01-22: interest 60,000, late
    15,000, outstanding 275,000. *)
Theorem C3_overdue_escalation :
  let r := amount_due_with_payments 200000%float d_2024_01_01 d_2024_01_22 []
             default_weekly_interest_rate default_late_step_rate None (Some d_2024_01_08) in
  interest r = 60000%float /\ late_incremental r = 15000%float /\
  outstanding r = 275000%float.
Proof. vm_compute. repeat split; reflexivity. Qed.

(** ** Claim C4 *)

(** C4: principal 100,000 disbursed 2024-01-01, due 2024-01-08, default
    rates, one payment of 110,000 on 2024-01-08: for every evaluation date on
    or after the payment, [outstanding] and [principal_receivable] are 0. *)
Theorem C4_full_early_payment (as_of : Z) (Hlater : d_2024_01_08 <= as_of) :
  let r := amount_due_with_payments 100000%float d_2024_01_01 as_of
             [mkPayment 110000%float d_2024_01_08]
             default_weekly_interest_rate default_late_step_rate None (Some d_2024_01_08) in
  outstanding r = 0%float /\ principal_receivable r = 0%float.
Proof.
  assert (E : (d_2024_01_08 <=? as_of) = true) by (apply Z.leb_le; exact Hlater).
  unfold amount_due_with_payments, normalize_payments; cbn [filter paid_on].
  rewrite E. vm_compute. split; reflexivity.
Qed.

Lemma C4_full_early_payment_witness :
  d_2024_01_08 <= d_2024_01_22 /\
  (let r := amount_due_with_payments 100000%float d_2024_01_01 d_2024_01_22
              [mkPayment 110000%float d_2024_01_08]
              default_weekly_interest_rate default_late_step_rate None (Some d_2024_01_08) in
   outstanding r = 0%float /\ principal_receivable r = 0%float).
Proof.
  split.
  - unfold d_2024_01_08, d_2024_01_22; lia.
  - apply C4_full_early_payment. unfold d_2024_01_08, d_2024_01_22; lia.
Defined.

(** ** Claim C7 *)

Lemma resolve_terms_default (disbursed_on : Z) :
  resolve_terms disbursed_on None None = resolve_terms disbursed_on None (Some (disbursed_on + 7)).
Proof.
  cbn. replace (disbursed_on + 7 - disbursed_on) with 7 by lia. reflexivity.
Qed.

(** C7: omitting both [term_weeks] and [agreed_due_on] gives exactly the
    result of passing [agreed_due_on = disbursed_on + 7 days]. *)
Theorem C7_default_term (principal : float) (disbursed_on as_of : Z)
    (payments : list Payment) (wr lr : float) :
  amount_due_with_payments principal disbursed_on as_of payments wr lr None None =
  amount_due_with_payments principal disbursed_on as_of payments wr lr None
    (Some (disbursed_on + 7)).
Proof.
  unfold amount_due_with_payments. rewrite resolve_terms_default. reflexivity.
Qed.

(** ** Claim C8 *)

Lemma normalize_payments_future (as_of : Z) (l1 l2 : list Payment) (p : Payment) :
  as_of < paid_on p ->
  normalize_payments as_of (l1 ++ p :: l2) = normalize_payments as_of (l1 ++ l2).
Proof.
  intros H. unfold normalize_payments. rewrite !filter_app. cbn [filter].
  replace (paid_on p <=? as_of) with false by (symmetry; apply Z.leb_gt; exact H).
  reflexivity.
Qed.

(** C8: adding, anywhere in the payment list, a payment dated strictly
    after [as_of] does not change the result. *)
Theorem C8_future_payment_no_effect (principal : float) (disbursed_on as_of : Z)
    (l1 l2 : list Payment) (p : Payment) (wr lr : float) (tw due : option Z)
    (Hfuture : as_of < paid_on p) :
  amount_due_with_payments principal disbursed_on as_of (l1 ++ p :: l2) wr lr tw due =
  amount_due_with_payments principal disbursed_on as_of (l1 ++ l2) wr lr tw due.
Proof.
  unfold amount_due_with_payments.
  rewrite (normalize_payments_future as_of l1 l2 p Hfuture). reflexivity.
Qed.

Lemma C8_future_payment_no_effect_witness :
  d_2024_01_08 < d_2024_01_22 /\
  amount_due_with_payments 100000%float d_2024_01_01 d_2024_01_08
    ([mkPayment 500%float d_2024_01_08] ++ mkPayment 90000%float d_2024_01_22 :: [])
    default_weekly_interest_rate default_late_step_rate None None =
  amount_due_with_payments 100000%float d_2024_01_01 d_2024_01_08
    ([mkPayment 500%float d_2024_01_08] ++ [])
    default_weekly_interest_rate default_late_step_rate None None.
Proof.
  split.
  - unfold d_2024_01_08, d_2024_01_22; lia.
  - apply C8_future_payment_no_effect. unfold d_2024_01_08, d_2024_01_22; cbn; lia.
Defined.

(** ** Counterexamples on concrete inputs *)

(** C2 (counterexample): principal 0.006 evaluated on its disbursement day
    gives [principal_receivable] = round(0.006, 2) = 0.01 > 0.006. *)
Lemma C2_counterexample :
  let r := amount_due_with_payments 0.006%float d_2024_01_01 d_2024_01_01 []
             default_weekly_interest_rate default_late_step_rate None None in
  principal_receivable r = 0.01%float /\ (principal_receivable r <=? 0.006)%float = false.
Proof. vm_compute. split; reflexivity. Qed.

(** C6 (counterexample): principal 100,000 disbursed 2024-01-01, default
    term and rates, one payment of 5,000 on 2024-01-04. On 2024-01-03 the
    accrued fees are 10,000; on 2024-01-04 they are 5,000, with the loan not
    settled (outstanding 105,000). *)
Lemma C6_counterexample :
  let pays := [mkPayment 5000%float (d_2024_01_01 + 3)] in
  let r1 := amount_due_with_payments 100000%float d_2024_01_01 (d_2024_01_01 + 2) pays
              default_weekly_interest_rate default_late_step_rate None None in
  let r2 := amount_due_with_payments 100000%float d_2024_01_01 (d_2024_01_01 + 3) pays
              default_weekly_interest_rate default_late_step_rate None None in
  accrued_interest_fees r1 = 10000%float /\ accrued_interest_fees r2 = 5000%float /\
  outstanding r2 = 105000%float /\
  (accrued_interest_fees r1 <=? accrued_interest_fees r2)%float = false.
Proof. vm_compute. repeat split; reflexivity. Qed.

(** C9 (counterexample): principal 0.006, evaluated the day before
    disbursement with no payments: [principal_receivable] is 0.01, not
    equal to the principal. And the call raises [OverflowError] for a loan
    disbursed on 9999-12-31 evaluated the day before, both terms omitted,
    and for [term_weeks = 600000] with [agreed_due_on] omitted. *)
Lemma C9_counterexample :
  let r := amount_due_with_payments 0.006%float d_2024_01_01 (d_2024_01_01 - 1) []
             default_weekly_interest_rate default_late_step_rate None None in
  accrued_interest_fees r = 0%float /\ principal_receivable r = 0.01%float /\
  (principal_receivable r =? 0.006)%float = false /\
  amount_due_call 1000 date_max (date_max - 1) [] default_weekly_interest_rate
    default_late_step_rate None None = None /\
  amount_due_call 1000 d_2024_01_01 (d_2024_01_01 - 1) [] default_weekly_interest_rate
    default_late_step_rate (Some 600000) None = None.
Proof. vm_compute. repeat split; reflexivity. Qed.

(** C10 (counterexample): principal [1 + 2^-30], disbursed 2024-01-01, two
    payments of 1 on 2023-12-30 and 2023-12-31, evaluated on 2024-01-01.
    After the first payment [2^-30 < 1e-9] of principal is left: the loan is
    settled and the walk stops, so the second pre-disbursement payment is
    never applied (it would take the principal to 0). *)
Lemma C10_counterexample :
  let P := (1 + 1 / 1073741824)%float in
  let pays := [mkPayment 1 (d_2024_01_01 - 2); mkPayment 1 (d_2024_01_01 - 1)] in
  let L := normalize_payments d_2024_01_01 pays in
  L = pays /\
  resolve_terms d_2024_01_01 None None = (1, d_2024_01_08) /\
  walk d_2024_01_01 d_2024_01_08 1 default_weekly_interest_rate default_late_step_rate
    (length L) L (init_state P) = (apply_payment 1 (init_state P), true) /\
  principal_rem (apply_payment 1 (init_state P)) = (1 / 1073741824)%float /\
  principal_rem (apply_payment 1 (apply_payment 1 (init_state P))) = 0%float.
Proof. vm_compute. repeat split; reflexivity. Qed.

(** ** C5: the payment waterfall *)

(** C5. [_apply_payment] allocates a payment to accrued interest first, then
    to accrued late penalty, then to principal, and discards any residue.
    For a state with finite balances, non-negative late penalty and
    principal, and a finite payment [amt] (with [r1 = amt - interest] and
    [r2 = r1 - late]):
    - if [amt] is strictly smaller than the accrued interest, only the
      interest is reduced (by [amt]); late penalty and principal compare
      equal to their previous values;
    - if it covers the interest but not the late penalty, interest becomes
      [0], late penalty is reduced by [r1], principal is unchanged;
    - if it covers interest and late penalty but not the principal, both
      become [0] and principal is reduced by [r2];
    - if it covers everything, all three balances become [0] (the residue
      [r2 - principal] is dropped). *)
Theorem C5_payment_waterfall (amt : float) (s : State)
  (Hamt : is_finite amt = true)
  (Hai : is_finite (accrued_interest s) = true)
  (Hal : is_finite (accrued_late s) = true)
  (Hpr : is_finite (principal_rem s) = true)
  (Hal0 : (0 <=? accrued_late s)%float = true)
  (Hpr0 : (0 <=? principal_rem s)%float = true) :
  let s' := apply_payment amt s in
  let ai := accrued_interest s in
  let al := accrued_late s in
  let pr := principal_rem s in
  let r1 := (amt - ai)%float in
  let r2 := (r1 - al)%float in
  ((amt <? ai)%float = true ->
     accrued_interest s' = (ai - amt)%float /\
     (accrued_late s' =? al)%float = true /\ (principal_rem s' =? pr)%float = true) /\
  ((ai <=? amt)%float = true -> (r1 <? al)%float = true ->
     accrued_interest s' = 0%float /\ accrued_late s' = (al - r1)%float /\
     (principal_rem s' =? pr)%float = true) /\
  ((ai <=? amt)%float = true -> (al <=? r1)%float = true -> (r2 <? pr)%float = true ->
     accrued_interest s' = 0%float /\ accrued_late s' = 0%float /\
     principal_rem s' = (pr - r2)%float) /\
  ((ai <=? amt)%float = true -> (al <=? r1)%float = true -> (pr <=? r2)%float = true ->
     accrued_interest s' = 0%float /\ accrued_late s' = 0%float /\
     principal_rem s' = 0%float).
Proof.
  destruct s as [pr ai al pre over]; cbn [accrued_interest accrued_late principal_rem] in *.
  unfold apply_payment; cbn [accrued_interest accrued_late principal_rem].
  repeat split; intros.
  (* interest only *)
  1-3: rewrite (F64.fmin_lt ai amt H), ?(F64.sub_self amt Hamt).
  { reflexivity. }
  { exact (proj1 (F64.fmin_zero_step al Hal Hal0)). }
  { rewrite (proj2 (F64.fmin_zero_step al Hal Hal0)).
    exact (proj1 (F64.fmin_zero_step pr Hpr Hpr0)). }
  (* interest and part of the late penalty *)
  1-3: rewrite (F64.fmin_le ai amt H), ?(F64.sub_self ai Hai), ?(F64.fmin_lt al _ H0).
  1-2: reflexivity.
  { assert (Hr1 : is_finite (amt - ai)%float = true).
    { apply (F64.finite_of_nonneg_lt _ al); [apply F64.sub_nonneg_of_le|..]; assumption. }
    rewrite (F64.sub_self _ Hr1).
    exact (proj1 (F64.fmin_zero_step pr Hpr Hpr0)). }
  (* interest, late penalty and part of the principal *)
  1-3: rewrite (F64.fmin_le ai amt H), ?(F64.sub_self ai Hai), ?(F64.fmin_le al _ H0),
         ?(F64.sub_self al Hal), ?(F64.fmin_lt pr _ H1); reflexivity.
  (* everything: the residue is dropped *)
  all: rewrite (F64.fmin_le ai amt H), ?(F64.sub_self ai Hai), ?(F64.fmin_le al _ H0),
         ?(F64.sub_self al Hal), ?(F64.fmin_le pr _ H1), ?(F64.sub_self pr Hpr); reflexivity.
Qed.

Lemma C5_payment_waterfall_witness :
  let s := mkState 1000 100 50 1 0 in
  (is_finite 30 = true /\ is_finite (accrued_interest s) = true /\
   is_finite (accrued_late s) = true /\ is_finite (principal_rem s) = true /\
   (0 <=? accrued_late s)%float = true /\ (0 <=? principal_rem s)%float = true) /\
  accrued_interest (apply_payment 30 s) = (100 - 30)%float /\
  (accrued_late (apply_payment 30 s) =? 50)%float = true /\
  (principal_rem (apply_payment 30 s) =? 1000)%float = true.
Proof.
  intros s. split; [repeat split; reflexivity|].
  refine (proj1 (C5_payment_waterfall 30 s _ _ _ _ _ _) _); reflexivity.
Defined.

(** ** C9: evaluation before disbursement *)

Lemma normalize_payments_none (as_of : Z) (l : list Payment) :
  Forall (fun p => as_of < paid_on p) l -> normalize_payments as_of l = [].
Proof.
  intros H. unfold normalize_payments.
  replace (filter _ l) with (@nil Payment); [reflexivity|].
  induction H as [|p l Hp _ IH]; cbn; [reflexivity|].
  rewrite (proj2 (Z.leb_gt _ _) Hp). exact IH.
Qed.

Lemma resolve_terms_due_ge (disbursed_on : Z) (term_weeks agreed_due_on : option Z) :
  (forall dd, agreed_due_on = Some dd -> disbursed_on <= dd) ->
  (forall w, term_weeks = Some w -> 0 <= w) ->
  disbursed_on <= snd (resolve_terms disbursed_on term_weeks agreed_due_on).
Proof.
  intros Hdue Htw.
  destruct agreed_due_on as [dd|], term_weeks as [w|]; cbn [resolve_terms snd]; unfold add_days;
    [apply Hdue; reflexivity | apply Hdue; reflexivity
    | specialize (Htw w eq_refl); lia | lia].
Qed.

(** Before disbursement no week has started: the accrual is a no-op. *)
Lemma process_accrual_before (disbursed_on agreed_due_on term_weeks : Z)
    (wr lr : float) (target : Z) (s : State) :
  target < disbursed_on -> target <= agreed_due_on -> 0 <= pre_charged_weeks s ->
  process_accrual_until disbursed_on agreed_due_on term_weeks wr lr target s = s.
Proof.
  intros H1 H2 H3. unfold process_accrual_until.
  rewrite (proj2 (Z.ltb_ge agreed_due_on target)) by lia.
  unfold ceil_weeks. rewrite (proj2 (Z.leb_le (target - disbursed_on) 0)) by lia.
  match goal with |- context [Z.to_nat ?x] =>
    replace (Z.to_nat x) with O by (destruct (term_weeks =? 0); lia) end.
  reflexivity.
Qed.

(** The "SAFE DEFAULTS" block does not overflow when the default due date is a date. *)
Lemma terms_no_overflow (disbursed_on : Z) (term_weeks agreed_due_on : option Z) :
  date_ok disbursed_on = true ->
  (forall w, term_weeks = Some w -> 0 <= w) ->
  (agreed_due_on = None ->
   add_days disbursed_on (7 * match term_weeks with Some w => w | None => 1 end) <= date_max) ->
  terms_overflow disbursed_on term_weeks agreed_due_on = false.
Proof.
  intros Hok Htw Hend. unfold date_ok, date_min, date_max in Hok.
  apply andb_prop in Hok as [H1 H2]. apply Z.leb_le in H1, H2.
  destruct agreed_due_on as [dd|]; [reflexivity|].
  specialize (Hend eq_refl). unfold add_days, date_max in Hend.
  unfold terms_overflow, add_days_overflows, date_ok, date_min, date_max.
  destruct term_weeks as [w|].
  - specialize (Htw w eq_refl).
    rewrite (proj2 (Z.ltb_ge _ _)) by lia.
    rewrite (proj2 (Z.leb_le 1 _)) by lia. rewrite (proj2 (Z.leb_le _ 3652059)) by lia.
    reflexivity.
  - rewrite (proj2 (Z.ltb_ge _ _)) by lia.
    rewrite (proj2 (Z.leb_le 1 _)) by lia. rewrite (proj2 (Z.leb_le _ 3652059)) by lia.
    reflexivity.
Qed.

(** C9. For [as_of] strictly before [disbursed_on], no payment on or before
    [as_of], loan terms that do not put the due date before disbursement
    ([agreed_due_on >= disbursed_on] and [term_weeks >= 0] when given), a
    non-negative principal, a [disbursed_on] in the range of
    [datetime.date] and, when [agreed_due_on] is omitted, a default due date
    [disbursed_on + 7 * (term_weeks or 1)] not after 9999-12-31, the call
    does not raise and nothing accrues: [accrued_interest_fees], [interest]
    and [late_incremental] are [0], [principal_receivable] equals
    [round(principal, 2)], and [outstanding] is
    [round(principal_receivable, 2)]. *)
Theorem C9_before_disbursement (principal : float) (disbursed_on as_of : Z)
    (payments : list Payment) (wr lr : float) (term_weeks agreed_due_on : option Z)
    (Hbefore : as_of < disbursed_on)
    (Hfuture : Forall (fun p => as_of < paid_on p) payments)
    (Hdue : forall dd, agreed_due_on = Some dd -> disbursed_on <= dd)
    (Htw : forall w, term_weeks = Some w -> 0 <= w)
    (Hprin : (0 <=? principal)%float = true)
    (Hok : date_ok disbursed_on = true)
    (Hend : agreed_due_on = None ->
            add_days disbursed_on (7 * match term_weeks with Some w => w | None => 1 end)
              <= date_max) :
  let r := amount_due_with_payments principal disbursed_on as_of payments wr lr
             term_weeks agreed_due_on in
  amount_due_call principal disbursed_on as_of payments wr lr term_weeks agreed_due_on = Some r /\
  accrued_interest_fees r = 0%float /\ interest r = 0%float /\
  late_incremental r = 0%float /\
  (principal_receivable r =? Py.round2 principal)%float = true /\
  outstanding r = Py.round2 (principal_receivable r).
Proof.
  split.
  { unfold amount_due_call. rewrite terms_no_overflow by assumption. reflexivity. }
  pose proof (resolve_terms_due_ge _ _ _ Hdue Htw) as Hge.
  unfold amount_due_with_payments. rewrite (normalize_payments_none _ _ Hfuture).
  destruct (resolve_terms disbursed_on term_weeks agreed_due_on) as [tw due].
  cbn [snd] in Hge. cbn [length walk].
  rewrite process_accrual_before by (cbn; lia).
  cbn [init_state principal_rem accrued_interest accrued_late
       principal_receivable accrued_interest_fees outstanding interest late_incremental].
  change (Py.round2 (Py.fmax 0 (0 + 0)%float)) with 0%float.
  change (Py.round2 0%float) with 0%float.
  split; [reflexivity|]. split; [reflexivity|]. split; [reflexivity|]. split.
  - unfold Py.fmax at 1. destruct (0 <? principal)%float eqn:E.
    + apply F64.eqb_refl. intros Hn.
      pose proof (F64.round2_nonneg principal Hprin) as H.
      rewrite F64.nonneg_spec, Hn in H. discriminate.
    + destruct (F64.nonneg_not_pos_zero principal Hprin E) as [s Hs].
      unfold Py.round2 at 2. rewrite Hs.
      rewrite FloatAxioms.eqb_spec, Hs. destruct s; reflexivity.
  - rewrite F64.add_zero_pos; [reflexivity|].
    apply F64.round2_pos, F64.fmax_zero_pos.
Qed.

Lemma C9_before_disbursement_witness :
  (d_2024_01_01 - 1 < d_2024_01_01 /\
   Forall (fun p => d_2024_01_01 - 1 < paid_on p) [mkPayment 500 d_2024_01_08] /\
   (forall dd, @None Z = Some dd -> d_2024_01_01 <= dd) /\
   (forall w, @None Z = Some w -> 0 <= w) /\
   (0 <=? 1000)%float = true /\ date_ok d_2024_01_01 = true /\
   (@None Z = None -> add_days d_2024_01_01 (7 * 1) <= date_max)) /\
  let r := amount_due_with_payments 1000 d_2024_01_01 (d_2024_01_01 - 1)
             [mkPayment 500 d_2024_01_08] default_weekly_interest_rate
             default_late_step_rate None None in
  amount_due_call 1000 d_2024_01_01 (d_2024_01_01 - 1) [mkPayment 500 d_2024_01_08]
    default_weekly_interest_rate default_late_step_rate None None = Some r /\
  accrued_interest_fees r = 0%float /\ interest r = 0%float /\
  late_incremental r = 0%float /\
  (principal_receivable r =? Py.round2 1000)%float = true /\
  outstanding r = Py.round2 (principal_receivable r).
Proof.
  split.
  - split; [unfold d_2024_01_01; lia|].
    split; [repeat constructor; unfold d_2024_01_01, d_2024_01_08; cbn; lia|].
    split; [discriminate|]. split; [discriminate|]. split; [reflexivity|].
    split; [reflexivity|]. intros _. unfold add_days, d_2024_01_01, date_max. lia.
  - apply C9_before_disbursement;
      [unfold d_2024_01_01; lia
      | repeat constructor; unfold d_2024_01_01, d_2024_01_08; cbn; lia
      | discriminate | discriminate | reflexivity | reflexivity
      | intros _; unfold add_days, d_2024_01_01, date_max; lia].
Defined.


(** * Rounding and the accrual walk *)


Lemma pw_pos (e : Z) : (0 < pw e)%Q.
Proof. apply Qpower_0_lt. reflexivity. Qed.

Lemma pw_add (a b : Z) : (pw (a + b) == pw a * pw b)%Q.
Proof. apply Qpower_plus. discriminate. Qed.

Lemma pw_succ (e : Z) : (pw (e + 1) == 2 * pw e)%Q.
Proof. rewrite pw_add. unfold pw at 2. rewrite Qpower_1_r. ring. Qed.

Lemma pw_Z (n : Z) : 0 <= n -> (pw n == inject_Z (2 ^ n))%Q.
Proof. intros H. unfold pw. rewrite Zpower_Qpower by exact H. reflexivity. Qed.

Lemma loc_ok_shr_1 (x : Q) (e : Z) (r : shr_record) :
  0 <= shr_m r -> loc_ok x e (shr_m r) (loc_of_shr_record r) ->
  0 <= shr_m (shr_1 r) /\ loc_ok x (e + 1) (shr_m (shr_1 r)) (loc_of_shr_record (shr_1 r)).
Proof.
  intros Hm H.
  pose proof (pw_pos e) as P.
  destruct r as [m rb sb]; cbn [shr_m] in *.
  assert (Hpar : exists p b, m = 2 * p + b /\ 0 <= p /\ (b = 0 \/ b = 1) /\
                 shr_1 (Build_shr_record m rb sb) =
                 Build_shr_record p (b =? 1) (rb || sb)).
  { destruct m as [|[p|p|]|p]; try lia.
    - exists 0, 0. cbn. repeat split; auto; lia.
    - exists (Zpos p), 1. cbn. repeat split; auto; lia.
    - exists (Zpos p), 0. cbn. repeat split; auto; lia.
    - exists 0, 1. cbn. repeat split; auto; lia. }
  destruct Hpar as [p [b [Em [Hp [Hb Es]]]]]. rewrite Es. cbn [shr_m].
  split; [exact Hp|]. subst m.
  destruct Hb as [Hb|Hb]; subst b;
    [change (0 =? 1) with false | change (1 =? 1) with true];
    destruct rb, sb; cbn [loc_of_shr_record orb loc_ok] in H |- *;
    rewrite (pw_succ e);
    rewrite !inject_Z_plus, !inject_Z_mult in H;
    change (inject_Z 0) with 0%Q in *; change (inject_Z 1) with 1%Q in *;
    change (inject_Z 2) with 2%Q in *;
    set (pp := inject_Z p) in *; set (E := pw e) in *;
    repeat match goal with
    | H : _ /\ _ |- _ => destruct H
    | H : (_ ?= _)%Q = Lt |- _ => apply (proj2 (Qlt_alt _ _)) in H
    | H : (_ ?= _)%Q = Gt |- _ => apply (proj2 (Qgt_alt _ _)) in H
    | H : (_ ?= _)%Q = Eq |- _ => apply (proj2 (Qeq_alt _ _)) in H
    end;
    repeat split;
    try match goal with
    | |- (_ ?= _)%Q = Lt => apply (proj1 (Qlt_alt _ _))
    | |- (_ ?= _)%Q = Gt => apply (proj1 (Qgt_alt _ _))
    | |- (_ ?= _)%Q = Eq => apply (proj1 (Qeq_alt _ _))
    end; nra.
Qed.

Lemma loc_ok_iter (n : positive) : forall (x : Q) (e : Z) (r : shr_record),
  0 <= shr_m r -> loc_ok x e (shr_m r) (loc_of_shr_record r) ->
  0 <= shr_m (SpecFloat.iter_pos shr_1 n r) /\
  loc_ok x (e + Zpos n) (shr_m (SpecFloat.iter_pos shr_1 n r)) (loc_of_shr_record (SpecFloat.iter_pos shr_1 n r)).
Proof.
  induction n as [n IH|n IH|]; intros x e r H0 H; cbn [iter_pos].
  - destruct (loc_ok_shr_1 x e r H0 H) as [H1 H2].
    destruct (IH x (e + 1) _ H1 H2) as [H3 H4].
    destruct (IH x (e + 1 + Zpos n) _ H3 H4) as [H5 H6].
    split; [exact H5|]. replace (e + Zpos n~1) with (e + 1 + Zpos n + Zpos n) by lia.
    exact H6.
  - destruct (IH x e r H0 H) as [H3 H4].
    destruct (IH x (e + Zpos n) _ H3 H4) as [H5 H6].
    split; [exact H5|]. replace (e + Zpos n~0) with (e + Zpos n + Zpos n) by lia.
    exact H6.
  - exact (loc_ok_shr_1 x e r H0 H).
Qed.

Lemma loc_ok_shr_fexp (x : Q) (m e : Z) (l : location) :
  0 <= m -> loc_ok x e m l ->
  let '(r', e') := shr_fexp prec emax m e l in
  e' = Z.max e (fexp prec emax (Zdigits2 m + e)) /\ 0 <= shr_m r' /\
  loc_ok x e' (shr_m r') (loc_of_shr_record r').
Proof.
  intros H0 H. unfold shr_fexp, shr.
  assert (R : shr_m (shr_record_of_loc m l) = m /\
              loc_of_shr_record (shr_record_of_loc m l) = l)
    by (destruct l as [|[]]; split; reflexivity).
  destruct R as [R1 R2].
  destruct (fexp prec emax (Zdigits2 m + e) - e) as [|n|n] eqn:En.
  - split; [lia|]. rewrite R1, R2. split; assumption.
  - assert (H0' : 0 <= shr_m (shr_record_of_loc m l)) by (rewrite R1; exact H0).
    assert (H' : loc_ok x e (shr_m (shr_record_of_loc m l))
                   (loc_of_shr_record (shr_record_of_loc m l))) by (rewrite R1, R2; exact H).
    destruct (loc_ok_iter n x e _ H0' H') as [H1 H2].
    split; [lia|]. split; assumption.
  - split; [lia|]. rewrite R1, R2. split; assumption.
Qed.

(** Bounds of a located value. *)
Lemma loc_ok_bounds (x : Q) (e m : Z) (l : location) :
  loc_ok x e m l -> (inject_Z m * pw e <= x < (inject_Z m + 1) * pw e)%Q.
Proof.
  pose proof (pw_pos e) as P.
  destruct l as [|c]; cbn [loc_ok]; intros H.
  - rewrite H. split; [apply Qle_refl|]. lra.
  - destruct H as [[H1 H2] _]. split; [apply Qlt_le_weak|]; assumption.
Qed.

Lemma Zlt_of_Qmult (a b : Z) (P : Q) :
  (0 < P)%Q -> (inject_Z a * P < inject_Z b * P)%Q -> a < b.
Proof.
  intros HP H. rewrite Zlt_Qlt. apply Qmult_lt_r with (z := P); assumption.
Qed.

Lemma Zle_of_Qmult (a b : Z) (P : Q) :
  (0 < P)%Q -> (inject_Z a * P <= inject_Z b * P)%Q -> a <= b.
Proof.
  intros HP H. rewrite Zle_Qle. apply Qmult_le_r with (z := P); assumption.
Qed.

Lemma rne_bounds (m : Z) (l : location) :
  m <= round_nearest_even m l <= m + 1.
Proof. destruct l as [|[]]; cbn; try destruct (Z.even m); lia. Qed.

Lemma rne_mono (x1 x2 : Q) (E m1 m2 : Z) (l1 l2 : location) :
  (x1 <= x2)%Q -> loc_ok x1 E m1 l1 -> loc_ok x2 E m2 l2 ->
  round_nearest_even m1 l1 <= round_nearest_even m2 l2.
Proof.
  intros Hx H1 H2.
  pose proof (pw_pos E) as P.
  pose proof (loc_ok_bounds _ _ _ _ H1) as [B1 B1'].
  pose proof (loc_ok_bounds _ _ _ _ H2) as [B2 B2'].
  assert (Hm : m1 <= m2).
  { enough (m1 < m2 + 1) by lia. apply (Zlt_of_Qmult _ _ (pw E) P).
    rewrite inject_Z_plus. change (inject_Z 1) with 1%Q. lra. }
  pose proof (rne_bounds m1 l1). pose proof (rne_bounds m2 l2).
  destruct (Z.eq_dec m1 m2) as [<-|Hne]; [|lia].
  destruct l1 as [|[]], l2 as [|[]]; cbn [loc_ok round_nearest_even] in *;
    try lia; try (destruct (Z.even m1); lia);
    repeat match goal with
    | H : _ /\ _ |- _ => destruct H
    | H : (_ ?= _)%Q = Lt |- _ => apply (proj2 (Qlt_alt _ _)) in H
    | H : (_ ?= _)%Q = Gt |- _ => apply (proj2 (Qgt_alt _ _)) in H
    | H : (_ ?= _)%Q = Eq |- _ => apply (proj2 (Qeq_alt _ _)) in H
    end; exfalso; lra.
Qed.

Lemma fexp_eq (g : Z) : fexp prec emax g = Z.max (g - 53) (-1074).
Proof. reflexivity. Qed.

Lemma Zdigits2_bounds (m : Z) : 1 <= m -> 2 ^ (Zdigits2 m - 1) <= m < 2 ^ Zdigits2 m.
Proof. destruct m as [|p|p]; intros H; try lia. apply F64.digits2_pos_bounds. Qed.

Lemma Zdigits2_pos (m : Z) : 1 <= m -> 1 <= Zdigits2 m.
Proof. destruct m as [|p|p]; intros H; cbn; lia. Qed.

(** [2^a <= m < 2^b] bounds the digits. *)
Lemma Zdigits2_ge (m a : Z) : 1 <= m -> 0 <= a -> 2 ^ a <= m -> a < Zdigits2 m.
Proof.
  intros H1 H2 H3. pose proof (Zdigits2_bounds m H1). pose proof (Zdigits2_pos m H1).
  apply (Z.pow_lt_mono_r_iff 2); lia.
Qed.

Lemma Zdigits2_le (m b : Z) : 1 <= m -> 0 <= b -> m < 2 ^ b -> Zdigits2 m <= b.
Proof.
  intros H1 H2 H3. pose proof (Zdigits2_bounds m H1). pose proof (Zdigits2_pos m H1).
  enough (Zdigits2 m - 1 < b) by lia. apply (Z.pow_lt_mono_r_iff 2); lia.
Qed.

Lemma pw_le_mono (a b : Z) : a <= b -> (pw a <= pw b)%Q.
Proof. intros H. apply Qpower_le_compat_l; [exact H | discriminate]. Qed.

Lemma rep_mag (x : Q) (m e : Z) (l : location) :
  rep x m e l ->
  (pw (Zdigits2 m + e - 1) <= x < pw (Zdigits2 m + e))%Q.
Proof.
  intros [Hm [Hl _]].
  pose proof (loc_ok_bounds _ _ _ _ Hl) as [B1 B2].
  pose proof (Zdigits2_bounds m Hm) as [D1 D2]. pose proof (Zdigits2_pos m Hm).
  pose proof (pw_pos e) as P.
  replace (Zdigits2 m + e - 1) with ((Zdigits2 m - 1) + e) by lia.
  rewrite !pw_add, (pw_Z (Zdigits2 m - 1)), (pw_Z (Zdigits2 m)) by lia.
  assert (D2' : (inject_Z m + 1 <= inject_Z (2 ^ Zdigits2 m))%Q).
  { change 1%Q with (inject_Z 1). rewrite <- inject_Z_plus, <- Zle_Qle. lia. }
  rewrite Zle_Qle in D1.
  split.
  - apply (Qle_trans _ (inject_Z m * pw e)); [|exact B1].
    apply Qmult_le_compat_r; [exact D1 | apply Qlt_le_weak; exact P].
  - apply (Qlt_le_trans _ ((inject_Z m + 1) * pw e)); [exact B2|].
    apply Qmult_le_compat_r; [exact D2' | apply Qlt_le_weak; exact P].
Qed.

Lemma mag_mono (x1 x2 : Q) (g1 g2 : Z) :
  (pw (g1 - 1) <= x1)%Q -> (x1 <= x2)%Q -> (x2 < pw g2)%Q -> g1 <= g2.
Proof.
  intros H1 H2 H3.
  enough (g1 - 1 < g2) by lia.
  apply (Qpower_lt_compat_l_inv (inject_Z 2)); [|reflexivity].
  apply (Qle_lt_trans _ x1); [exact H1|]. apply (Qle_lt_trans _ x2); assumption.
Qed.

Lemma M_upper (x : Q) (E m g : Z) (l : location) :
  loc_ok x E m l -> (x < pw g)%Q -> E <= g -> round_nearest_even m l <= 2 ^ (g - E).
Proof.
  intros Hl Hx HE. pose proof (loc_ok_bounds _ _ _ _ Hl) as [B1 B2].
  pose proof (rne_bounds m l). pose proof (pw_pos E) as P.
  enough (m < 2 ^ (g - E)) by lia.
  apply (Zlt_of_Qmult _ _ (pw E) P).
  rewrite <- pw_Z by lia. rewrite <- pw_add. replace (g - E + E) with g by lia.
  apply (Qle_lt_trans _ x); assumption.
Qed.

Lemma M_lower (x : Q) (E m g : Z) (l : location) :
  loc_ok x E m l -> (pw (g - 1) <= x)%Q -> E <= g - 1 ->
  2 ^ (g - 1 - E) <= round_nearest_even m l.
Proof.
  intros Hl Hx HE. pose proof (loc_ok_bounds _ _ _ _ Hl) as [B1 B2].
  pose proof (rne_bounds m l). pose proof (pw_pos E) as P.
  enough (2 ^ (g - 1 - E) < m + 1) by lia.
  apply (Zlt_of_Qmult _ _ (pw E) P).
  rewrite <- pw_Z by lia. rewrite <- pw_add. replace (g - 1 - E + E) with (g - 1) by lia.
  rewrite inject_Z_plus. apply (Qle_lt_trans _ x); assumption.
Qed.

(** The two cases of the canonical exponent [E = fexp g] of a value of
    magnitude [2^(g-1) <= x < 2^g], with the rounded mantissa [M]. *)
Lemma M_cases (g M : Z) :
  let E := fexp prec emax g in
  0 <= M <= 2 ^ (g - E) -> (E <= g - 1 -> 2 ^ (g - 1 - E) <= M) ->
  (E = g - 53 /\ -1074 <= g - 53 /\ 4503599627370496 <= M <= 9007199254740992) \/
  (E = -1074 /\ g - 53 < -1074 /\ M <= 4503599627370496).
Proof.
  intros E [H0 H1] H2. unfold E in *. rewrite fexp_eq in *.
  destruct (Z.le_gt_cases (-1074) (g - 53)) as [C|C].
  - left. rewrite Z.max_l in * by lia.
    replace (g - (g - 53)) with 53 in H1 by lia.
    replace (g - 1 - (g - 53)) with 52 in H2 by lia.
    specialize (H2 ltac:(lia)). change (2 ^ 53) with 9007199254740992 in H1.
    change (2 ^ 52) with 4503599627370496 in H2. lia.
  - right. rewrite Z.max_r in * by lia. split; [reflexivity|]. split; [lia|].
    destruct (Z.le_gt_cases 0 (g - -1074)) as [C'|C'].
    + assert (2 ^ (g - -1074) <= 2 ^ 52) by (apply Z.pow_le_mono_r; lia).
      change (2 ^ 52) with 4503599627370496 in *. lia.
    + rewrite Z.pow_neg_r in H1 by lia. lia.
Qed.



Lemma BRA_out (m e : Z) (l : location) :
  binary_round_aux prec emax false m e l =
  let '(mrs', e') := shr_fexp prec emax m e l in
  out (round_nearest_even (shr_m mrs') (loc_of_shr_record mrs')) e'.
Proof. unfold binary_round_aux. destruct (shr_fexp prec emax m e l). reflexivity. Qed.

Lemma fexp_digits_fixed (M E g : Z) :
  (E = g - 53 /\ -1074 <= g - 53 /\ 4503599627370496 <= M <= 9007199254740992) \/
  (E = -1074 /\ g - 53 < -1074 /\ M <= 4503599627370496) ->
  M <> 0 -> 0 <= M -> M <> 9007199254740992 ->
  fexp prec emax (Zdigits2 M + E) = E.
Proof.
  intros C H0 H0' H53. rewrite fexp_eq.
  assert (D1 : Zdigits2 M <= 53).
  { apply Zdigits2_le; [lia | lia |]. change (2 ^ 53) with 9007199254740992. lia. }
  destruct C as [(-> & C1 & C2) | (-> & C1 & C2)].
  - assert (D2 : 52 < Zdigits2 M).
    { apply Zdigits2_ge; [lia | lia |]. change (2 ^ 52) with 4503599627370496. lia. }
    lia.
  - lia.
Qed.

Lemma out_eq (g M : Z) :
  let E := fexp prec emax g in
  0 <= M <= 2 ^ (g - E) -> (E <= g - 1 -> 2 ^ (g - 1 - E) <= M) ->
  out M E = out_spec M E.
Proof.
  intros E HM HL. pose proof (M_cases g M HM HL) as C. change (fexp prec emax g) with E in C. clearbody E.
  unfold out, out_spec, shr_fexp.
  destruct (Z.eqb_spec M 0) as [->|H0].
  - assert (Hn : fexp prec emax (Zdigits2 0 + E) - E = 0)
      by (rewrite fexp_eq; cbn [Zdigits2]; lia).
    rewrite Hn. reflexivity.
  - destruct (Z.eqb_spec M 9007199254740992) as [->|H53].
    + assert (Hn : fexp prec emax (Zdigits2 9007199254740992 + E) - E = 1)
        by (rewrite fexp_eq; change (Zdigits2 9007199254740992) with 54; lia).
      rewrite Hn. reflexivity.
    + assert (Hn : fexp prec emax (Zdigits2 M + E) - E = 0)
        by (rewrite (fexp_digits_fixed M E g C H0 ltac:(lia) H53); lia).
      rewrite Hn. destruct M as [|p|p]; try lia. reflexivity.
Qed.

Lemma out_spec_valid (g M : Z) :
  let E := fexp prec emax g in
  0 <= M <= 2 ^ (g - E) -> (E <= g - 1 -> 2 ^ (g - 1 - E) <= M) ->
  valid_binary (out_spec M E) = true.
Proof.
  intros E HM HL. pose proof (M_cases g M HM HL) as C. change (fexp prec emax g) with E in C. clearbody E.
  unfold out_spec.
  destruct (Z.eqb_spec M 0) as [->|H0]; [reflexivity|].
  destruct (Z.eqb_spec M 9007199254740992) as [->|H53].
  - destruct (Z.leb_spec (E + 1) 971) as [HE|HE]; [|reflexivity].
    cbn -[Z.add fexp]. unfold bounded, canonical_mantissa.
    change (Zpos (digits2_pos 4503599627370496)) with 53.
    rewrite fexp_eq. apply andb_true_intro. split; [apply Z.eqb_eq | apply Z.leb_le]; change (emax - prec) with 971; lia.
  - destruct (Z.leb_spec E 971) as [HE|HE]; [|reflexivity].
    cbn -[Z.add fexp]. unfold bounded, canonical_mantissa.
    destruct M as [|p|p]; try lia.
    pose proof (fexp_digits_fixed (Zpos p) E g C H0 ltac:(lia) H53) as F.
    cbn [Zdigits2] in F. change (Z.to_pos (Zpos p)) with p. rewrite F.
    apply andb_true_intro. split; [apply Z.eqb_eq | apply Z.leb_le]; change (emax - prec) with 971; lia.
Qed.

Lemma out_spec_mono (g1 g2 M1 M2 : Z) :
  let E1 := fexp prec emax g1 in
  let E2 := fexp prec emax g2 in
  0 <= M1 <= 2 ^ (g1 - E1) -> (E1 <= g1 - 1 -> 2 ^ (g1 - 1 - E1) <= M1) ->
  0 <= M2 <= 2 ^ (g2 - E2) -> (E2 <= g2 - 1 -> 2 ^ (g2 - 1 - E2) <= M2) ->
  g1 <= g2 -> (E1 = E2 -> M1 <= M2) ->
  SFleb (out_spec M1 E1) (out_spec M2 E2) = true.
Proof.
  intros E1 E2 HM1 HL1 HM2 HL2 Hg HE.
  pose proof (M_cases g1 M1 HM1 HL1) as C1. pose proof (M_cases g2 M2 HM2 HL2) as C2.
  change (fexp prec emax g1) with E1 in C1. change (fexp prec emax g2) with E2 in C2.
  clearbody E1 E2.
  assert (E1 <= E2) by lia.
  unfold out_spec.
  destruct (Z.eqb_spec M1 0) as [H10|H10].
  { destruct (M2 =? 0), (M2 =? 9007199254740992), (E2 + 1 <=? 971), (E2 <=? 971); reflexivity. }
  destruct (Z.eqb_spec M2 0) as [H20|H20].
  { exfalso. destruct (Z.eq_dec E1 E2); lia. }
  destruct (Z.eqb_spec M1 9007199254740992) as [H1|H1], (Z.eqb_spec M2 9007199254740992) as [H2|H2],
    (Z.leb_spec (E1 + 1) 971), (Z.leb_spec E1 971), (Z.leb_spec (E2 + 1) 971), (Z.leb_spec E2 971);
    cbn [SFleb SFcompare]; try reflexivity; try (exfalso; lia);
    try (destruct (Z.eq_dec E1 E2); exfalso; lia).
  all: match goal with |- context [Z.compare ?a ?b] => destruct (Z.compare_spec a b) end;
    try reflexivity; try (exfalso; lia).
  all: match goal with |- context [Pos.compare_cont Eq ?a ?b] =>
         change (Pos.compare_cont Eq a b) with (Z.compare (Zpos a) (Zpos b)) end;
    rewrite ?Z2Pos.id by lia;
    match goal with |- context [Z.compare ?a ?b] => destruct (Z.compare_spec a b) end;
    try reflexivity; exfalso; lia.
Qed.

Lemma rep_pos (x : Q) (m e : Z) (l : location) : rep x m e l -> (0 < x)%Q.
Proof.
  intros [Hm [Hl _]]. pose proof (loc_ok_bounds _ _ _ _ Hl) as [B1 _].
  pose proof (pw_pos e). rewrite Zle_Qle in Hm. change (inject_Z 1) with 1%Q in Hm.
  nra.
Qed.

Lemma M_upper_all (x : Q) (E m g : Z) (l : location) :
  loc_ok x E m l -> (0 < x)%Q -> 0 <= m -> (x < pw g)%Q ->
  round_nearest_even m l <= 2 ^ (g - E).
Proof.
  intros Hl Hx Hm Hg.
  destruct (Z.le_gt_cases E g) as [C|C]; [apply (M_upper x); assumption|].
  rewrite (Z.pow_neg_r 2 (g - E)) by lia.
  pose proof (loc_ok_bounds _ _ _ _ Hl) as [B1 B2].
  pose proof (pw_pos (E - 1)) as P.
  assert (HE : (pw E == 2 * pw (E - 1))%Q).
  { rewrite <- pw_succ. replace (E - 1 + 1) with E by lia. reflexivity. }
  assert (Hg' : (pw g <= pw (E - 1))%Q) by (apply pw_le_mono; lia).
  assert (m < 1).
  { apply (Zlt_of_Qmult _ _ (pw E)); [apply pw_pos|].
    change (inject_Z 1) with 1%Q. rewrite HE in *. nra. }
  assert (m = 0) as -> by lia.
  destruct l as [|c]; cbn in Hl.
  - change (inject_Z 0) with 0%Q in Hl. rewrite Qmult_0_l in Hl. rewrite Hl in Hx.
    discriminate.
  - destruct Hl as [_ Hc]. subst c.
    change (inject_Z 0) with 0%Q. rewrite HE.
    replace ((2 * x ?= (2 * 0 + 1) * (2 * pw (E - 1))))%Q with Lt; [reflexivity|].
    symmetry. apply (proj1 (Qlt_alt _ _)). nra.
Qed.

(** Rounding a positive exact value [x] represented by [rep x m e l] gives
    [out_spec M E] for [E] the canonical exponent and [M] the rounded mantissa. *)
Lemma BRA_rep_spec (x : Q) (m e : Z) (l : location) :
  rep x m e l ->
  let g := Zdigits2 m + e in
  exists M m' l',
    binary_round_aux prec emax false m e l = out_spec M (fexp prec emax g) /\
    0 <= M <= 2 ^ (g - fexp prec emax g) /\
    (fexp prec emax g <= g - 1 -> 2 ^ (g - 1 - fexp prec emax g) <= M) /\
    loc_ok x (fexp prec emax g) m' l' /\ 0 <= m' /\ M = round_nearest_even m' l'.
Proof.
  intros Hr g. pose proof (rep_mag _ _ _ _ Hr) as [G1 G2]. pose proof (rep_pos _ _ _ _ Hr) as Hx.
  destruct Hr as [Hm [Hl He]].
  pose proof (loc_ok_shr_fexp x m e l ltac:(lia) Hl) as S.
  rewrite BRA_out. destruct (shr_fexp prec emax m e l) as [r' e'].
  destruct S as (He' & Hm' & Hl'). rewrite Z.max_r in He' by exact He. subst e'.
  fold g in Hl', G1, G2 |- *.
  pose proof (rne_bounds (shr_m r') (loc_of_shr_record r')).
  assert (HU := M_upper_all x _ _ g _ Hl' Hx Hm' G2).
  assert (HL : fexp prec emax g <= g - 1 ->
               2 ^ (g - 1 - fexp prec emax g) <= round_nearest_even (shr_m r') (loc_of_shr_record r'))
    by (intros; apply (M_lower x); assumption).
  exists (round_nearest_even (shr_m r') (loc_of_shr_record r')), (shr_m r'), (loc_of_shr_record r').
  split; [apply out_eq; [lia | exact HL]|].
  repeat split; try lia; assumption.
Qed.

Lemma BRA_mono (x1 x2 : Q) (m1 e1 m2 e2 : Z) (l1 l2 : location) :
  rep x1 m1 e1 l1 -> rep x2 m2 e2 l2 -> (x1 <= x2)%Q ->
  SFleb (binary_round_aux prec emax false m1 e1 l1) (binary_round_aux prec emax false m2 e2 l2) = true.
Proof.
  intros R1 R2 Hx.
  pose proof (rep_mag _ _ _ _ R1) as [G11 G12]. pose proof (rep_mag _ _ _ _ R2) as [G21 G22].
  destruct (BRA_rep_spec _ _ _ _ R1) as (M1 & n1 & k1 & -> & B1 & L1 & H1 & _ & ->).
  destruct (BRA_rep_spec _ _ _ _ R2) as (M2 & n2 & k2 & -> & B2 & L2 & H2 & _ & ->).
  apply out_spec_mono; try assumption.
  - apply (mag_mono x1 x2); assumption.
  - intros HE. rewrite HE in H1. apply (rne_mono x1 x2 _ _ _ _ _ Hx H1 H2).
Qed.

Lemma BRA_valid (x : Q) (m e : Z) (l : location) :
  rep x m e l -> valid_binary (binary_round_aux prec emax false m e l) = true.
Proof.
  intros R. destruct (BRA_rep_spec _ _ _ _ R) as (M & n & k & -> & B & L & _).
  apply (out_spec_valid _ M B L).
Qed.

Lemma Zdigits2_shift (n k : Z) : 1 <= n -> 0 <= k -> Zdigits2 (n * 2 ^ k) = Zdigits2 n + k.
Proof.
  intros Hn Hk. pose proof (Zdigits2_bounds n Hn) as [D1 D2]. pose proof (Zdigits2_pos n Hn).
  assert (P : 0 < 2 ^ k) by (apply Z.pow_pos_nonneg; lia).
  assert (Hnk : 1 <= n * 2 ^ k) by nia.
  apply Z.le_antisymm.
  - apply Zdigits2_le; [exact Hnk | lia |].
    rewrite Z.pow_add_r by lia. apply Z.mul_lt_mono_pos_r; assumption.
  - enough (Zdigits2 n + k - 1 < Zdigits2 (n * 2 ^ k)) by lia.
    apply Zdigits2_ge; [exact Hnk | lia |].
    replace (Zdigits2 n + k - 1) with ((Zdigits2 n - 1) + k) by lia.
    rewrite Z.pow_add_r by lia. apply Z.mul_le_mono_nonneg_r; lia.
Qed.

Lemma shl_align_spec (m : positive) (e e' : Z) :
  let '(mz, ez) := shl_align m e e' in ez = Z.min e e' /\ Zpos mz = Zpos m * 2 ^ (e - ez).
Proof.
  unfold shl_align. destruct (e' - e) as [|d|d] eqn:E.
  - split; [lia|]. rewrite Z.sub_diag. lia.
  - split; [lia|]. rewrite Z.sub_diag. lia.
  - split; [lia|]. rewrite F64.iter_xO_value. f_equal. f_equal. lia.
Qed.

Lemma scale_eq (m e ez : Z) : ez <= e -> (inject_Z (m * 2 ^ (e - ez)) * pw ez == inject_Z m * pw e)%Q.
Proof.
  intros H. rewrite inject_Z_mult, <- pw_Z by lia.
  rewrite <- Qmult_assoc, <- pw_add. replace (e - ez + ez) with e by lia. reflexivity.
Qed.

Lemma loc_ok_morph (x y : Q) (e m : Z) (l : location) :
  (x == y)%Q -> loc_ok x e m l -> loc_ok y e m l.
Proof.
  intros Hxy. destruct l as [|c]; cbn.
  - intros H. rewrite <- Hxy. exact H.
  - intros [H1 H2]. rewrite <- Hxy. split; assumption.
Qed.

Lemma rep_morph (x y : Q) (m e : Z) (l : location) : (x == y)%Q -> rep x m e l -> rep y m e l.
Proof. intros Hxy [H1 [H2 H3]]. split; [exact H1|]. split; [|exact H3]. apply (loc_ok_morph x); assumption. Qed.

Lemma binary_round_rep (n : positive) (e : Z) :
  exists m' e', binary_round prec emax false n e = binary_round_aux prec emax false m' e' loc_Exact /\
    rep (inject_Z (Zpos n) * pw e) m' e' loc_Exact.
Proof.
  unfold binary_round.
  pose proof (shl_align_spec n e (fexp prec emax (Zpos (digits2_pos n) + e))) as S.
  destruct (shl_align n e _) as [mz ez]. destruct S as [Hez Hmz].
  exists (Zpos mz), ez. split; [reflexivity|].
  split; [lia|]. split.
  - cbn [loc_ok]. rewrite Hmz, scale_eq by lia. reflexivity.
  - rewrite Hmz, Zdigits2_shift by lia. change (Zdigits2 (Zpos n)) with (Zpos (digits2_pos n)).
    replace (Zpos (digits2_pos n) + (e - ez) + ez) with (Zpos (digits2_pos n) + e) by lia. lia.
Qed.

Lemma binary_normalize_rep (n e : Z) :
  0 < n ->
  exists m' e', binary_normalize prec emax n e false = binary_round_aux prec emax false m' e' loc_Exact /\
    rep (inject_Z n * pw e) m' e' loc_Exact.
Proof.
  intros Hn. destruct n as [|p|p]; try lia. apply binary_round_rep.
Qed.



Lemma val_fix (m : positive) (e : Z) :
  valid_binary (S754_finite false m e) = true ->
  binary_round_aux prec emax false (Zpos m) e loc_Exact = S754_finite false m e /\
  rep (val (S754_finite false m e)) (Zpos m) e loc_Exact.
Proof.
  intros H. cbn in H. unfold bounded, canonical_mantissa in H.
  apply andb_prop in H as [H1 H2]. apply Z.eqb_eq in H1. apply Z.leb_le in H2.
  split.
  - unfold binary_round_aux, shr_fexp.
    change (Zdigits2 (Zpos m)) with (Zpos (digits2_pos m)). rewrite H1, Z.sub_diag.
    cbn [shr shr_record_of_loc shr_m loc_of_shr_record round_nearest_even].
    change (Zdigits2 (Zpos m)) with (Zpos (digits2_pos m)). rewrite H1, Z.sub_diag.
    cbn [shr shr_record_of_loc shr_m]. apply Z.leb_le in H2. rewrite H2. reflexivity.
  - split; [lia|]. split; [cbn; reflexivity|].
    change (Zdigits2 (Zpos m)) with (Zpos (digits2_pos m)). lia.
Qed.

Lemma rnd_fix (f : spec_float) :
  valid_binary f = true -> (f = S754_zero false \/ f = S754_zero true \/ exists m e, f = S754_finite false m e) ->
  rnd (val f) f.
Proof.
  intros Hv [->|[->|(m & e & ->)]].
  - left. split; [reflexivity|eauto].
  - left. split; [reflexivity|eauto].
  - right. destruct (val_fix m e Hv) as [H1 H2]. exists (Zpos m), e, loc_Exact. split; [exact H2|].
    symmetry. exact H1.
Qed.

Lemma rnd_nonneg (x : Q) (f : spec_float) : rnd x f -> (0 <= x)%Q.
Proof.
  intros [[H _]|(m & e & l & R & _)]; [rewrite H; apply Qle_refl|].
  apply Qlt_le_weak. apply (rep_pos _ _ _ _ R).
Qed.

Lemma rnd_sign (x : Q) (f : spec_float) : rnd x f -> SF.nonneg f = true.
Proof.
  intros [[_ [s ->]]|(m & e & l & R & ->)]; [reflexivity|].
  apply F64.has_sign_false_nonneg, F64.binary_round_aux_sign. destruct R; lia.
Qed.

Lemma rnd_valid (x : Q) (f : spec_float) : rnd x f -> valid_binary f = true.
Proof.
  intros [[_ [s ->]]|(m & e & l & R & ->)]; [reflexivity|]. apply (BRA_valid x), R.
Qed.

Lemma SFleb_zero_sign (s : bool) (f : spec_float) :
  SF.has_sign false f = true -> SFleb (S754_zero s) f = true.
Proof. destruct f as [[]|[]| |[] m e]; cbn; congruence. Qed.

Lemma rnd_mono (x1 x2 : Q) (f1 f2 : spec_float) :
  rnd x1 f1 -> rnd x2 f2 -> (x1 <= x2)%Q -> SFleb f1 f2 = true.
Proof.
  intros R1 R2 Hx.
  destruct R1 as [[H1 [s1 ->]]|(m1 & e1 & l1 & R1 & ->)].
  - destruct R2 as [[_ [s2 ->]]|(m2 & e2 & l2 & R2 & ->)]; [destruct s1, s2; reflexivity|].
    apply SFleb_zero_sign, F64.binary_round_aux_sign. destruct R2; lia.
  - destruct R2 as [[H2 [s2 ->]]|(m2 & e2 & l2 & R2 & ->)].
    + exfalso. pose proof (rep_pos _ _ _ _ R1). rewrite H2 in Hx. apply (Qlt_not_le _ _ H Hx).
    + apply (BRA_mono x1 x2); assumption.
Qed.

Lemma rnd_morph (x y : Q) (f : spec_float) : (x == y)%Q -> rnd x f -> rnd y f.
Proof.
  intros Hxy [[H1 H2]|(m & e & l & R & ->)].
  - left. split; [rewrite <- Hxy; exact H1 | exact H2].
  - right. exists m, e, l. split; [apply (rep_morph x); assumption | reflexivity].
Qed.


Lemma val_finite_pos (m : positive) (e : Z) : (0 < val (S754_finite false m e))%Q.
Proof.
  cbn [val cond_Zopp]. pose proof (pw_pos e).
  assert (0 < inject_Z (Zpos m))%Q by (change 0%Q with (inject_Z 0); rewrite <- Zlt_Qlt; lia).
  apply Qmult_lt_0_compat; assumption.
Qed.

Lemma val_nonneg (f : spec_float) : fin_nn f -> (0 <= val f)%Q.
Proof.
  intros [->|[->|(m & e & ->)]]; try apply Qle_refl.
  apply Qlt_le_weak, val_finite_pos.
Qed.

Lemma add_rnd (a b : spec_float) :
  valid_binary a = true -> valid_binary b = true -> fin_nn a -> fin_nn b ->
  rnd (val a + val b) (SFadd prec emax a b).
Proof.
  intros Va Vb Ha Hb.
  destruct Ha as [->|[->|(ma & ea & ->)]], Hb as [->|[->|(mb & eb & ->)]].
  all: match goal with
       | |- rnd _ (SFadd _ _ (S754_finite _ _ _) (S754_finite _ _ _)) => idtac
       | |- rnd _ (SFadd _ _ (S754_zero _) (S754_zero _)) =>
           left; split; [reflexivity | eexists; reflexivity]
       | |- rnd _ (SFadd _ _ (S754_zero _) ?f) =>
           apply (rnd_morph (val f)); [cbn [val]; ring|];
           apply rnd_fix; [assumption | right; right; do 2 eexists; reflexivity]
       | |- rnd _ (SFadd _ _ ?f (S754_zero _)) =>
           apply (rnd_morph (val f)); [cbn [val]; ring|];
           apply rnd_fix; [assumption | right; right; do 2 eexists; reflexivity]
       end.
  cbn [SFadd cond_Zopp].
  rewrite (F64.shl_align_value ma ea (Z.min ea eb)), (F64.shl_align_value mb eb (Z.min ea eb)) by lia.
  destruct (binary_normalize_rep (Zpos ma * 2 ^ (ea - Z.min ea eb) + Zpos mb * 2 ^ (eb - Z.min ea eb))
              (Z.min ea eb)) as (m' & e' & -> & R).
  { assert (0 < 2 ^ (ea - Z.min ea eb)) by (apply Z.pow_pos_nonneg; lia).
    assert (0 < 2 ^ (eb - Z.min ea eb)) by (apply Z.pow_pos_nonneg; lia). nia. }
  right. exists m', e', loc_Exact. split; [|reflexivity].
  refine (rep_morph _ _ _ _ _ _ R). cbn [val cond_Zopp].
  rewrite inject_Z_plus, Qmult_plus_distr_l, !scale_eq by lia. reflexivity.
Qed.

Lemma val_scaled (m : positive) (e ez : Z) :
  ez <= e -> (val (S754_finite false m e) == inject_Z (Zpos m * 2 ^ (e - ez)) * pw ez)%Q.
Proof. intros H. cbn [val cond_Zopp]. rewrite scale_eq by exact H. reflexivity. Qed.

Lemma leb_val (f1 f2 : spec_float) :
  valid_binary f1 = true -> valid_binary f2 = true -> fin_nn f1 -> fin_nn f2 ->
  SFleb f1 f2 = true -> (val f1 <= val f2)%Q.
Proof.
  intros V1 V2 H1 H2 Hle.
  destruct H1 as [->|[->|(m1 & e1 & ->)]]; [apply val_nonneg; assumption ..|].
  destruct H2 as [->|[->|(m2 & e2 & ->)]]; [discriminate ..|].
  unfold SFleb in Hle. rewrite F64.compare_pos_finite in Hle by assumption.
  rewrite (val_scaled m1 e1 (Z.min e1 e2)), (val_scaled m2 e2 (Z.min e1 e2)) by lia.
  apply Qmult_le_compat_r; [|apply Qlt_le_weak, pw_pos].
  rewrite <- Zle_Qle. destruct (Z.compare_spec (Zpos m1 * 2 ^ (e1 - Z.min e1 e2))
                                    (Zpos m2 * 2 ^ (e2 - Z.min e1 e2))); lia || discriminate.
Qed.

Lemma sub_rnd (p t : spec_float) :
  valid_binary p = true -> valid_binary t = true -> fin_nn p -> fin_nn t ->
  (val t <= val p)%Q -> rnd (val p - val t) (SFsub prec emax p t).
Proof.
  intros Vp Vt Hp Ht Hle.
  destruct Hp as [->|[->|(mp & ep & ->)]], Ht as [->|[->|(mt & et & ->)]].
  all: match goal with
       | |- rnd _ (SFsub _ _ (S754_finite _ _ _) (S754_finite _ _ _)) => idtac
       | |- rnd _ (SFsub _ _ (S754_zero ?a) (S754_zero ?b)) =>
           left; split; [reflexivity | destruct a, b; eexists; reflexivity]
       | |- rnd _ (SFsub _ _ (S754_zero _) ?f) =>
           exfalso; pose proof (val_finite_pos mt et); apply (Qlt_not_le _ _ H Hle)
       | |- rnd _ (SFsub _ _ ?f (S754_zero _)) =>
           apply (rnd_morph (val f)); [cbn [val]; ring|];
           apply rnd_fix; [assumption | right; right; do 2 eexists; reflexivity]
       end.
  cbn [SFsub cond_Zopp].
  rewrite (F64.shl_align_value mp ep (Z.min ep et)), (F64.shl_align_value mt et (Z.min ep et)) by lia.
  rewrite (val_scaled mp ep (Z.min ep et)), (val_scaled mt et (Z.min ep et)) in * by lia.
  set (np := Zpos mp * 2 ^ (ep - Z.min ep et)) in *.
  set (nt := Zpos mt * 2 ^ (et - Z.min ep et)) in *.
  assert (Hn : nt <= np) by (apply (Zle_of_Qmult _ _ (pw (Z.min ep et))); [apply pw_pos | exact Hle]).
  destruct (Z.eq_dec np nt) as [E|E].
  - rewrite E, Z.sub_diag. left. split; [|eexists; reflexivity].
    rewrite (val_scaled mp ep (Z.min ep et)), (val_scaled mt et (Z.min ep et)) by lia.
    fold np nt. rewrite E. ring.
  - destruct (binary_normalize_rep (np - nt) (Z.min ep et)) as (m' & e' & -> & R); [lia|].
    right. exists m', e', loc_Exact. split; [|reflexivity].
    refine (rep_morph _ _ _ _ _ _ R).
    rewrite (val_scaled mp ep (Z.min ep et)), (val_scaled mt et (Z.min ep et)) by lia.
    fold np nt. unfold Z.sub. rewrite inject_Z_plus, inject_Z_opp. ring.
Qed.

Lemma div100_rnd (k : positive) :
  rnd (inject_Z (Zpos k) / 100) (SFdiv prec emax (S754_finite false k 0) (S754_finite false 100 0)).
Proof.
  cbn [SFdiv]. unfold SFdiv_core_binary. cbv zeta.
  change (Zdigits2 100) with 7.
  pose proof (Zdigits2_bounds (Zpos k) ltac:(lia)) as [D1 D2].
  pose proof (Zdigits2_pos (Zpos k) ltac:(lia)) as D0.
  set (d1 := Zdigits2 (Zpos k)) in *.
  set (E := Z.min (fexp prec emax (d1 + 0 - (7 + 0))) (0 - 0)).
  assert (HE : E = Z.min (d1 - 60) 0) by (unfold E; rewrite fexp_eq; lia).
  clearbody E.
  assert (Hm : match 0 - 0 - E with
               | 0 => Z.pos k | Z.pos _ => Z.shiftl (Z.pos k) (0 - 0 - E) | Z.neg _ => 0 end
               = Zpos k * 2 ^ (- E)).
  { replace (0 - 0 - E) with (- E) by lia.
    destruct (- E) as [|p|p] eqn:Ep.
    - cbn. lia.
    - apply Z.shiftl_mul_pow2. lia.
    - lia. }
  rewrite Hm. clear Hm.
  set (m' := Zpos k * 2 ^ (- E)).
  assert (HP : 0 < 2 ^ (- E)) by (apply Z.pow_pos_nonneg; lia).
  (* m' >= 2^59 *)
  assert (Hm59 : 2 ^ (d1 - 1 - E) <= m').
  { unfold m'. replace (d1 - 1 - E) with ((d1 - 1) + (- E)) by lia.
    rewrite Z.pow_add_r by lia. apply Z.mul_le_mono_nonneg_r; lia. }
  pose proof (Z_div_mod m' 100 ltac:(lia)) as DM.
  destruct (Z.div_eucl m' 100) as [q r]. destruct DM as [Dq Dr].
  change (xorb false false) with false.
  right. exists q, E, (new_location 100 r). split; [|reflexivity].
  assert (HA : 2 ^ (d1 - 8 - E) <= q).
  { assert (2 ^ (d1 - 1 - E) = 128 * 2 ^ (d1 - 8 - E)).
    { replace (d1 - 1 - E) with (7 + (d1 - 8 - E)) by lia. rewrite Z.pow_add_r by lia. reflexivity. }
    lia. }
  assert (Hq : 1 <= q).
  { assert (1 <= 2 ^ (d1 - 8 - E)) by (apply (Z.pow_le_mono_r 2 0); lia). lia. }
  (* the exact value *)
  assert (Hx : (inject_Z (Zpos k) / 100 == inject_Z m' / 100 * pw E)%Q).
  { unfold m'. rewrite inject_Z_mult, <- pw_Z by lia.
    assert (H1 : (pw (- E) * pw E == 1)%Q)
      by (rewrite <- pw_add; replace (- E + E) with 0 by lia; reflexivity).
    transitivity (inject_Z (Zpos k) * (pw (- E) * pw E) / 100)%Q; [rewrite H1; field | field]. }
  split; [exact Hq|]. split.
  - apply (loc_ok_morph (inject_Z m' / 100 * pw E)); [symmetry; exact Hx|].
    pose proof (pw_pos E) as P.
    rewrite Dq, inject_Z_plus, inject_Z_mult.
    unfold new_location. cbn [Z.even]. unfold new_location_even.
    destruct (Z.eqb_spec r 0) as [->|Hr].
    + cbn [loc_ok]. change (inject_Z 100) with 100%Q. change (inject_Z 0) with 0%Q. field.
    + cbn [loc_ok].
      assert (Hr' : (0 < inject_Z r < 100)%Q).
      { change 0%Q with (inject_Z 0). change 100%Q with (inject_Z 100).
        rewrite <- !Zlt_Qlt. lia. }
      change (inject_Z 100) with 100%Q.
      split; [split|].
      * apply Qmult_lt_r; [exact P|].
        apply (Qmult_lt_r _ _ 100); [reflexivity|]. field_simplify; [|discriminate ..]. nra.
      * apply Qmult_lt_r; [exact P|].
        apply (Qmult_lt_r _ _ 100); [reflexivity|]. field_simplify; [|discriminate ..]. nra.
      * destruct (Z.compare_spec (2 * r) 100) as [C|C|C].
        -- apply (proj1 (Qeq_alt _ _)).
           assert (inject_Z r == 50)%Q by (change 50%Q with (inject_Z 50); rewrite inject_Z_injective; lia).
           rewrite H. field.
        -- apply (proj1 (Qlt_alt _ _)).
           assert (inject_Z r < 50)%Q by (change 50%Q with (inject_Z 50); rewrite <- Zlt_Qlt; lia).
           assert (0 < pw E * (50 - inject_Z r))%Q by (apply Qmult_lt_0_compat; lra).
           setoid_replace (2 * ((100 * inject_Z q + inject_Z r) / 100 * pw E))%Q
             with ((2 * inject_Z q) * pw E + (inject_Z r * pw E) * (1#50))%Q by field.
           lra.
        -- apply (proj1 (Qgt_alt _ _)).
           assert (50 < inject_Z r)%Q by (change 50%Q with (inject_Z 50); rewrite <- Zlt_Qlt; lia).
           assert (0 < pw E * (inject_Z r - 50))%Q by (apply Qmult_lt_0_compat; lra).
           setoid_replace (2 * ((100 * inject_Z q + inject_Z r) / 100 * pw E))%Q
             with ((2 * inject_Z q) * pw E + (inject_Z r * pw E) * (1#50))%Q by field.
           lra.
  - rewrite fexp_eq.
    assert (d1 - 8 - E < Zdigits2 q) by (apply Zdigits2_ge; lia).
    lia.
Qed.

Lemma rne_div_loc (a b : Z) :
  0 <= a -> 0 < b ->
  exists q l, loc_ok (inject_Z a / inject_Z b) 0 q l /\ 0 <= q /\ Py.rne_div a b = round_nearest_even q l.
Proof.
  intros Ha Hb. unfold Py.rne_div.
  pose proof (Z_div_mod a b ltac:(lia)) as DM.
  destruct (Z.div_eucl a b) as [q r]. destruct DM as [Dq Dr].
  assert (HB : (0 < inject_Z b)%Q) by (change 0%Q with (inject_Z 0); rewrite <- Zlt_Qlt; lia).
  set (y := (inject_Z a / inject_Z b)%Q).
  assert (Hy : (y * inject_Z b == inject_Z a)%Q) by (unfold y; field; apply Qnot_eq_sym, Qlt_not_eq, HB).
  assert (Hq : 0 <= q) by nia.
  exists q, (if r =? 0 then loc_Exact else loc_Inexact (Z.compare (2 * r) b)).
  split; [|split; [exact Hq|]].
  - change (pw 0) with 1%Q.
    destruct (Z.eqb_spec r 0) as [->|Hr]; cbn [loc_ok].
    + rewrite Qmult_1_r. apply (Qmult_inj_r _ _ (inject_Z b)); [apply Qnot_eq_sym, Qlt_not_eq, HB|].
      rewrite Hy, <- inject_Z_mult, inject_Z_injective. lia.
    + split; [split|].
      * rewrite Qmult_1_r. apply (Qmult_lt_r _ _ (inject_Z b) HB).
        rewrite Hy, <- inject_Z_mult, <- Zlt_Qlt. lia.
      * rewrite Qmult_1_r. apply (Qmult_lt_r _ _ (inject_Z b) HB).
        rewrite Hy. change 1%Q with (inject_Z 1). rewrite <- inject_Z_plus, <- inject_Z_mult, <- Zlt_Qlt. lia.
      * rewrite Qmult_1_r.
        assert (E2 : (2 * y * inject_Z b == inject_Z (2 * a))%Q)
          by (rewrite inject_Z_mult, <- Hy; ring).
        assert (E3 : ((2 * inject_Z q + 1) * inject_Z b == inject_Z ((2 * q + 1) * b))%Q)
          by (rewrite inject_Z_mult, inject_Z_plus, inject_Z_mult; reflexivity).
        destruct (Z.compare_spec (2 * r) b) as [C|C|C].
        -- apply (proj1 (Qeq_alt _ _)). apply (Qmult_inj_r _ _ (inject_Z b)); [apply Qnot_eq_sym, Qlt_not_eq, HB|].
           rewrite E2, E3, inject_Z_injective. lia.
        -- apply (proj1 (Qlt_alt _ _)). apply (Qmult_lt_r _ _ (inject_Z b) HB).
           rewrite E2, E3, <- Zlt_Qlt. lia.
        -- apply (proj1 (Qgt_alt _ _)). apply (Qmult_lt_r _ _ (inject_Z b) HB).
           rewrite E2, E3, <- Zlt_Qlt. lia.
  - destruct (Z.eqb_spec r 0) as [->|Hr].
    + cbn. destruct b; try lia; reflexivity.
    + destruct (2 * r ?= b); reflexivity.
Qed.

(** [round(x, 2)] for a positive finite [x]: the binary64 rounding of
    [k/100], where [k] is [100 x] rounded half to even. *)
Lemma round2_rnd (x : float) (m : positive) (e : Z) :
  Prim2SF x = S754_finite false m e ->
  exists k0 l0, loc_ok (100 * val (S754_finite false m e)) 0 k0 l0 /\ 0 <= k0 /\
    rnd (inject_Z (round_nearest_even k0 l0) / 100) (Prim2SF (Py.round2 x)).
Proof.
  intros Hx. pose proof (Prim2SF_valid x) as V. rewrite Hx in V.
  unfold Py.round2. rewrite Hx.
  destruct (Z.leb_spec 0 e) as [He|He].
  - exists (Zpos m * 100 * 2 ^ e), loc_Exact. split; [|split; [lia|]].
    + cbn [loc_ok val cond_Zopp]. change (pw 0) with 1%Q.
      rewrite !inject_Z_mult, <- pw_Z by lia. ring.
    + cbn [round_nearest_even]. rewrite Hx.
      apply (rnd_morph (val (S754_finite false m e))).
      * cbn [val cond_Zopp]. rewrite !inject_Z_mult, <- pw_Z by lia. field.
      * apply rnd_fix; [exact V | right; right; eauto].
  - destruct (rne_div_loc (Zpos m * 100) (2 ^ (- e)) ltac:(lia) ltac:(apply Z.pow_pos_nonneg; lia))
      as (q & l & Hl & Hq & Hk).
    exists q, l. split; [|split; [exact Hq|]].
    + refine (loc_ok_morph _ _ _ _ _ _ Hl). cbn [val cond_Zopp].
      rewrite <- pw_Z by lia. rewrite inject_Z_mult.
      assert (H1 : (pw (- e) * pw e == 1)%Q)
        by (rewrite <- pw_add; replace (- e + e) with 0 by lia; reflexivity).
      assert (H2 : ~ (pw (- e) == 0)%Q) by (apply Qnot_eq_sym, Qlt_not_eq, pw_pos).
      assert (H3 : (pw e == / pw (- e))%Q).
      { rewrite <- (Qmult_1_l (/ pw (- e))), <- H1. field. exact H2. }
      rewrite H3. field. exact H2.
    + rewrite <- Hk.
      pose proof (F64.rne_nonneg q l Hq) as Hk0. rewrite <- Hk in Hk0.
      destruct (Py.rne_div (Z.pos m * 100) (2 ^ (- e))) as [|kp|kp] eqn:K; [| |lia].
      * left. split; [reflexivity|]. exists false. apply Prim2SF_SF2Prim. reflexivity.
      * rewrite Prim2SF_SF2Prim; [apply div100_rnd|]. apply (rnd_valid _ _ (div100_rnd kp)).
Qed.

(** Order on non-negative binary64 data: [+inf] on top, finite data by value. *)
Lemma leb_nn (a b : spec_float) :
  valid_binary a = true -> valid_binary b = true -> SF.nonneg a = true -> SF.nonneg b = true ->
  SFleb a b = true <-> (b = S754_infinity false \/ (fin_nn a /\ fin_nn b /\ (val a <= val b)%Q)).
Proof.
  intros Va Vb Ha Hb.
  assert (Fa : a = S754_infinity false \/ fin_nn a)
    by (destruct a as [[]|[]| |[] m e]; try discriminate; unfold fin_nn; eauto 6).
  assert (Fb : b = S754_infinity false \/ fin_nn b)
    by (destruct b as [[]|[]| |[] m e]; try discriminate; unfold fin_nn; eauto 6).
  split.
  - intros H. destruct Fb as [->|Fb]; [left; reflexivity|]. right.
    destruct Fa as [->|Fa].
    + exfalso. destruct Fb as [->|[->|(m & e & ->)]]; discriminate.
    + split; [exact Fa|]. split; [exact Fb|]. apply leb_val; assumption.
  - intros [->|(Fa' & Fb' & H)].
    + destruct a as [[]|[]| |[] m e]; try discriminate; reflexivity.
    + apply (rnd_mono (val a) (val b)); [apply rnd_fix; assumption .. | exact H].
Qed.

Lemma leb_nn_prim (x y : float) :
  (0 <=? x)%float = true -> (0 <=? y)%float = true ->
  (x <=? y)%float = true <->
  (Prim2SF y = S754_infinity false \/ (fin_nn (Prim2SF x) /\ fin_nn (Prim2SF y) /\ (val (Prim2SF x) <= val (Prim2SF y))%Q)).
Proof.
  intros Hx Hy. rewrite F64.nonneg_spec in Hx, Hy. rewrite leb_spec.
  apply leb_nn; auto using Prim2SF_valid.
Qed.

Lemma leb_trans_nn (x y z : float) :
  (0 <=? x)%float = true -> (0 <=? y)%float = true -> (0 <=? z)%float = true ->
  (x <=? y)%float = true -> (y <=? z)%float = true -> (x <=? z)%float = true.
Proof.
  intros Hx Hy Hz Hxy Hyz.
  apply (leb_nn_prim x y Hx Hy) in Hxy. apply (leb_nn_prim y z Hy Hz) in Hyz.
  apply (leb_nn_prim x z Hx Hz).
  destruct Hyz as [E|(Fy & Fz & Lyz)]; [left; exact E|].
  destruct Hxy as [E|(Fx & _ & Lxy)].
  - rewrite E in Fy. exfalso. destruct Fy as [E'|[E'|(m & e & E')]]; discriminate.
  - right. split; [exact Fx|]. split; [exact Fz|]. apply (Qle_trans _ _ _ Lxy Lyz).
Qed.

Lemma leb_refl_nn (x : float) : (0 <=? x)%float = true -> (x <=? x)%float = true.
Proof.
  intros H. rewrite F64.nonneg_spec in H. rewrite leb_spec.
  destruct (Prim2SF x) as [[]|[]| |[] m e]; try discriminate; try reflexivity.
  unfold SFleb. cbn. rewrite Z.compare_refl, Pos.compare_cont_refl. reflexivity.
Qed.

Lemma zero_leb_prim (x y : float) (s : bool) :
  Prim2SF x = S754_zero s -> (0 <=? y)%float = true -> (x <=? y)%float = true.
Proof.
  intros Hx Hy. rewrite F64.nonneg_spec in Hy. rewrite leb_spec, Hx.
  destruct (Prim2SF y) as [[]|[]| |[] m e]; try discriminate; destruct s; reflexivity.
Qed.

Lemma leb_inf_prim (x y : float) :
  Prim2SF y = S754_infinity false -> (0 <=? x)%float = true -> (x <=? y)%float = true.
Proof.
  intros Hy Hx. rewrite F64.nonneg_spec in Hx. rewrite leb_spec, Hy.
  destruct (Prim2SF x) as [[]|[]| |[] m e]; try discriminate; reflexivity.
Qed.

Lemma round2_not_finite (x : float) :
  (forall s m e, Prim2SF x <> S754_finite s m e) -> Py.round2 x = x.
Proof.
  intros H. unfold Py.round2. destruct (Prim2SF x) as [s|s| |s m e]; try reflexivity.
  exfalso. apply (H s m e). reflexivity.
Qed.

Lemma round2_mono (x1 x2 : float) :
  (0 <=? x1)%float = true -> (x1 <=? x2)%float = true ->
  (Py.round2 x1 <=? Py.round2 x2)%float = true.
Proof.
  intros H1 H12.
  assert (H2 : (0 <=? x2)%float = true).
  { pose proof H1 as H1'. rewrite F64.nonneg_spec in H1'. rewrite leb_spec in H12.
    rewrite F64.nonneg_spec. destruct (Prim2SF x1) as [[]|[]| |[] m e], (Prim2SF x2) as [[]|[]| |[] m2 e2];
      try discriminate; reflexivity. }
  pose proof (F64.round2_nonneg x1 H1) as R1. pose proof (F64.round2_nonneg x2 H2) as R2.
  pose proof H12 as L. apply (leb_nn_prim _ _ H1 H2) in L.
  pose proof H1 as N1. rewrite F64.nonneg_spec in N1.
  destruct (Prim2SF x1) as [s1|s1| |s1 m1 e1] eqn:E1; try discriminate.
  - rewrite (round2_not_finite x1) by (rewrite E1; discriminate).
    apply (zero_leb_prim _ _ s1 E1 R2).
  - destruct s1; [discriminate|].
    destruct L as [E2|(F1 & _)]; [|destruct F1 as [?|[?|(? & ? & ?)]]; discriminate].
    rewrite (round2_not_finite x1) by (rewrite E1; discriminate).
    rewrite (round2_not_finite x2) by (rewrite E2; discriminate). exact H12.
  - destruct s1; [discriminate|].
    destruct (Prim2SF x2) as [s2|s2| |s2 m2 e2] eqn:E2.
    + exfalso. destruct L as [E|(_ & _ & L)]; [discriminate|].
      pose proof (val_finite_pos m1 e1). cbn [val] in L. apply (Qlt_not_le _ _ H L).
    + rewrite F64.nonneg_spec, E2 in H2. destruct s2; [discriminate|].
      rewrite (round2_not_finite x2) by (rewrite E2; discriminate).
      apply (leb_inf_prim _ _ E2 R1).
    + rewrite F64.nonneg_spec, E2 in H2. discriminate.
    + rewrite F64.nonneg_spec, E2 in H2. destruct s2; [discriminate|].
      destruct L as [E|(_ & _ & L)]; [discriminate|].
      destruct (round2_rnd x1 m1 e1 E1) as (k1 & l1 & Hl1 & Hk1 & Rn1).
      destruct (round2_rnd x2 m2 e2 E2) as (k2 & l2 & Hl2 & Hk2 & Rn2).
      rewrite leb_spec. apply (rnd_mono _ _ _ _ Rn1 Rn2).
      assert (K : round_nearest_even k1 l1 <= round_nearest_even k2 l2).
      { apply (rne_mono (100 * val (S754_finite false m1 e1)) (100 * val (S754_finite false m2 e2)) 0);
          [|assumption ..]. apply Qmult_le_l; [reflexivity|exact L]. }
      rewrite Zle_Qle in K. apply Qmult_le_r; [reflexivity|exact K].
Qed.

Lemma nn_of_leb (x y : float) :
  (0 <=? x)%float = true -> (x <=? y)%float = true -> (0 <=? y)%float = true.
Proof.
  rewrite !F64.nonneg_spec, leb_spec.
  destruct (Prim2SF x) as [[]|[]| |[] m e], (Prim2SF y) as [[]|[]| |[] m2 e2];
    try discriminate; reflexivity.
Qed.

Lemma nn_cases (x : float) :
  (0 <=? x)%float = true -> Prim2SF x = S754_infinity false \/ fin_nn (Prim2SF x).
Proof.
  rewrite F64.nonneg_spec. unfold fin_nn.
  destruct (Prim2SF x) as [[]|[]| |[] m e]; try discriminate; eauto 6.
Qed.

Lemma pos_of_leb (x y : float) :
  (0 <? x)%float = true -> (x <=? y)%float = true -> (0 <? y)%float = true.
Proof.
  rewrite !ltb_spec, leb_spec, F64.Prim2SF_zero.
  destruct (Prim2SF x) as [[]|[]| |[] m e], (Prim2SF y) as [[]|[]| |[] m2 e2];
    try discriminate; reflexivity.
Qed.

Lemma fmax0_mono (x1 x2 : float) :
  (x1 <=? x2)%float = true -> (Py.fmax 0 x1 <=? Py.fmax 0 x2)%float = true.
Proof.
  intros H. unfold Py.fmax. destruct (0 <? x1)%float eqn:E1.
  - rewrite (pos_of_leb _ _ E1 H). exact H.
  - pose proof (F64.fmax_zero_nonneg x2) as N. unfold Py.fmax in N. exact N.
Qed.

Lemma add_inf_l (a b : float) :
  Prim2SF a = S754_infinity false -> (0 <=? b)%float = true ->
  Prim2SF (a + b)%float = S754_infinity false.
Proof.
  intros Ha Hb. rewrite F64.nonneg_spec in Hb. rewrite add_spec, Ha. unfold SF64add.
  destruct (Prim2SF b) as [[]|[]| |[] m e]; try discriminate; reflexivity.
Qed.

Lemma add_inf_r (a b : float) :
  Prim2SF b = S754_infinity false -> (0 <=? a)%float = true ->
  Prim2SF (a + b)%float = S754_infinity false.
Proof.
  intros Hb Ha. rewrite F64.nonneg_spec in Ha. rewrite add_spec, Hb. unfold SF64add.
  destruct (Prim2SF a) as [[]|[]| |[] m e]; try discriminate; reflexivity.
Qed.

Lemma not_inf_fin (x : float) :
  fin_nn (Prim2SF x) -> Prim2SF x <> S754_infinity false.
Proof. intros [E|[E|(m & e & E)]]; rewrite E; discriminate. Qed.

Lemma add_mono_nn (a b a' b' : float) :
  (0 <=? a)%float = true -> (0 <=? b)%float = true ->
  (a <=? a')%float = true -> (b <=? b')%float = true ->
  (a + b <=? a' + b')%float = true.
Proof.
  intros Ha Hb Haa Hbb.
  pose proof (nn_of_leb _ _ Ha Haa) as Ha'. pose proof (nn_of_leb _ _ Hb Hbb) as Hb'.
  destruct (nn_cases (a' + b') (F64.add_nonneg _ _ Ha' Hb')) as [Einf|Fs].
  { apply leb_inf_prim; [exact Einf | apply F64.add_nonneg; assumption]. }
  destruct (nn_cases a' Ha') as [E|Fa'].
  { exfalso. apply (not_inf_fin _ Fs). apply add_inf_l; assumption. }
  destruct (nn_cases b' Hb') as [E|Fb'].
  { exfalso. apply (not_inf_fin _ Fs). apply add_inf_r; assumption. }
  apply (leb_nn_prim _ _ Ha Ha') in Haa. apply (leb_nn_prim _ _ Hb Hb') in Hbb.
  destruct Haa as [E|(Fa & _ & La)]; [exfalso; apply (not_inf_fin _ Fa' E)|].
  destruct Hbb as [E|(Fb & _ & Lb)]; [exfalso; apply (not_inf_fin _ Fb' E)|].
  rewrite leb_spec, !add_spec. unfold SF64add.
  apply (rnd_mono (val (Prim2SF a) + val (Prim2SF b)) (val (Prim2SF a') + val (Prim2SF b'))).
  - apply add_rnd; auto using Prim2SF_valid.
  - apply add_rnd; auto using Prim2SF_valid.
  - apply Qplus_le_compat; assumption.
Qed.

Lemma leb_add_self (a t : float) :
  (0 <=? a)%float = true -> (0 <=? t)%float = true -> (a <=? a + t)%float = true.
Proof.
  intros Ha Ht. pose proof Ha as N. rewrite F64.nonneg_spec in N.
  destruct (Prim2SF a) as [s|s| |s m e] eqn:E.
  - apply (zero_leb_prim _ _ s E). apply F64.add_nonneg; assumption.
  - destruct s; [discriminate|].
    pose proof (add_mono_nn a 0 a t Ha eq_refl (leb_refl_nn a Ha) Ht) as L.
    rewrite F64.add_zero_pos in L by (rewrite E; reflexivity). exact L.
  - discriminate.
  - destruct s; [discriminate|].
    pose proof (add_mono_nn a 0 a t Ha eq_refl (leb_refl_nn a Ha) Ht) as L.
    rewrite F64.add_zero_pos in L by (rewrite E; reflexivity). exact L.
Qed.

(** The amount left after [min(a, amt)] is taken is never negative. *)
Lemma sub_fmin_not_neg (a amt : float) :
  (amt <? 0)%float = false -> ((amt - Py.fmin a amt) <? 0)%float = false.
Proof.
  intros H0. unfold Py.fmin. destruct (amt <? a)%float eqn:H.
  - rewrite ltb_spec, F64.Prim2SF_zero in H0 |- *. rewrite ltb_spec in H. rewrite sub_spec.
    unfold SF64sub.
    destruct (Prim2SF amt) as [[]|[]| |[] m e], (Prim2SF a) as [[]|[]| |[] m2 e2];
      try discriminate; try reflexivity.
    all: cbn [SFsub]; rewrite Z.sub_diag; reflexivity.
  - destruct (SF.finite (Prim2SF amt) && SF.finite (Prim2SF a)) eqn:F.
    + apply andb_prop in F as [Fx Fy].
      apply F64.leb_not_gtb, F64.sub_nonneg_of_le; try apply F64.sf_is_finite; try assumption.
      apply F64.not_ltb_leb; assumption.
    + rewrite ltb_spec, F64.Prim2SF_zero in H0 |- *. rewrite ltb_spec in H. rewrite sub_spec.
      unfold SF64sub.
      destruct (Prim2SF amt) as [[]|[]| |[] m e], (Prim2SF a) as [[]|[]| |[] m2 e2];
        cbn in F; try discriminate; reflexivity.
Qed.

(** Taking [min(pr, t)] off a finite non-negative [pr], for [t] not negative. *)
Lemma pr_step (pr t : float) :
  is_finite pr = true -> (0 <=? pr)%float = true -> (t <? 0)%float = false ->
  is_finite (pr - Py.fmin pr t)%float = true /\ (0 <=? pr - Py.fmin pr t)%float = true /\
  (pr - Py.fmin pr t <=? pr)%float = true.
Proof.
  intros Hf H0 Ht. unfold Py.fmin. destruct (t <? pr)%float eqn:H.
  - pose proof Hf as Hf'. apply F64.is_finite_sf in Hf'.
    assert (Ft : fin_nn (Prim2SF t)).
    { rewrite ltb_spec, F64.Prim2SF_zero in Ht. rewrite ltb_spec in H. unfold fin_nn.
      destruct (Prim2SF t) as [[]|[]| |[] m e], (Prim2SF pr) as [[]|[]| |[] m2 e2];
        try discriminate; eauto 6. }
    assert (Fp : fin_nn (Prim2SF pr)).
    { rewrite F64.nonneg_spec in H0. unfold fin_nn.
      destruct (Prim2SF pr) as [[]|[]| |[] m e]; try discriminate; eauto 6. }
    pose proof (Prim2SF_valid pr) as Vp. pose proof (Prim2SF_valid t) as Vt.
    assert (L : (val (Prim2SF t) <= val (Prim2SF pr))%Q).
    { apply leb_val; try assumption. rewrite <- leb_spec. apply F64.ltb_leb. exact H. }
    pose proof (sub_rnd _ _ Vp Vt Fp Ft L) as R.
    assert (Le : SFleb (SFsub prec emax (Prim2SF pr) (Prim2SF t)) (Prim2SF pr) = true).
    { apply (rnd_mono _ _ _ _ R (rnd_fix _ Vp Fp)).
      pose proof (val_nonneg _ Ft). lra. }
    assert (N : SF.nonneg (SFsub prec emax (Prim2SF pr) (Prim2SF t)) = true) by exact (rnd_sign _ _ R).
    change (SFsub prec emax ?a ?b) with (SF64sub a b) in N, Le.
    rewrite <- sub_spec in N, Le. rewrite <- F64.nonneg_spec in N. rewrite <- leb_spec in Le.
    split; [|split; assumption].
    apply F64.sf_is_finite. pose proof Le as Le'. apply (leb_nn_prim _ _ N H0) in Le'.
    destruct Le' as [E|(F & _)]; [exfalso; apply (not_inf_fin _ Fp E)|].
    destruct F as [E|[E|(m & e & E)]]; rewrite E; reflexivity.
  - rewrite F64.sub_self by exact Hf.
    split; [reflexivity|]. split; [reflexivity|].
    apply (zero_leb_prim _ _ false); [reflexivity | exact H0].
Qed.

Lemma rne_zero_small (x : Q) (k : Z) (l : location) :
  loc_ok x 0 k l -> 0 <= k -> (0 < x)%Q -> (2 * x < 1)%Q -> round_nearest_even k l = 0.
Proof.
  intros H Hk Hx Hx2.
  assert (K : k = 0).
  { assert (Hk1 : (inject_Z k < 1)%Q).
    { destruct l as [|c]; cbn [loc_ok] in H; change (pw 0) with 1%Q in H;
        [rewrite H in Hx2; lra|].
      destruct H as [[H1 _] _]. lra. }
    change 1%Q with (inject_Z 1) in Hk1. rewrite <- Zlt_Qlt in Hk1. lia. }
  subst k. destruct l as [|c]; cbn [loc_ok] in H; [reflexivity|].
  destruct H as [_ H3]. change (pw 0) with 1%Q in H3. change (inject_Z 0) with 0%Q in H3.
  assert (C : (2 * x ?= (2 * 0 + 1) * 1)%Q = Lt) by (apply (proj1 (Qlt_alt _ _)); lra).
  rewrite <- H3, C. reflexivity.
Qed.

Lemma eps_val : exists m e, Prim2SF eps = S754_finite false m e /\
  (200 * val (S754_finite false m e) < 1)%Q.
Proof. do 2 eexists. split; [vm_compute; reflexivity|]. vm_compute. reflexivity. Qed.

(** [round(x, 2)] is [+0] for [0 < x <= 1e-9]. *)
Lemma round2_small (x : float) :
  (0 <? x)%float = true -> (x <=? eps)%float = true -> Py.round2 x = 0%float.
Proof.
  intros H0 He. destruct eps_val as (me & ee & Ee & Ve).
  assert (Fx : exists m e, Prim2SF x = S754_finite false m e).
  { rewrite ltb_spec, F64.Prim2SF_zero in H0. rewrite leb_spec, Ee in He.
    destruct (Prim2SF x) as [[]|[]| |[] m e]; try discriminate; eauto. }
  destruct Fx as (m & e & Fx).
  assert (L : (val (S754_finite false m e) <= val (S754_finite false me ee))%Q).
  { rewrite <- Fx, <- Ee. apply leb_val; try apply Prim2SF_valid.
    - rewrite Fx. unfold fin_nn. eauto 6.
    - rewrite Ee. unfold fin_nn. eauto 6.
    - rewrite <- leb_spec. exact He. }
  destruct (round2_rnd x m e Fx) as (k0 & l0 & Hl & Hk & R).
  pose proof (val_finite_pos m e) as P.
  rewrite (rne_zero_small _ _ _ Hl Hk) in R by lra.
  destruct R as [[_ [s Hs]] | (m' & e' & l' & Rp & _)].
  - pose proof (F64.round2_pos x) as S. rewrite Fx in S. specialize (S eq_refl).
    rewrite Hs in S. destruct s; [discriminate|].
    apply Prim2SF_inj. rewrite Hs. reflexivity.
  - exfalso. apply rep_pos in Rp.
    assert (Z0 : (inject_Z 0 / 100 == 0)%Q) by reflexivity. rewrite Z0 in Rp.
    apply (Qlt_irrefl 0 Rp).
Qed.

Lemma round2_fmax_small (x : float) :
  (x <=? eps)%float = true -> Py.round2 (Py.fmax 0 x) = 0%float.
Proof.
  intros H. unfold Py.fmax. destruct (0 <? x)%float eqn:E.
  - apply round2_small; assumption.
  - reflexivity.
Qed.

(** A product of non-negative data is not negative, unless it is [0 * inf]. *)
Lemma mul_nn (x y : float) :
  (0 <=? x)%float = true -> (0 <=? y)%float = true ->
  ((0 <? x)%float = true \/ is_finite y = true) ->
  ((0 <? y)%float = true \/ is_finite x = true) ->
  (0 <=? x * y)%float = true.
Proof.
  intros Hx Hy C1 C2.
  assert (C1' : SFltb (S754_zero false) (Prim2SF x) = true \/ SF.finite (Prim2SF y) = true).
  { destruct C1 as [C|C]; [left; rewrite <- F64.Prim2SF_zero, <- ltb_spec; exact C
                          | right; apply F64.is_finite_sf; exact C]. }
  assert (C2' : SFltb (S754_zero false) (Prim2SF y) = true \/ SF.finite (Prim2SF x) = true).
  { destruct C2 as [C|C]; [left; rewrite <- F64.Prim2SF_zero, <- ltb_spec; exact C
                          | right; apply F64.is_finite_sf; exact C]. }
  clear C1 C2. rewrite F64.nonneg_spec in Hx, Hy |- *. rewrite mul_spec. unfold SF64mul.
  destruct (Prim2SF x) as [[]|[]| |[] m e], (Prim2SF y) as [[]|[]| |[] m2 e2];
    try discriminate; cbn in C1', C2';
    try (destruct C1' as [C|C]; discriminate); try (destruct C2' as [C|C]; discriminate);
    try reflexivity.
  cbn [SFmul xorb]. apply F64.has_sign_false_nonneg, F64.binary_round_aux_sign. lia.
Qed.

(** [float(k)] is finite and non-negative for [0 <= k <= 2^53]. *)
Lemma float_of_Z_small (k : Z) :
  0 <= k <= 2 ^ 53 -> is_finite (Py.float_of_Z k) = true /\ (0 <=? Py.float_of_Z k)%float = true.
Proof.
  intros Hk. destruct (Z.eq_dec k 0) as [->|Hk0]; [split; reflexivity|].
  destruct (binary_normalize_rep k 0) as (m1 & e1 & E1 & R1); [lia|].
  destruct (binary_normalize_rep (2 ^ 53) 0) as (m2 & e2 & E2 & R2); [lia|].
  assert (L : SFleb (binary_round_aux prec emax false m1 e1 loc_Exact)
                    (binary_round_aux prec emax false m2 e2 loc_Exact) = true).
  { apply (BRA_mono _ _ _ _ _ _ _ _ R1 R2). apply Qmult_le_compat_r.
    - rewrite <- Zle_Qle. lia.
    - apply Qlt_le_weak, pw_pos. }
  pose proof (BRA_valid _ _ _ _ R1) as V1.
  rewrite <- E1, <- E2 in L. rewrite <- E1 in V1.
  assert (B : binary_normalize prec emax (2 ^ 53) 0 false = S754_finite false 4503599627370496 1)
    by (vm_compute; reflexivity).
  rewrite B in L.
  pose proof (F64.binary_normalize_pos k 0 ltac:(lia)) as S.
  unfold Py.float_of_Z. split.
  - apply F64.sf_is_finite. rewrite Prim2SF_SF2Prim by exact V1.
    revert S L. destruct (binary_normalize prec emax k 0 false) as [[]|[]| |[] m e];
      intros S L; try discriminate S; try discriminate L; reflexivity.
  - rewrite F64.nonneg_spec, Prim2SF_SF2Prim by exact V1.
    apply F64.has_sign_false_nonneg, S.
Qed.

Lemma in_insert_sorted (x p : Payment) (l : list Payment) :
  In x (insert_sorted p l) <-> x = p \/ In x l.
Proof.
  induction l as [|q l IH]; cbn [insert_sorted].
  - cbn. intuition congruence.
  - destruct (key_lt p q); cbn [In]; [intuition congruence|]. rewrite IH. intuition congruence.
Qed.

Lemma in_fold_insert (x : Payment) (l acc : list Payment) :
  In x (fold_left (fun acc p => insert_sorted p acc) l acc) <-> In x l \/ In x acc.
Proof.
  revert acc. induction l as [|p l IH]; intros acc; cbn [fold_left].
  - cbn. intuition.
  - rewrite IH, in_insert_sorted. cbn [In]. intuition congruence.
Qed.

Lemma in_normalize (x : Payment) (as_of : Z) (l : list Payment) :
  In x (normalize_payments as_of l) <-> In x l /\ paid_on x <= as_of.
Proof.
  unfold normalize_payments, sort_payments. rewrite in_fold_insert, filter_In, Z.leb_le.
  cbn [In]. intuition.
Qed.


Lemma insert_sorted_sorted (p : Payment) (l : list Payment) :
  StronglySorted date_le l -> StronglySorted date_le (insert_sorted p l).
Proof.
  induction l as [|q l IH]; intros H; cbn [insert_sorted].
  - constructor; constructor.
  - apply StronglySorted_inv in H as [H1 H2]. rewrite Forall_forall in H2.
    destruct (key_lt p q) eqn:K.
    + assert (paid_on p <= paid_on q).
      { unfold key_lt in K. apply orb_prop in K as [K|K];
          [apply Z.ltb_lt in K; lia | apply andb_prop in K as [K _]; apply Z.eqb_eq in K; lia]. }
      constructor; [constructor; [exact H1 | apply Forall_forall; exact H2]|].
      constructor; [unfold date_le; lia|]. apply Forall_forall. intros y Hy.
      specialize (H2 y Hy). unfold date_le in *. lia.
    + assert (paid_on q <= paid_on p).
      { unfold key_lt in K. apply orb_false_elim in K as [K _]. apply Z.ltb_ge in K. lia. }
      constructor; [apply IH; exact H1|]. apply Forall_forall. intros y Hy.
      apply in_insert_sorted in Hy as [->|Hy]; [unfold date_le; lia | apply H2, Hy].
Qed.

Lemma normalize_sorted (as_of : Z) (l : list Payment) :
  StronglySorted date_le (normalize_payments as_of l).
Proof.
  unfold normalize_payments, sort_payments.
  assert (G : forall l acc, StronglySorted date_le acc ->
            StronglySorted date_le (fold_left (fun acc p => insert_sorted p acc) l acc)).
  { induction l0 as [|p l0 IH]; intros acc H; cbn [fold_left]; auto.
    apply IH, insert_sorted_sorted, H. }
  apply G. constructor.
Qed.

Lemma sorted_app_r (l1 l2 : list Payment) :
  StronglySorted date_le (l1 ++ l2) -> StronglySorted date_le l2.
Proof.
  induction l1 as [|x l1 IH]; intros H; [exact H|].
  apply IH. cbn in H. apply StronglySorted_inv in H as [H _]. exact H.
Qed.

(** ** The inner loop applies a run of payments of one date *)

Lemma apply_day_split (pdate : Z) (l : list Payment) (s : State) :
  exists run, l = run ++ fst (apply_day pdate l s) /\
    Forall (fun p => paid_on p = pdate) run /\
    snd (apply_day pdate l s) = fold_left (fun s p => apply_payment (amount p) s) run s.
Proof.
  revert s. induction l as [|p l IH]; intros s; cbn [apply_day].
  - exists []. cbn. auto.
  - destruct (paid_on p =? pdate) eqn:E.
    + destruct (IH (apply_payment (amount p) s)) as (run & H1 & H2 & H3).
      exists (p :: run). cbn [app fold_left]. split; [rewrite <- H1; reflexivity|].
      split; [constructor; [apply Z.eqb_eq; exact E | exact H2] | exact H3].
    + exists []. cbn. auto.
Qed.

Lemma apply_day_length (q : Payment) (l : list Payment) (s : State) :
  (length (fst (apply_day (paid_on q) (q :: l) s)) <= length l)%nat.
Proof.
  cbn [apply_day]. rewrite Z.eqb_refl.
  destruct (apply_day_split (paid_on q) l (apply_payment (amount q) s)) as (run & H & _).
  rewrite H at 2. rewrite length_app. lia.
Qed.

(** ** Invariants carried through the walk over the payments *)

Section WalkInv.
Variables (disbursed_on due tw : Z) (wr lr : float) (T : Z).
Variables (Pa : Payment -> Prop) (I : State -> Prop).
Hypothesis Hproc : forall t s, t <= T -> I s -> I (process_accrual_until disbursed_on due tw wr lr t s).
Hypothesis Hpay : forall p s, Pa p -> I s -> I (apply_payment (amount p) s).

Lemma fold_pay_inv (run : list Payment) (s : State) :
  Forall Pa run -> I s -> I (fold_left (fun s p => apply_payment (amount p) s) run s).
Proof.
  revert s. induction run as [|p run IH]; intros s H Hs; cbn [fold_left]; [exact Hs|].
  apply Forall_cons_iff in H as [H1 H2]. apply IH; [exact H2 | apply Hpay; assumption].
Qed.

Lemma walk_inv (fuel : nat) (l : list Payment) (s : State) :
  Forall (fun p => Pa p /\ paid_on p <= T) l -> I s ->
  I (fst (walk disbursed_on due tw wr lr fuel l s)).
Proof.
  revert l s. induction fuel as [|fuel IH]; intros l s Hl Hs; cbn [walk]; [exact Hs|].
  destruct l as [|q l']; [exact Hs|].
  pose proof Hl as Hq. apply Forall_cons_iff in Hq as [[_ Hq] _].
  pose proof (Hproc (paid_on q) s Hq Hs) as H1.
  destruct (apply_day_split (paid_on q) (q :: l') (process_accrual_until disbursed_on due tw wr lr (paid_on q) s))
    as (run & E & _ & E2).
  destruct (apply_day (paid_on q) (q :: l') _) as [rest s2]. cbn [fst snd] in E, E2.
  rewrite E in Hl. apply Forall_app in Hl as [Hr Hrest].
  assert (I s2).
  { rewrite E2. apply fold_pay_inv; [|exact H1].
    apply Forall_forall. intros x Hx. rewrite Forall_forall in Hr. apply (Hr x Hx). }
  destruct (is_settled s2); [assumption|]. apply IH; assumption.
Qed.
End WalkInv.

(** ** The principal only decreases *)

Lemma pre_step_fields (wr : float) (s : State) :
  principal_rem (pre_step wr s) = principal_rem s /\
  pre_charged_weeks (pre_step wr s) = pre_charged_weeks s + 1 /\
  over_charged_weeks (pre_step wr s) = over_charged_weeks s.
Proof. unfold pre_step. destruct (eps <? _)%float; cbn; auto. Qed.

Lemma over_step_fields (wr lr : float) (s : State) :
  principal_rem (over_step wr lr s) = principal_rem s /\
  pre_charged_weeks (over_step wr lr s) = pre_charged_weeks s /\
  over_charged_weeks (over_step wr lr s) = over_charged_weeks s + 1.
Proof. unfold over_step. destruct (eps <? _)%float; cbn; auto. Qed.

Lemma pre_loop_fuel (wr : float) (T : Z) (n m : nat) (s : State) :
  (Z.to_nat (T - pre_charged_weeks s) <= n)%nat -> (Z.to_nat (T - pre_charged_weeks s) <= m)%nat ->
  pre_loop wr n T s = pre_loop wr m T s.
Proof.
  revert m s. induction n as [|n IH]; intros m s Hn Hm.
  - destruct m as [|m]; [reflexivity|]. cbn [pre_loop].
    rewrite (proj2 (Z.ltb_ge _ _)) by lia. reflexivity.
  - destruct m as [|m]; cbn [pre_loop].
    + rewrite (proj2 (Z.ltb_ge _ _)) by lia. reflexivity.
    + destruct (pre_charged_weeks s <? T) eqn:E; [|reflexivity].
      apply Z.ltb_lt in E. destruct (pre_step_fields wr s) as (_ & C & _).
      apply IH; rewrite C; lia.
Qed.

Lemma over_loop_fuel (wr lr : float) (T : Z) (n m : nat) (s : State) :
  (Z.to_nat (T - over_charged_weeks s) <= n)%nat -> (Z.to_nat (T - over_charged_weeks s) <= m)%nat ->
  over_loop wr lr n T s = over_loop wr lr m T s.
Proof.
  revert m s. induction n as [|n IH]; intros m s Hn Hm.
  - destruct m as [|m]; [reflexivity|]. cbn [over_loop].
    rewrite (proj2 (Z.ltb_ge _ _)) by lia. reflexivity.
  - destruct m as [|m]; cbn [over_loop].
    + rewrite (proj2 (Z.ltb_ge _ _)) by lia. reflexivity.
    + destruct (over_charged_weeks s <? T) eqn:E; [|reflexivity].
      apply Z.ltb_lt in E. destruct (over_step_fields wr lr s) as (_ & _ & C).
      apply IH; rewrite C; lia.
Qed.

Lemma pre_loop_fields (wr : float) (T : Z) (n : nat) (s : State) :
  (Z.to_nat (T - pre_charged_weeks s) <= n)%nat ->
  principal_rem (pre_loop wr n T s) = principal_rem s /\
  pre_charged_weeks (pre_loop wr n T s) = Z.max (pre_charged_weeks s) T /\
  over_charged_weeks (pre_loop wr n T s) = over_charged_weeks s.
Proof.
  revert s. induction n as [|n IH]; intros s Hn; cbn [pre_loop].
  - split; [reflexivity|]. split; [lia|reflexivity].
  - destruct (pre_charged_weeks s <? T) eqn:E.
    + apply Z.ltb_lt in E. destruct (pre_step_fields wr s) as (P & C & O).
      destruct (IH (pre_step wr s)) as (P' & C' & O'); [rewrite C; lia|].
      rewrite P', C', O', P, C, O. split; [reflexivity|]. split; [lia|reflexivity].
    + apply Z.ltb_ge in E. split; [reflexivity|]. split; [lia|reflexivity].
Qed.

Lemma over_loop_fields (wr lr : float) (T : Z) (n : nat) (s : State) :
  (Z.to_nat (T - over_charged_weeks s) <= n)%nat ->
  principal_rem (over_loop wr lr n T s) = principal_rem s /\
  pre_charged_weeks (over_loop wr lr n T s) = pre_charged_weeks s /\
  over_charged_weeks (over_loop wr lr n T s) = Z.max (over_charged_weeks s) T.
Proof.
  revert s. induction n as [|n IH]; intros s Hn; cbn [over_loop].
  - split; [reflexivity|]. split; [reflexivity|lia].
  - destruct (over_charged_weeks s <? T) eqn:E.
    + apply Z.ltb_lt in E. destruct (over_step_fields wr lr s) as (P & C & O).
      destruct (IH (over_step wr lr s)) as (P' & C' & O'); [rewrite O; lia|].
      rewrite P', C', O', P, C, O. split; [reflexivity|]. split; [reflexivity|lia].
    + apply Z.ltb_ge in E. split; [reflexivity|]. split; [reflexivity|lia].
Qed.

Lemma pre_loop_comp (wr : float) (T1 T2 : Z) (n1 n2 n : nat) (s : State) :
  T1 <= T2 ->
  (Z.to_nat (T1 - pre_charged_weeks s) <= n1)%nat ->
  (Z.to_nat (T2 - pre_charged_weeks (pre_loop wr n1 T1 s)) <= n2)%nat ->
  (Z.to_nat (T2 - pre_charged_weeks s) <= n)%nat ->
  pre_loop wr n2 T2 (pre_loop wr n1 T1 s) = pre_loop wr n T2 s.
Proof.
  intros HT. revert n s. induction n1 as [|n1 IH]; intros n s H1 H2 H3; cbn [pre_loop] in *.
  - apply pre_loop_fuel; assumption.
  - destruct (pre_charged_weeks s <? T1) eqn:E.
    + apply Z.ltb_lt in E. destruct n as [|n]; [lia|]. cbn [pre_loop].
      rewrite (proj2 (Z.ltb_lt _ _)) by lia.
      destruct (pre_step_fields wr s) as (_ & C & _).
      apply IH; try rewrite C; try lia; exact H2.
    + apply pre_loop_fuel; assumption.
Qed.

Lemma over_loop_comp (wr lr : float) (T1 T2 : Z) (n1 n2 n : nat) (s : State) :
  T1 <= T2 ->
  (Z.to_nat (T1 - over_charged_weeks s) <= n1)%nat ->
  (Z.to_nat (T2 - over_charged_weeks (over_loop wr lr n1 T1 s)) <= n2)%nat ->
  (Z.to_nat (T2 - over_charged_weeks s) <= n)%nat ->
  over_loop wr lr n2 T2 (over_loop wr lr n1 T1 s) = over_loop wr lr n T2 s.
Proof.
  intros HT. revert n s. induction n1 as [|n1 IH]; intros n s H1 H2 H3; cbn [over_loop] in *.
  - apply over_loop_fuel; assumption.
  - destruct (over_charged_weeks s <? T1) eqn:E.
    + apply Z.ltb_lt in E. destruct n as [|n]; [lia|]. cbn [over_loop].
      rewrite (proj2 (Z.ltb_lt _ _)) by lia.
      destruct (over_step_fields wr lr s) as (_ & _ & C).
      apply IH; try rewrite C; try lia; exact H2.
    + apply over_loop_fuel; assumption.
Qed.

Lemma ceil_weeks_mono (a b : Z) : a <= b -> ceil_weeks a <= ceil_weeks b.
Proof.
  intros H. unfold ceil_weeks.
  destruct (a <=? 0) eqn:Ea, (b <=? 0) eqn:Eb; try lia.
  - apply Z.div_pos; lia.
  - apply Z.div_le_mono; lia.
Qed.

Lemma process_pr (d due tw : Z) (wr lr : float) (t : Z) (s : State) :
  principal_rem (process_accrual_until d due tw wr lr t s) = principal_rem s.
Proof.
  unfold process_accrual_until. cbv zeta.
  match goal with |- context [pre_loop wr ?n ?T s] =>
    destruct (pre_loop_fields wr T n s ltac:(lia)) as (P & _ & O) end.
  destruct (due <? t); [|exact P].
  match goal with |- context [over_loop wr lr ?n ?T ?s'] =>
    destruct (over_loop_fields wr lr T n s' ltac:(lia)) as (P' & _ & _) end.
  rewrite P'. exact P.
Qed.

Lemma total_pre_mono (d tw x1 x2 : Z) :
  x1 <= x2 ->
  Z.max 0 (Z.min (ceil_weeks (x1 - d)) (if tw =? 0 then ceil_weeks (x1 - d) else tw)) <=
  Z.max 0 (Z.min (ceil_weeks (x2 - d)) (if tw =? 0 then ceil_weeks (x2 - d) else tw)).
Proof.
  intros H. pose proof (ceil_weeks_mono (x1 - d) (x2 - d) ltac:(lia)).
  destruct (tw =? 0); lia.
Qed.

(** Accruing up to [t1] and then up to [t2] is accruing up to [t2]. *)
Lemma process_comp (d due tw : Z) (wr lr : float) (t1 t2 : Z) (s : State) :
  t1 <= t2 ->
  process_accrual_until d due tw wr lr t2 (process_accrual_until d due tw wr lr t1 s) =
  process_accrual_until d due tw wr lr t2 s.
Proof.
  intros Ht. unfold process_accrual_until. cbv zeta.
  destruct (due <? t1) eqn:E1.
  - assert (E2 : (due <? t2) = true) by (apply Z.ltb_lt; apply Z.ltb_lt in E1; lia).
    rewrite E2.
    set (TP := Z.max 0 (Z.min (ceil_weeks (due - d)) (if tw =? 0 then ceil_weeks (due - d) else tw))).
    set (s' := pre_loop wr (Z.to_nat (TP - pre_charged_weeks s)) TP s).
    destruct (pre_loop_fields wr TP (Z.to_nat (TP - pre_charged_weeks s)) s ltac:(lia))
      as (_ & C1 & _). fold s' in C1.
    set (s1 := over_loop wr lr _ _ s').
    destruct (over_loop_fields wr lr (ceil_weeks (t1 - due)) (Z.to_nat (ceil_weeks (t1 - due) - over_charged_weeks s')) s' ltac:(lia))
      as (_ & C2 & _). fold s1 in C2.
    replace (Z.to_nat (TP - pre_charged_weeks s1)) with 0%nat by lia. cbn [pre_loop].
    apply over_loop_comp; [apply ceil_weeks_mono; lia | lia | unfold s1; lia | lia].
  -
    assert (TPm := total_pre_mono d tw t1 (if due <? t2 then due else t2)
                    ltac:(apply Z.ltb_ge in E1; destruct (due <? t2); lia)).
    match goal with |- context [pre_loop wr ?n2 ?T2 (pre_loop wr ?n1 ?T1 s)] =>
      rewrite (pre_loop_comp wr T1 T2 n1 n2 (Z.to_nat (T2 - pre_charged_weeks s)) s) end;
      [reflexivity | exact TPm | lia | lia | lia].
Qed.

Lemma not_neg_of_nn (x : float) : (0 <=? x)%float = true -> (x <? 0)%float = false.
Proof. apply F64.leb_not_gtb. Qed.

(** [_apply_payment] lowers the remaining principal, for a non-negative amount. *)
Lemma apply_payment_pr (amt : float) (s : State) :
  (0 <=? amt)%float = true -> is_finite (principal_rem s) = true -> (0 <=? principal_rem s)%float = true ->
  is_finite (principal_rem (apply_payment amt s)) = true /\
  (0 <=? principal_rem (apply_payment amt s))%float = true /\
  (principal_rem (apply_payment amt s) <=? principal_rem s)%float = true.
Proof.
  intros Ha Hf H0. unfold apply_payment. cbn [principal_rem].
  apply pr_step; [exact Hf | exact H0|].
  apply sub_fmin_not_neg, sub_fmin_not_neg, not_neg_of_nn, Ha.
Qed.


(** Claim C2 (amended). For a finite principal [>= 0] and payments of
    amount [>= 0] (any rates, any dates): [principal_receivable] is at most
    the principal rounded to 2 decimals, and [principal_receivable],
    [accrued_interest_fees] and [outstanding] are all [>= 0], also when the
    payments exceed what is owed. *)
Theorem C2_principal_bounded (principal : float) (disbursed_on as_of : Z)
    (payments : list Payment) (weekly_interest_rate late_step_rate : float)
    (term_weeks agreed_due_on : option Z) :
  is_finite principal = true -> (0 <=? principal)%float = true ->
  Forall (fun p => (0 <=? amount p)%float = true) payments ->
  let r := amount_due_with_payments principal disbursed_on as_of payments
             weekly_interest_rate late_step_rate term_weeks agreed_due_on in
  (principal_receivable r <=? Py.round2 principal)%float = true /\
  (0 <=? principal_receivable r)%float = true /\
  (0 <=? accrued_interest_fees r)%float = true /\
  (0 <=? outstanding r)%float = true.
Proof.
  intros Hf H0 Hamt r. subst r. unfold amount_due_with_payments.
  destruct (resolve_terms disbursed_on term_weeks agreed_due_on) as [tw due].
  set (L := normalize_payments as_of payments).
  assert (Hproc : forall t s, t <= as_of -> I2 principal s ->
            I2 principal (process_accrual_until disbursed_on due tw weekly_interest_rate late_step_rate t s)).
  { intros t s _ H. unfold I2. rewrite process_pr. exact H. }
  assert (Hpay : forall p s, (0 <=? amount p)%float = true -> I2 principal s ->
            I2 principal (apply_payment (amount p) s)).
  { intros p s Hp (F & N & Le).
    destruct (apply_payment_pr (amount p) s Hp F N) as (F' & N' & Le').
    split; [exact F'|]. split; [exact N'|]. apply (leb_trans_nn _ _ _ N' N H0 Le' Le). }
  assert (HL : Forall (fun p => (0 <=? amount p)%float = true /\ paid_on p <= as_of) L).
  { apply Forall_forall. intros x Hx. apply in_normalize in Hx as [Hx Hd].
    rewrite Forall_forall in Hamt. split; [apply Hamt, Hx | exact Hd]. }
  assert (Hi : I2 principal (init_state principal)).
  { split; [exact Hf|]. split; [exact H0|]. apply leb_refl_nn, H0. }
  pose proof (walk_inv disbursed_on due tw weekly_interest_rate late_step_rate as_of
                _ (I2 principal) Hproc Hpay (length L) L (init_state principal) HL Hi) as W.
  destruct (walk _ _ _ _ _ _ _ _) as [s b]. cbn [fst] in W.
  assert (Hs : I2 principal (if b then s else
            process_accrual_until disbursed_on due tw weekly_interest_rate late_step_rate as_of s))
    by (destruct b; [exact W | apply Hproc; [lia | exact W]]).
  set (s' := if b then s else _) in *. clearbody s'. destruct Hs as (_ & N & Le).
  assert (A1 := F64.round2_nonneg _ (F64.fmax_zero_nonneg (principal_rem s'))).
  assert (A2 := F64.round2_nonneg _ (F64.fmax_zero_nonneg (accrued_interest s' + accrued_late s'))).
  cbn [principal_receivable accrued_interest_fees outstanding].
  split; [|split; [exact A1|split; [exact A2|]]].
  - apply round2_mono; [apply F64.fmax_zero_nonneg|].
    unfold Py.fmax. destruct (0 <? principal_rem s')%float; [exact Le|].
    apply (zero_leb_prim _ _ false); [reflexivity | exact H0].
  - apply F64.round2_nonneg, F64.add_nonneg; assumption.
Qed.

(** ** Payments before any accrual *)

Lemma apply_payment_clean (amt : float) (s : State) :
  (0 <=? amt)%float = true -> accrued_interest s = 0%float -> accrued_late s = 0%float ->
  apply_payment amt s =
  mkState (principal_rem s - Py.fmin (principal_rem s) amt)%float 0 0
          (pre_charged_weeks s) (over_charged_weeks s).
Proof.
  intros Ha Hi Hl. unfold apply_payment. rewrite Hi, Hl.
  rewrite (F64.fmin_le 0 amt Ha), F64.sub_zero, (F64.fmin_le 0 amt Ha), F64.sub_zero.
  reflexivity.
Qed.



Lemma pay_K10 (p q : Payment) (s : State) :
  (0 <=? amount q)%float = true -> (0 <=? amount p)%float = true ->
  K10 p s -> K10 p (apply_payment (amount q) s).
Proof.
  intros Hq Hp (Hi & Hl & Hc & Hf & H0 & Le).
  destruct (apply_payment_pr (amount q) s Hq Hf H0) as (F' & N' & Le').
  rewrite (apply_payment_clean _ _ Hq Hi Hl) in *. cbn [principal_rem] in *.
  split; [reflexivity|]. split; [reflexivity|]. split; [exact Hc|].
  split; [exact F'|]. split; [exact N'|]. apply (leb_trans_nn _ _ _ N' H0 Hp Le' Le).
Qed.

Lemma pay_K10_self (p : Payment) (s : State) :
  (0 <=? amount p)%float = true -> K10 p s -> K10_done (apply_payment (amount p) s).
Proof.
  intros Hp (Hi & Hl & Hc & Hf & H0 & Le).
  rewrite (apply_payment_clean _ _ Hp Hi Hl). unfold K10_done. cbn.
  rewrite (F64.fmin_le _ _ Le), F64.sub_self by exact Hf. auto.
Qed.

Lemma pay_K10_done (q : Payment) (s : State) :
  (0 <=? amount q)%float = true -> K10_done s -> K10_done (apply_payment (amount q) s).
Proof.
  intros Hq (Hi & Hl & Hc & Hp).
  rewrite (apply_payment_clean _ _ Hq Hi Hl). unfold K10_done. cbn. rewrite Hp.
  rewrite (F64.fmin_le _ _ Hq). auto.
Qed.

Lemma fold_K10_done (run : list Payment) (s : State) :
  Forall (fun q => (0 <=? amount q)%float = true) run -> K10_done s ->
  K10_done (fold_left (fun s p => apply_payment (amount p) s) run s).
Proof.
  revert s. induction run as [|q run IH]; intros s H Hs; cbn [fold_left]; [exact Hs|].
  apply Forall_cons_iff in H as [H1 H2]. apply IH; [exact H2 | apply pay_K10_done; assumption].
Qed.

Lemma fold_K10 (p : Payment) (run : list Payment) (s : State) :
  Forall (fun q => (0 <=? amount q)%float = true) run -> (0 <=? amount p)%float = true ->
  K10 p s \/ K10_done s ->
  (K10 p (fold_left (fun s p => apply_payment (amount p) s) run s) \/
   K10_done (fold_left (fun s p => apply_payment (amount p) s) run s)) /\
  (In p run -> K10_done (fold_left (fun s p => apply_payment (amount p) s) run s)).
Proof.
  revert s. induction run as [|q run IH]; intros s H Hp Hs; cbn [fold_left In].
  - split; [exact Hs | intros []].
  - apply Forall_cons_iff in H as [Hq Hr].
    assert (Hs' : K10 p (apply_payment (amount q) s) \/ K10_done (apply_payment (amount q) s))
      by (destruct Hs as [Hs|Hs]; [left; apply pay_K10 | right; apply pay_K10_done]; assumption).
    destruct (IH _ Hr Hp Hs') as [IH1 IH2]. split; [exact IH1|].
    intros [->|Hin]; [|apply IH2, Hin].
    apply fold_K10_done; [exact Hr|].
    destruct Hs as [Hs|Hs]; [apply pay_K10_self | apply pay_K10_done]; assumption.
Qed.

Lemma K10_done_settled (s : State) : K10_done s -> is_settled s = true.
Proof. intros (Hi & Hl & _ & Hp). unfold is_settled. rewrite Hi, Hl, Hp. reflexivity. Qed.

Lemma walk_C10 (d due tw : Z) (wr lr : float) (p : Payment) (fuel : nat) :
  forall (l : list Payment) (s : State),
  StronglySorted date_le l -> (length l <= fuel)%nat -> In p l ->
  Forall (fun q => (0 <=? amount q)%float = true) l ->
  paid_on p < d -> paid_on p <= due -> K10 p s ->
  exists s', walk d due tw wr lr fuel l s = (s', true) /\
    accrued_interest s' = 0%float /\ accrued_late s' = 0%float /\ (principal_rem s' <=? eps)%float = true.
Proof.
  induction fuel as [|fuel IH]; intros l s Hs Hlen Hin Hn Hd Hdue HK.
  { destruct l; [destruct Hin | cbn in Hlen; lia]. }
  destruct l as [|q l']; [destruct Hin|].
  assert (Hpn : (0 <=? amount p)%float = true) by (rewrite Forall_forall in Hn; apply Hn, Hin).
  assert (Hqp : paid_on q <= paid_on p).
  { destruct Hin as [->|Hin]; [lia|]. apply StronglySorted_inv in Hs as [_ Hs].
    rewrite Forall_forall in Hs. apply (Hs p Hin). }
  cbn [walk].
  pose proof HK as (Hi & Hl & Hc & _).
  rewrite process_accrual_before by lia.
  destruct (apply_day_split (paid_on q) (q :: l') s) as (run & E & _ & E2).
  pose proof (apply_day_length q l' s) as Len.
  destruct (apply_day (paid_on q) (q :: l') s) as [rest s2]. cbn [fst snd] in E, E2, Len.
  rewrite E in Hn, Hin, Hs. apply Forall_app in Hn as [Hnr Hnrest].
  destruct (fold_K10 p run s Hnr Hpn (or_introl HK)) as [F1 F2]. rewrite <- E2 in F1, F2.
  assert (Done : K10_done s2 -> exists s', (if is_settled s2 then (s2, true) else
                   walk d due tw wr lr fuel rest s2) = (s', true) /\
                   accrued_interest s' = 0%float /\ accrued_late s' = 0%float /\
                   (principal_rem s' <=? eps)%float = true).
  { intros D. rewrite (K10_done_settled _ D). exists s2. destruct D as (D1 & D2 & _ & D3).
    rewrite D3. auto. }
  apply in_app_or in Hin as [Hin|Hin]; [apply Done, F2, Hin|].
  destruct F1 as [F1|F1]; [|apply Done, F1].
  destruct (is_settled s2) eqn:S.
  - exists s2. destruct F1 as (D1 & D2 & _).
    unfold is_settled in S. apply andb_prop in S as [S _]. auto.
  - apply IH; try assumption.
    + apply (sorted_app_r run), Hs.
    + cbn in Hlen. lia.
Qed.

(** ** Payments before disbursement go to principal *)

Lemma apply_payment_to_principal (amt : float) (s : State) :
  (amt <? 0)%float = false -> accrued_interest s = 0%float -> accrued_late s = 0%float ->
  apply_payment amt s = pay_to_principal amt s.
Proof.
  intros Ha Hi Hl. unfold apply_payment, pay_to_principal. rewrite Hi, Hl.
  assert (Z0 : Py.fmin 0 amt = 0%float) by (unfold Py.fmin; rewrite Ha; reflexivity).
  rewrite Z0, F64.sub_zero, Z0, F64.sub_zero.
  rewrite (F64.zero_sub_zero 0 false) by exact F64.Prim2SF_zero. reflexivity.
Qed.

Lemma apply_day_to_principal (pdate : Z) (l : list Payment) (s : State) :
  Forall (fun q => (amount q <? 0)%float = false) l ->
  accrued_interest s = 0%float -> accrued_late s = 0%float ->
  apply_day pdate l s = pay_day_to_principal pdate l s.
Proof.
  revert s. induction l as [|q l IH]; intros s Hn Hi Hl; cbn [apply_day pay_day_to_principal];
    [reflexivity|].
  apply Forall_cons_iff in Hn as [Hq Hn].
  destruct (paid_on q =? pdate); [|reflexivity].
  rewrite (apply_payment_to_principal _ _ Hq Hi Hl). apply IH; [exact Hn | exact Hi | exact Hl].
Qed.

(** Claim C10 (amended). A payment dated strictly before [disbursed_on] is
    applied before any week has started. (1) Each step of the walk over the
    payments at such a date, from a state with nothing accrued, pays every
    payment of that date (amount not negative) entirely to principal,
    leaving interest and late at 0, then stops if the loan is settled.
    Payments dated after the settlement are not applied. (2) In
    particular, when a payment [p] with [p.paid_on < disbursed_on] and
    [p.paid_on <= as_of] has an amount at least the (finite, [>= 0])
    principal, all payment amounts are [>= 0] and the due date is not
    before the disbursement, the loan is settled with no interest ever
    accrued: [outstanding], [principal_receivable],
    [accrued_interest_fees], [interest] and [late_incremental] are all 0. *)
Theorem C10_pre_disbursement_payment :
  (forall (disbursed_on due tw : Z) (weekly_interest_rate late_step_rate : float) (fuel : nat)
          (p : Payment) (l : list Payment) (s : State),
     paid_on p < disbursed_on -> paid_on p <= due ->
     accrued_interest s = 0%float -> accrued_late s = 0%float -> 0 <= pre_charged_weeks s ->
     Forall (fun q => (amount q <? 0)%float = false) (p :: l) ->
     walk disbursed_on due tw weekly_interest_rate late_step_rate (S fuel) (p :: l) s =
     let '(rest, s2) := pay_day_to_principal (paid_on p) (p :: l) s in
     if is_settled s2 then (s2, true)
     else walk disbursed_on due tw weekly_interest_rate late_step_rate fuel rest s2) /\
  (forall (principal : float) (disbursed_on as_of : Z)
          (payments : list Payment) (weekly_interest_rate late_step_rate : float)
          (term_weeks agreed_due_on : option Z) (p : Payment),
     In p payments -> paid_on p < disbursed_on -> paid_on p <= as_of ->
     Forall (fun q => (0 <=? amount q)%float = true) payments ->
     is_finite principal = true -> (0 <=? principal)%float = true ->
     (principal <=? amount p)%float = true ->
     (forall dd, agreed_due_on = Some dd -> disbursed_on <= dd) ->
     (forall w, term_weeks = Some w -> 0 <= w) ->
     let r := amount_due_with_payments principal disbursed_on as_of payments
                weekly_interest_rate late_step_rate term_weeks agreed_due_on in
     outstanding r = 0%float /\ principal_receivable r = 0%float /\
     accrued_interest_fees r = 0%float /\ interest r = 0%float /\ late_incremental r = 0%float).
Proof.
  split.
  - intros d due tw wr lr fuel p l s Hd Hdue Hi Hl Hc Hn. cbn [walk].
    rewrite process_accrual_before by lia.
    rewrite (apply_day_to_principal _ _ _ Hn Hi Hl). reflexivity.
  - intros principal disbursed_on as_of payments weekly_interest_rate late_step_rate
      term_weeks agreed_due_on p Hin Hd Ha Hn Hf H0 Hle Hdue Htw r. subst r.
    unfold amount_due_with_payments.
    pose proof (resolve_terms_due_ge disbursed_on term_weeks agreed_due_on Hdue Htw) as Hdd.
    destruct (resolve_terms disbursed_on term_weeks agreed_due_on) as [tw due]. cbn [snd] in Hdd.
    set (L := normalize_payments as_of payments).
    assert (HinL : In p L) by (apply in_normalize; split; assumption).
    assert (HnL : Forall (fun q => (0 <=? amount q)%float = true) L).
    { apply Forall_forall. intros x Hx. apply in_normalize in Hx as [Hx _].
      rewrite Forall_forall in Hn. apply Hn, Hx. }
    assert (HK : K10 p (init_state principal)).
    { unfold K10, init_state. cbn. repeat split; try assumption. lia. }
    destruct (walk_C10 disbursed_on due tw weekly_interest_rate late_step_rate p (length L) L
                (init_state principal) (normalize_sorted as_of payments) (le_n _) HinL HnL Hd
                ltac:(lia) HK) as (s' & W & Hi & Hl & Hp).
    rewrite W. rewrite Hi, Hl, (round2_fmax_small _ Hp). cbn. auto.
Qed.

(** ** Accrual only increases the accrued amounts *)

Lemma sub_le_fin (p t : float) :
  is_finite p = true -> (0 <=? t)%float = true -> (t <=? p)%float = true ->
  is_finite (p - t)%float = true /\ (0 <=? p - t)%float = true.
Proof.
  intros Hf Ht Le.
  pose proof (nn_of_leb _ _ Ht Le) as H0.
  assert (Fp : fin_nn (Prim2SF p)).
  { apply F64.is_finite_sf in Hf. rewrite F64.nonneg_spec in H0. unfold fin_nn.
    destruct (Prim2SF p) as [[]|[]| |[] m e]; try discriminate; eauto 6. }
  pose proof Le as L. apply (leb_nn_prim _ _ Ht H0) in L.
  destruct L as [E|(Ft & _ & L)]; [exfalso; apply (not_inf_fin _ Fp E)|].
  pose proof (Prim2SF_valid p) as Vp. pose proof (Prim2SF_valid t) as Vt.
  pose proof (sub_rnd _ _ Vp Vt Fp Ft L) as R.
  assert (Le' : SFleb (SFsub prec emax (Prim2SF p) (Prim2SF t)) (Prim2SF p) = true).
  { apply (rnd_mono _ _ _ _ R (rnd_fix _ Vp Fp)). pose proof (val_nonneg _ Ft). lra. }
  assert (N : SF.nonneg (SFsub prec emax (Prim2SF p) (Prim2SF t)) = true) by exact (rnd_sign _ _ R).
  change (SFsub prec emax ?a ?b) with (SF64sub a b) in N, Le'.
  rewrite <- sub_spec in N, Le'. rewrite <- F64.nonneg_spec in N. rewrite <- leb_spec in Le'.
  split; [|exact N].
  apply F64.sf_is_finite. apply (leb_nn_prim _ _ N H0) in Le'.
  destruct Le' as [E|(F & _)]; [exfalso; apply (not_inf_fin _ Fp E)|].
  destruct F as [E|[E|(m & e & E)]]; rewrite E; reflexivity.
Qed.

Lemma nn_not_inf_finite (a : float) :
  (0 <=? a)%float = true -> Prim2SF a <> S754_infinity false -> is_finite a = true.
Proof.
  intros H E. apply F64.sf_is_finite. rewrite F64.nonneg_spec in H.
  destruct (Prim2SF a) as [[]|[]| |[] m e]; try discriminate; try reflexivity. congruence.
Qed.

(** Below a finite [amt], a non-negative [a] that is not above it is finite. *)
Lemma le_finite (a amt : float) :
  (0 <=? a)%float = true -> is_finite amt = true -> (amt <? a)%float = false ->
  is_finite a = true /\ (a <=? amt)%float = true.
Proof.
  intros Ha Hf H.
  assert (Fa : is_finite a = true).
  { apply nn_not_inf_finite; [exact Ha|]. intros E. apply F64.is_finite_sf in Hf.
    rewrite ltb_spec, E in H. destruct (Prim2SF amt) as [[]|[]| |[] m e]; discriminate. }
  split; [exact Fa|]. apply F64.not_ltb_leb; [exact H | apply F64.is_finite_sf; assumption ..].
Qed.

Lemma a_step (a amt : float) :
  (0 <=? a)%float = true -> is_finite amt = true -> (0 <=? amt)%float = true ->
  (0 <=? a - Py.fmin a amt)%float = true.
Proof.
  intros Ha Hf H0. unfold Py.fmin. destruct (amt <? a)%float eqn:H.
  - destruct (nn_cases a Ha) as [E|Fa].
    + rewrite F64.nonneg_spec, sub_spec, E. apply F64.is_finite_sf in Hf. unfold SF64sub.
      destruct (Prim2SF amt) as [[]|[]| |[] m e]; try discriminate; reflexivity.
    + apply F64.sub_nonneg_of_le; [exact Hf| |apply F64.ltb_leb, H].
      apply F64.sf_is_finite. destruct Fa as [E|[E|(m & e & E)]]; rewrite E; reflexivity.
  - destruct (le_finite a amt Ha Hf H) as [Fa _]. rewrite F64.sub_self by exact Fa. reflexivity.
Qed.

Lemma amt_step (a amt : float) :
  (0 <=? a)%float = true -> is_finite amt = true -> (0 <=? amt)%float = true ->
  is_finite (amt - Py.fmin a amt)%float = true /\ (0 <=? amt - Py.fmin a amt)%float = true.
Proof.
  intros Ha Hf H0. unfold Py.fmin. destruct (amt <? a)%float eqn:H.
  - rewrite F64.sub_self by exact Hf. split; reflexivity.
  - destruct (le_finite a amt Ha Hf H) as [_ Le]. apply sub_le_fin; assumption.
Qed.



Lemma pay_I6 (amt : float) (s : State) :
  is_finite amt = true -> (0 <=? amt)%float = true -> I6 s -> I6 (apply_payment amt s).
Proof.
  intros Hf H0 (Pf & Pn & Ai & Al & Oc).
  destruct (apply_payment_pr amt s H0 Pf Pn) as (F' & N' & _).
  split; [exact F'|]. split; [exact N'|]. unfold apply_payment. cbn.
  destruct (amt_step _ _ Ai Hf H0) as [F1 N1].
  split; [apply a_step; assumption|]. split; [apply a_step; assumption|]. exact Oc.
Qed.

Lemma mono_refl (s : State) : I6 s -> Mono s s.
Proof. intros (_ & _ & Ai & Al & _). split; apply leb_refl_nn; assumption. Qed.

Lemma mono_trans (s1 s2 s3 : State) : I6 s1 -> I6 s2 -> I6 s3 -> Mono s1 s2 -> Mono s2 s3 -> Mono s1 s3.
Proof.
  intros (_ & _ & A1 & L1 & _) (_ & _ & A2 & L2 & _) (_ & _ & A3 & L3 & _) [M1 M2] [M3 M4].
  split; [apply (leb_trans_nn _ _ _ A1 A2 A3 M1 M3) | apply (leb_trans_nn _ _ _ L1 L2 L3 M2 M4)].
Qed.

Lemma pos_of_eps (x : float) : (eps <? x)%float = true -> (0 <? x)%float = true.
Proof. intros H. apply (pos_of_leb eps); [reflexivity | apply F64.ltb_leb, H]. Qed.

Section Steps.
Variables (wr lr : float).
Hypotheses (Hwf : is_finite wr = true) (Hw0 : (0 <=? wr)%float = true).
Hypotheses (Hlf : is_finite lr = true) (Hl0 : (0 <=? lr)%float = true).

Ltac fields := cbn [principal_rem accrued_interest accrued_late pre_charged_weeks over_charged_weeks].

Lemma pre_step_I6 (s : State) : I6 s -> I6 (pre_step wr s) /\ Mono s (pre_step wr s).
Proof.
  intros Hs. pose proof Hs as (Pf & Pn & Ai & Al & Oc). unfold pre_step. cbv zeta. fields.
  unfold I6, Mono. destruct (eps <? principal_rem s)%float eqn:E; fields.
  - assert (M : (0 <=? principal_rem s * wr)%float = true) by (apply mul_nn; auto).
    split; [repeat split; try assumption; apply F64.add_nonneg; assumption|].
    split; [apply leb_add_self; assumption | apply leb_refl_nn, Al].
  - split; [repeat split; assumption | split; apply leb_refl_nn; assumption].
Qed.

Lemma over_step_I6 (s : State) :
  over_charged_weeks s + 1 <= 2 ^ 53 -> I6 s -> I6 (over_step wr lr s) /\ Mono s (over_step wr lr s).
Proof.
  intros Hk Hs. pose proof Hs as (Pf & Pn & Ai & Al & Oc). unfold over_step. cbv zeta. fields.
  unfold I6, Mono. destruct (eps <? principal_rem s)%float eqn:E; fields.
  - destruct (float_of_Z_small (over_charged_weeks s + 1) ltac:(lia)) as [Kf Kn].
    assert (M1 : (0 <=? principal_rem s * wr)%float = true) by (apply mul_nn; auto).
    assert (M2 : (0 <=? Py.float_of_Z (over_charged_weeks s + 1) * lr)%float = true)
      by (apply mul_nn; auto).
    assert (M3 : (0 <=? principal_rem s * (Py.float_of_Z (over_charged_weeks s + 1) * lr))%float = true)
      by (apply mul_nn; auto using pos_of_eps).
    split; [repeat split; try assumption; try (apply F64.add_nonneg; assumption); lia|].
    split; apply leb_add_self; assumption.
  - split; [repeat split; try assumption; lia | split; apply leb_refl_nn; assumption].
Qed.

Lemma pre_loop_I6 (T : Z) (n : nat) (s : State) :
  I6 s -> I6 (pre_loop wr n T s) /\ Mono s (pre_loop wr n T s).
Proof.
  revert s. induction n as [|n IH]; intros s Hs; cbn [pre_loop]; [split; [exact Hs | apply mono_refl, Hs]|].
  destruct (pre_charged_weeks s <? T); [|split; [exact Hs | apply mono_refl, Hs]].
  destruct (pre_step_I6 s Hs) as [H1 M1]. destruct (IH _ H1) as [H2 M2].
  split; [exact H2 | apply (mono_trans _ _ _ Hs H1 H2 M1 M2)].
Qed.

Lemma over_loop_I6 (T : Z) (n : nat) (s : State) :
  T <= 2 ^ 53 -> I6 s -> I6 (over_loop wr lr n T s) /\ Mono s (over_loop wr lr n T s).
Proof.
  intros HT. revert s. induction n as [|n IH]; intros s Hs; cbn [over_loop];
    [split; [exact Hs | apply mono_refl, Hs]|].
  destruct (over_charged_weeks s <? T) eqn:E; [|split; [exact Hs | apply mono_refl, Hs]].
  apply Z.ltb_lt in E.
  destruct (over_step_I6 s ltac:(lia) Hs) as [H1 M1]. destruct (IH _ H1) as [H2 M2].
  split; [exact H2 | apply (mono_trans _ _ _ Hs H1 H2 M1 M2)].
Qed.

Lemma process_I6 (d due tw t : Z) (s : State) :
  t - due <= 2 ^ 53 -> I6 s ->
  I6 (process_accrual_until d due tw wr lr t s) /\ Mono s (process_accrual_until d due tw wr lr t s).
Proof.
  intros Ht Hs. unfold process_accrual_until. cbv zeta.
  match goal with |- context [pre_loop wr ?n ?T s] =>
    destruct (pre_loop_I6 T n s Hs) as [H1 M1]; set (s1 := pre_loop wr n T s) in * end.
  destruct (due <? t); [|split; assumption].
  assert (CW : ceil_weeks (t - due) <= 2 ^ 53).
  { unfold ceil_weeks. destruct (t - due <=? 0) eqn:E; [lia|].
    apply Z.leb_gt in E. apply Z.div_le_upper_bound; lia. }
  match goal with |- context [over_loop wr lr ?n ?T s1] =>
    destruct (over_loop_I6 T n s1 CW H1) as [H2 M2] end.
  split; [exact H2 | apply (mono_trans _ _ _ Hs H1 H2 M1 M2)].
Qed.
End Steps.

Lemma walk_settled (d due tw : Z) (wr lr : float) (fuel : nat) :
  forall l s s', walk d due tw wr lr fuel l s = (s', true) -> is_settled s' = true.
Proof.
  induction fuel as [|fuel IH]; intros l s s' W; cbn [walk] in W; [discriminate|].
  destruct l as [|q l']; [discriminate|].
  destruct (apply_day _ _ _) as [rest s2].
  destruct (is_settled s2) eqn:S; [injection W as <-; exact S | apply (IH _ _ _ W)].
Qed.


(** ** The payments up to a later date extend those up to an earlier one *)

Lemma filter_insert_late (t : Z) (p : Payment) (l : list Payment) :
  t < paid_on p ->
  filter (fun q => paid_on q <=? t) (insert_sorted p l) = filter (fun q => paid_on q <=? t) l.
Proof.
  intros Hp. induction l as [|q l IH]; cbn [insert_sorted].
  - cbn. rewrite (proj2 (Z.leb_gt _ _) Hp). reflexivity.
  - destruct (key_lt p q); cbn [filter].
    + rewrite (proj2 (Z.leb_gt _ _) Hp). reflexivity.
    + rewrite IH. reflexivity.
Qed.

Lemma filter_late_nil (t : Z) (l : list Payment) :
  Forall (fun q => t < paid_on q) l -> filter (fun q => paid_on q <=? t) l = [].
Proof.
  induction 1 as [|q l Hq _ IH]; cbn; [reflexivity|].
  rewrite (proj2 (Z.leb_gt _ _) Hq). exact IH.
Qed.

Lemma filter_late_all (t : Z) (l : list Payment) :
  Forall (fun q => t < paid_on q) l -> filter (fun q => negb (paid_on q <=? t)) l = l.
Proof.
  induction 1 as [|q l Hq _ IH]; cbn; [reflexivity|].
  rewrite (proj2 (Z.leb_gt _ _) Hq). cbn. rewrite IH. reflexivity.
Qed.

Lemma filter_insert_early (t : Z) (p : Payment) (l : list Payment) :
  paid_on p <= t -> StronglySorted date_le l ->
  filter (fun q => paid_on q <=? t) (insert_sorted p l) =
  insert_sorted p (filter (fun q => paid_on q <=? t) l).
Proof.
  intros Hp. induction l as [|q l IH]; intros Hs; cbn [insert_sorted].
  - cbn. rewrite (proj2 (Z.leb_le _ _) Hp). reflexivity.
  - apply StronglySorted_inv in Hs as [Hs Hq].
    destruct (key_lt p q) eqn:K.
    + cbn [filter]. rewrite (proj2 (Z.leb_le _ _) Hp).
      destruct (paid_on q <=? t) eqn:Eq.
      * cbn [insert_sorted]. rewrite K. reflexivity.
      * apply Z.leb_gt in Eq. rewrite filter_late_nil; [reflexivity|].
        rewrite Forall_forall in Hq |- *. intros x Hx. specialize (Hq x Hx).
        unfold date_le in Hq. lia.
    + assert (paid_on q <= paid_on p).
      { unfold key_lt in K. apply orb_false_elim in K as [K _]. apply Z.ltb_ge in K. lia. }
      cbn [filter]. rewrite (proj2 (Z.leb_le (paid_on q) t)) by lia.
      cbn [insert_sorted]. rewrite K, IH by exact Hs. reflexivity.
Qed.

Lemma filter_fold_insert (t : Z) (l acc : list Payment) :
  StronglySorted date_le acc ->
  filter (fun q => paid_on q <=? t) (fold_left (fun acc p => insert_sorted p acc) l acc) =
  fold_left (fun acc p => insert_sorted p acc) (filter (fun q => paid_on q <=? t) l)
            (filter (fun q => paid_on q <=? t) acc).
Proof.
  revert acc. induction l as [|p l IH]; intros acc Hs; cbn [fold_left filter]; [reflexivity|].
  rewrite IH by (apply insert_sorted_sorted, Hs).
  destruct (paid_on p <=? t) eqn:E; cbn [fold_left].
  - apply Z.leb_le in E. rewrite filter_insert_early by assumption. reflexivity.
  - apply Z.leb_gt in E. rewrite filter_insert_late by exact E. reflexivity.
Qed.

Lemma filter_sorted_split (t : Z) (l : list Payment) :
  StronglySorted date_le l ->
  l = filter (fun q => paid_on q <=? t) l ++ filter (fun q => negb (paid_on q <=? t)) l.
Proof.
  induction 1 as [|q l Hs IH Hq]; [reflexivity|]. cbn [filter].
  destruct (paid_on q <=? t) eqn:E; cbn [negb app].
  - rewrite IH at 1. reflexivity.
  - apply Z.leb_gt in E.
    assert (F : Forall (fun x => t < paid_on x) l).
    { rewrite Forall_forall in Hq |- *. intros x Hx. specialize (Hq x Hx). unfold date_le in Hq. lia. }
    rewrite (filter_late_nil _ _ F), (filter_late_all _ _ F). reflexivity.
Qed.

(** The payments up to [as_of2] are those up to [as_of1], then the later ones. *)
Lemma normalize_split (as_of1 as_of2 : Z) (l : list Payment) :
  as_of1 <= as_of2 ->
  exists R, normalize_payments as_of2 l = normalize_payments as_of1 l ++ R /\
    Forall (fun q => as_of1 < paid_on q) R.
Proof.
  intros H12. exists (filter (fun q => negb (paid_on q <=? as_of1)) (normalize_payments as_of2 l)).
  split.
  - rewrite (filter_sorted_split as_of1 _ (normalize_sorted as_of2 l)) at 1. f_equal.
    unfold normalize_payments, sort_payments.
    rewrite filter_fold_insert by constructor. cbn [filter]. f_equal.
    induction l as [|q l IH]; cbn [filter]; [reflexivity|].
    destruct (paid_on q <=? as_of1) eqn:E1.
    + rewrite (proj2 (Z.leb_le (paid_on q) as_of2)) by (apply Z.leb_le in E1; lia).
      cbn [filter]. rewrite E1, IH. reflexivity.
    + destruct (paid_on q <=? as_of2); cbn [filter]; rewrite ?E1; exact IH.
  - apply Forall_forall. intros x Hx. apply filter_In in Hx as [_ Hx].
    apply negb_true_iff, Z.leb_gt in Hx. exact Hx.
Qed.

Lemma apply_day_app (pdate : Z) (L R : list Payment) (s : State) :
  Forall (fun q => paid_on q <> pdate) R ->
  apply_day pdate (L ++ R) s = (fst (apply_day pdate L s) ++ R, snd (apply_day pdate L s)).
Proof.
  intros HR. revert s. induction L as [|p L IH]; intros s; cbn [app apply_day].
  - destruct R as [|q R]; [reflexivity|]. cbn [apply_day].
    apply Forall_cons_iff in HR as [Hq _]. rewrite (proj2 (Z.eqb_neq _ _) Hq). reflexivity.
  - destruct (paid_on p =? pdate); [apply IH | reflexivity].
Qed.

(** A walk that settles the loan is not changed by later-dated payments. *)
Lemma walk_app_settled (d due tw : Z) (wr lr : float) (t : Z) (fuel : nat) :
  forall (fuel' : nat) (L R : list Payment) (s s' : State),
  (fuel <= fuel')%nat ->
  Forall (fun q => paid_on q <= t) L -> Forall (fun q => t < paid_on q) R ->
  walk d due tw wr lr fuel L s = (s', true) ->
  walk d due tw wr lr fuel' (L ++ R) s = (s', true).
Proof.
  induction fuel as [|fuel IH]; intros fuel' L R s s' Hf HL HR W; cbn [walk] in W; [discriminate|].
  destruct L as [|q L']; [discriminate|].
  destruct fuel' as [|fuel']; [lia|].
  assert (Hq : paid_on q <= t) by (apply Forall_cons_iff in HL as [H _]; exact H).
  cbn [walk app]. change (q :: L' ++ R) with ((q :: L') ++ R).
  rewrite apply_day_app.
  2:{ rewrite Forall_forall in HR |- *. intros x Hx. specialize (HR x Hx). lia. }
  destruct (apply_day_split (paid_on q) (q :: L')
              (process_accrual_until d due tw wr lr (paid_on q) s)) as (run & E & _ & _).
  destruct (apply_day (paid_on q) (q :: L') _) as [rest s2]. cbn [fst snd] in E |- *.
  destruct (is_settled s2); [exact W|].
  apply IH; [lia | | exact HR | exact W].
  rewrite E in HL. apply Forall_app in HL as [_ HL]. exact HL.
Qed.

(** Claim C6 (amended). With the loan terms and payment list fixed
    (finite principal and rates [>= 0], finite payment amounts [>= 0], dates
    in the range of [datetime.date], due date not before the disbursement),
    and two evaluation dates [as_of1 <= as_of2]: when no payment is dated
    in [(as_of1, as_of2]], [accrued_interest_fees] at [as_of2] is at least
    its value at [as_of1]; and once the walk over the payments up to
    [as_of1] has settled the loan, it is 0 at [as_of1] and at [as_of2],
    whatever payments are dated in between. *)
Theorem C6_monotone_between_payments (principal : float) (disbursed_on as_of1 as_of2 : Z)
    (payments : list Payment) (weekly_interest_rate late_step_rate : float)
    (term_weeks agreed_due_on : option Z) :
  is_finite principal = true -> (0 <=? principal)%float = true ->
  is_finite weekly_interest_rate = true -> (0 <=? weekly_interest_rate)%float = true ->
  is_finite late_step_rate = true -> (0 <=? late_step_rate)%float = true ->
  Forall (fun q => is_finite (amount q) = true /\ (0 <=? amount q)%float = true) payments ->
  (forall dd, agreed_due_on = Some dd -> disbursed_on <= dd) ->
  (forall w, term_weeks = Some w -> 0 <= w) ->
  1 <= disbursed_on -> as_of2 <= 3652059 -> as_of1 <= as_of2 ->
  let r1 := amount_due_with_payments principal disbursed_on as_of1 payments
              weekly_interest_rate late_step_rate term_weeks agreed_due_on in
  let r2 := amount_due_with_payments principal disbursed_on as_of2 payments
              weekly_interest_rate late_step_rate term_weeks agreed_due_on in
  ((forall q, In q payments -> paid_on q <= as_of1 \/ as_of2 < paid_on q) ->
   (accrued_interest_fees r1 <=? accrued_interest_fees r2)%float = true) /\
  (settled_flag principal disbursed_on as_of1 payments weekly_interest_rate late_step_rate
     term_weeks agreed_due_on = true ->
   accrued_interest_fees r1 = 0%float /\ accrued_interest_fees r2 = 0%float).
Proof.
  intros Hf H0 Hwf Hw0 Hlf Hl0 Hamt Hdue Htw Hd1 Hmax H12 r1 r2. subst r1 r2.
  unfold amount_due_with_payments, settled_flag.
  pose proof (resolve_terms_due_ge disbursed_on term_weeks agreed_due_on Hdue Htw) as Hdd.
  destruct (resolve_terms disbursed_on term_weeks agreed_due_on) as [tw due]. cbn [snd] in Hdd.
  split.
  - intros Hgap.
    assert (NE : normalize_payments as_of1 payments = normalize_payments as_of2 payments).
    { unfold normalize_payments. f_equal. apply filter_ext_in. intros q Hq.
      destruct (Hgap q Hq) as [H|H];
        [rewrite !(proj2 (Z.leb_le _ _)) by lia | rewrite !(proj2 (Z.leb_gt _ _)) by lia];
        reflexivity. }
    rewrite NE.
    set (L := normalize_payments as_of2 payments).
    assert (Hproc : forall t s, t <= as_of2 -> I6 s ->
              I6 (process_accrual_until disbursed_on due tw weekly_interest_rate late_step_rate t s)).
    { intros t s Ht Hs. apply (process_I6 _ _ Hwf Hw0 Hlf Hl0); [lia | exact Hs]. }
    assert (Hpay : forall p s, (is_finite (amount p) = true /\ (0 <=? amount p)%float = true) ->
              I6 s -> I6 (apply_payment (amount p) s)).
    { intros p s [Hp1 Hp2] Hs. apply pay_I6; assumption. }
    assert (HL : Forall (fun p => (is_finite (amount p) = true /\ (0 <=? amount p)%float = true) /\
                                  paid_on p <= as_of2) L).
    { apply Forall_forall. intros x Hx. apply in_normalize in Hx as [Hx Hd].
      rewrite Forall_forall in Hamt. split; [apply Hamt, Hx | exact Hd]. }
    assert (Hi : I6 (init_state principal)) by (unfold I6, init_state; cbn; repeat split; try assumption; lia).
    pose proof (walk_inv disbursed_on due tw weekly_interest_rate late_step_rate as_of2
                  _ I6 Hproc Hpay (length L) L (init_state principal) HL Hi) as W.
    destruct (walk _ _ _ _ _ _ _ _) as [s b] eqn:Ew. cbn [fst snd] in W |- *.
    destruct b; [apply leb_refl_nn, F64.round2_nonneg, F64.fmax_zero_nonneg|].
    rewrite <- (process_comp disbursed_on due tw weekly_interest_rate late_step_rate as_of1 as_of2 s H12).
    destruct (process_I6 _ _ Hwf Hw0 Hlf Hl0 disbursed_on due tw as_of1 s ltac:(lia) W) as [H1 _].
    destruct (process_I6 _ _ Hwf Hw0 Hlf Hl0 disbursed_on due tw as_of2 _ ltac:(lia) H1) as [_ [M1 M2]].
    destruct H1 as (_ & _ & A1 & L1 & _).
    apply round2_mono; [apply F64.fmax_zero_nonneg|]. apply fmax0_mono.
    apply add_mono_nn; assumption.
  - intros Hset.
    destruct (normalize_split as_of1 as_of2 payments H12) as (R & E & HR).
    rewrite E. set (L1 := normalize_payments as_of1 payments) in *.
    destruct (walk disbursed_on due tw weekly_interest_rate late_step_rate (length L1) L1
                (init_state principal)) as [s b] eqn:Ew.
    cbn [snd] in Hset. subst b.
    rewrite (walk_app_settled disbursed_on due tw weekly_interest_rate late_step_rate as_of1
               (length L1) (length (L1 ++ R)) L1 R _ s) by
      (try (rewrite length_app; lia); try exact HR; try exact Ew;
       apply Forall_forall; intros x Hx; apply in_normalize in Hx as [_ Hx]; exact Hx).
    pose proof (walk_settled _ _ _ _ _ _ _ _ _ Ew) as S.
    unfold is_settled in S. apply andb_prop in S as [_ S].
    rewrite (round2_fmax_small _ S). split; reflexivity.
Qed.

Lemma C2_principal_bounded_witness :
  (is_finite 100000 = true /\ (0 <=? 100000)%float = true /\
   Forall (fun p => (0 <=? amount p)%float = true) [mkPayment 110000 d_2024_01_08]) /\
  let r := amount_due_with_payments 100000 d_2024_01_01 d_2024_01_22
             [mkPayment 110000 d_2024_01_08]
             default_weekly_interest_rate default_late_step_rate None (Some d_2024_01_08) in
  (principal_receivable r <=? Py.round2 100000)%float = true /\
  (0 <=? principal_receivable r)%float = true /\
  (0 <=? accrued_interest_fees r)%float = true /\
  (0 <=? outstanding r)%float = true.
Proof.
  split.
  - split; [reflexivity|]. split; [reflexivity|]. repeat constructor.
  - apply C2_principal_bounded; [reflexivity | reflexivity | repeat constructor].
Defined.

Lemma C6_monotone_between_payments_witness :
  (1 <= d_2024_01_01 /\ d_2024_01_22 <= 3652059 /\ d_2024_01_08 <= d_2024_01_22 /\
   (forall dd, Some d_2024_01_08 = Some dd -> d_2024_01_01 <= dd)) /\
  let r1 := amount_due_with_payments 200000 d_2024_01_01 d_2024_01_08 []
              default_weekly_interest_rate default_late_step_rate None (Some d_2024_01_08) in
  let r2 := amount_due_with_payments 200000 d_2024_01_01 d_2024_01_22 []
              default_weekly_interest_rate default_late_step_rate None (Some d_2024_01_08) in
  ((forall q, In q [] -> paid_on q <= d_2024_01_08 \/ d_2024_01_22 < paid_on q) ->
   (accrued_interest_fees r1 <=? accrued_interest_fees r2)%float = true) /\
  (settled_flag 200000 d_2024_01_01 d_2024_01_08 [] default_weekly_interest_rate
     default_late_step_rate None (Some d_2024_01_08) = true ->
   accrued_interest_fees r1 = 0%float /\ accrued_interest_fees r2 = 0%float).
Proof.
  split.
  - unfold d_2024_01_01, d_2024_01_08, d_2024_01_22.
    split; [lia|]. split; [lia|]. split; [lia|].
    intros dd H. injection H as <-. lia.
  - apply C6_monotone_between_payments;
      [reflexivity | reflexivity | reflexivity | reflexivity | reflexivity | reflexivity
      | constructor
      | intros dd H; injection H as <-; unfold d_2024_01_01, d_2024_01_08; lia
      | discriminate
      | unfold d_2024_01_01; lia
      | unfold d_2024_01_22; lia
      | unfold d_2024_01_08, d_2024_01_22; lia].
Defined.

Lemma C10_pre_disbursement_payment_witness :
  (paid_on (mkPayment 300 (d_2024_01_01 - 1)) < d_2024_01_01 /\
   paid_on (mkPayment 300 (d_2024_01_01 - 1)) <= d_2024_01_08 /\
   Forall (fun q => (amount q <? 0)%float = false) [mkPayment 300 (d_2024_01_01 - 1)]) /\
  walk d_2024_01_01 d_2024_01_08 1 default_weekly_interest_rate default_late_step_rate 1
    [mkPayment 300 (d_2024_01_01 - 1)] (init_state 1000) =
  (let '(rest, s2) := pay_day_to_principal (d_2024_01_01 - 1)
                        [mkPayment 300 (d_2024_01_01 - 1)] (init_state 1000) in
   if is_settled s2 then (s2, true)
   else walk d_2024_01_01 d_2024_01_08 1 default_weekly_interest_rate default_late_step_rate 0
          rest s2) /\
  (paid_on (mkPayment 100 (d_2024_01_01 - 1)) < d_2024_01_01 /\
   paid_on (mkPayment 100 (d_2024_01_01 - 1)) <= d_2024_01_22 /\
   (100 <=? amount (mkPayment 100 (d_2024_01_01 - 1)))%float = true) /\
  let r := amount_due_with_payments 100 d_2024_01_01 d_2024_01_22
             [mkPayment 100 (d_2024_01_01 - 1)]
             default_weekly_interest_rate default_late_step_rate None (Some d_2024_01_08) in
  outstanding r = 0%float /\ principal_receivable r = 0%float /\
  accrued_interest_fees r = 0%float /\ interest r = 0%float /\ late_incremental r = 0%float.
Proof.
  destruct C10_pre_disbursement_payment as [A B].
  split; [|split; [|split]].
  - cbn [paid_on amount]. unfold d_2024_01_01, d_2024_01_08.
    split; [lia|]. split; [lia|]. repeat constructor.
  - apply A; cbn [paid_on init_state accrued_interest accrued_late pre_charged_weeks];
      [unfold d_2024_01_01; lia | unfold d_2024_01_01, d_2024_01_08; lia
      | reflexivity | reflexivity | lia | repeat constructor].
  - cbn [paid_on amount]. unfold d_2024_01_01, d_2024_01_22.
    split; [lia|]. split; [lia|]. reflexivity.
  - apply (B _ _ _ _ _ _ _ _ (mkPayment 100 (d_2024_01_01 - 1)));
      [left; reflexivity
      | cbn [paid_on]; lia
      | cbn [paid_on]; unfold d_2024_01_01, d_2024_01_22; lia
      | repeat constructor
      | reflexivity | reflexivity | reflexivity
      | intros dd H; injection H as <-; unfold d_2024_01_01, d_2024_01_08; lia
      | discriminate].
Defined.

(** ** Week counting *)

Lemma ceil_weeks_pos_bounds (days : Z) :
  0 < days -> 1 <= ceil_weeks days /\ 7 * (ceil_weeks days - 1) < days <= 7 * ceil_weeks days.
Proof.
  intros H. unfold ceil_weeks. rewrite (proj2 (Z.leb_gt _ _) H).
  pose proof (Z.div_mod (days + 6) 7 ltac:(lia)).
  pose proof (Z.mod_pos_bound (days + 6) 7 ltac:(lia)). lia.
Qed.

Lemma ceil_weeks_nonpos (days : Z) : days <= 0 -> ceil_weeks days = 0.
Proof. intros H. unfold ceil_weeks. rewrite (proj2 (Z.leb_le _ _) H). reflexivity. Qed.

Lemma overdue_weeks_mono (a1 a2 : Z) (due_on : option Z) (d : Z) :
  a1 <= a2 -> overdue_weeks a1 due_on d <= overdue_weeks a2 due_on d.
Proof.
  intros H. destruct due_on as [due|]; cbn; [|lia].
  destruct (Z.leb_spec a1 due), (Z.leb_spec a2 due); try lia.
  - pose proof (ceil_weeks_pos_bounds (a2 - due) ltac:(lia)). lia.
  - apply ceil_weeks_mono. lia.
Qed.

Lemma aging_rank_mono (a b : Z) :
  a <= b -> (bucket_rank (aging_bucket a) <= bucket_rank (aging_bucket b))%nat.
Proof.
  intros H. unfold aging_bucket.
  destruct (Z.leb_spec a 0), (Z.leb_spec b 0); cbn [bucket_rank]; try lia;
  destruct (Z.leb_spec 1 a), (Z.leb_spec a 2), (Z.leb_spec 1 b), (Z.leb_spec b 2);
    cbn [andb bucket_rank]; try lia;
  destruct (Z.leb_spec 3 a), (Z.leb_spec a 4), (Z.leb_spec 3 b), (Z.leb_spec b 4);
    cbn [andb bucket_rank]; lia.
Qed.

(** ** Payments *)

Lemma insert_sorted_perm (p : Payment) (l : list Payment) :
  Permutation (insert_sorted p l) (p :: l).
Proof.
  induction l as [|q l IH]; cbn [insert_sorted]; [reflexivity|].
  destruct (key_lt p q); [reflexivity|].
  etransitivity; [apply perm_skip, IH | apply perm_swap].
Qed.

Lemma fold_insert_perm (l acc : list Payment) :
  Permutation (fold_left (fun acc p => insert_sorted p acc) l acc) (l ++ acc).
Proof.
  revert acc. induction l as [|p l IH]; intros acc; cbn [fold_left app]; [reflexivity|].
  rewrite IH, insert_sorted_perm. symmetry. apply Permutation_middle.
Qed.

Lemma fmin_nan (a b : float) : Prim2SF b = S754_nan -> Py.fmin a b = a.
Proof.
  intros H. unfold Py.fmin.
  replace (b <? a)%float with false; [reflexivity|].
  rewrite ltb_spec, H. destruct (Prim2SF a) as [[]|[]| |[] m e]; reflexivity.
Qed.

Lemma sub_nan (a b : float) : Prim2SF b = S754_nan -> Prim2SF (b - a)%float = S754_nan.
Proof.
  intros H. rewrite sub_spec, H. destruct (Prim2SF a) as [[]|[]| |[] m e]; reflexivity.
Qed.

Lemma pay_late_zero (amt : float) (s : State) :
  (amt <? 0)%float = false -> accrued_late s = 0%float ->
  accrued_late (apply_payment amt s) = 0%float.
Proof.
  intros Ha Hl. unfold apply_payment. cbv zeta. cbn [accrued_late]. rewrite Hl.
  pose proof (sub_fmin_not_neg (accrued_interest s) amt Ha) as N.
  set (x := (amt - Py.fmin (accrued_interest s) amt)%float) in *.
  unfold Py.fmin at 1. rewrite N. reflexivity.
Qed.

(** ** Accrual *)

Lemma pre_loop_late (wr : float) (n : nat) (T : Z) (s : State) :
  accrued_late (pre_loop wr n T s) = accrued_late s.
Proof.
  revert s. induction n as [|n IH]; intros s; cbn [pre_loop]; [reflexivity|].
  destruct (pre_charged_weeks s <? T); [|reflexivity].
  rewrite IH. unfold pre_step. cbv zeta.
  destruct (eps <? _)%float; reflexivity.
Qed.

Lemma process_late_before (d due tw : Z) (wr lr : float) (t : Z) (s : State) :
  t <= due -> accrued_late (process_accrual_until d due tw wr lr t s) = accrued_late s.
Proof.
  intros H. unfold process_accrual_until. cbv zeta.
  rewrite (proj2 (Z.ltb_ge due t) H). exact (pre_loop_late _ _ _ _).
Qed.

(** [float(k)] is positive for [1 <= k <= 2^53]. *)
Lemma float_of_Z_pos (k : Z) : 1 <= k <= 2 ^ 53 -> (0 <? Py.float_of_Z k)%float = true.
Proof.
  intros Hk.
  destruct (binary_normalize_rep k 0) as (m1 & e1 & E1 & R1); [lia|].
  destruct (binary_normalize_rep 1 0) as (m2 & e2 & E2 & R2); [lia|].
  assert (L : SFleb (binary_round_aux prec emax false m2 e2 loc_Exact)
                    (binary_round_aux prec emax false m1 e1 loc_Exact) = true).
  { apply (BRA_mono _ _ _ _ _ _ _ _ R2 R1). apply Qmult_le_compat_r.
    - rewrite <- Zle_Qle. lia.
    - apply Qlt_le_weak, pw_pos. }
  pose proof (BRA_valid _ _ _ _ R1) as V1.
  rewrite <- E1, <- E2 in L. rewrite <- E1 in V1.
  assert (B : binary_normalize prec emax 1 0 false = S754_finite false 4503599627370496 (-52))
    by (vm_compute; reflexivity).
  rewrite B in L.
  unfold Py.float_of_Z. rewrite ltb_spec, Prim2SF_SF2Prim by exact V1. rewrite F64.Prim2SF_zero.
  revert L. destruct (binary_normalize prec emax k 0 false) as [[]|[]| |[] m e];
    intros L; try discriminate L; reflexivity.
Qed.

(** ** [_ceil_weeks] in floats *)

Lemma new_location_7 (r : Z) : 0 <= r < 7 ->
  new_location 7 r = if r =? 0 then loc_Exact else loc_Inexact (Z.compare (2 * r) 7).
Proof.
  intros H. assert (r = 0 \/ r = 1 \/ r = 2 \/ r = 3 \/ r = 4 \/ r = 5 \/ r = 6) as C by lia.
  repeat destruct C as [->|C]; try reflexivity. subst. reflexivity.
Qed.

Lemma div7_rnd (k : positive) :
  rnd (inject_Z (Zpos k) / 7) (SFdiv prec emax (S754_finite false k 0) (S754_finite false 7 0)).
Proof.
  cbn [SFdiv]. unfold SFdiv_core_binary. cbv zeta.
  change (Zdigits2 7) with 3.
  pose proof (Zdigits2_bounds (Zpos k) ltac:(lia)) as [D1 D2].
  pose proof (Zdigits2_pos (Zpos k) ltac:(lia)) as D0.
  set (d1 := Zdigits2 (Zpos k)) in *.
  set (E := Z.min (fexp prec emax (d1 + 0 - (3 + 0))) (0 - 0)).
  assert (HE : E = Z.min (d1 - 56) 0) by (unfold E; rewrite fexp_eq; lia).
  clearbody E.
  assert (Hm : match 0 - 0 - E with
               | 0 => Z.pos k | Z.pos _ => Z.shiftl (Z.pos k) (0 - 0 - E) | Z.neg _ => 0 end
               = Zpos k * 2 ^ (- E)).
  { replace (0 - 0 - E) with (- E) by lia.
    destruct (- E) as [|p|p] eqn:Ep.
    - cbn. lia.
    - apply Z.shiftl_mul_pow2. lia.
    - lia. }
  rewrite Hm. clear Hm.
  set (m' := Zpos k * 2 ^ (- E)).
  assert (HP : 0 < 2 ^ (- E)) by (apply Z.pow_pos_nonneg; lia).
  assert (Hm59 : 2 ^ (d1 - 1 - E) <= m').
  { unfold m'. replace (d1 - 1 - E) with ((d1 - 1) + (- E)) by lia.
    rewrite Z.pow_add_r by lia. apply Z.mul_le_mono_nonneg_r; lia. }
  pose proof (Z_div_mod m' 7 ltac:(lia)) as DM.
  destruct (Z.div_eucl m' 7) as [q r]. destruct DM as [Dq Dr].
  change (xorb false false) with false.
  right. exists q, E, (new_location 7 r). split; [|reflexivity].
  assert (HA : 2 ^ (d1 - 4 - E) <= q).
  { assert (2 ^ (d1 - 1 - E) = 8 * 2 ^ (d1 - 4 - E)).
    { replace (d1 - 1 - E) with (3 + (d1 - 4 - E)) by lia. rewrite Z.pow_add_r by lia. reflexivity. }
    assert (1 <= 2 ^ (d1 - 4 - E)) by (apply (Z.pow_le_mono_r 2 0); lia).
    lia. }
  assert (Hq : 1 <= q).
  { assert (1 <= 2 ^ (d1 - 4 - E)) by (apply (Z.pow_le_mono_r 2 0); lia). lia. }
  assert (Hx : (inject_Z (Zpos k) / 7 == inject_Z m' / 7 * pw E)%Q).
  { unfold m'. rewrite inject_Z_mult, <- pw_Z by lia.
    assert (H1 : (pw (- E) * pw E == 1)%Q)
      by (rewrite <- pw_add; replace (- E + E) with 0 by lia; reflexivity).
    transitivity (inject_Z (Zpos k) * (pw (- E) * pw E) / 7)%Q; [rewrite H1; field | field]. }
  split; [exact Hq|]. split.
  - apply (loc_ok_morph (inject_Z m' / 7 * pw E)); [symmetry; exact Hx|].
    pose proof (pw_pos E) as P.
    rewrite Dq, inject_Z_plus, inject_Z_mult.
    rewrite new_location_7 by lia.
    destruct (Z.eqb_spec r 0) as [->|Hr].
    + cbn [loc_ok]. change (inject_Z 7) with 7%Q. change (inject_Z 0) with 0%Q. field.
    + cbn [loc_ok].
      assert (Hr' : (0 < inject_Z r < 7)%Q).
      { change 0%Q with (inject_Z 0). change 7%Q with (inject_Z 7).
        rewrite <- !Zlt_Qlt. lia. }
      change (inject_Z 7) with 7%Q.
      split; [split|].
      * apply Qmult_lt_r; [exact P|].
        apply (Qmult_lt_r _ _ 7); [reflexivity|]. field_simplify; [|discriminate ..]. nra.
      * apply Qmult_lt_r; [exact P|].
        apply (Qmult_lt_r _ _ 7); [reflexivity|]. field_simplify; [|discriminate ..]. nra.
      * destruct (Z.compare_spec (2 * r) 7) as [C|C|C].
        -- lia.
        -- apply (proj1 (Qlt_alt _ _)).
           assert (2 * inject_Z r < 7)%Q.
           { change 7%Q with (inject_Z 7). change 2%Q with (inject_Z 2).
             rewrite <- inject_Z_mult, <- Zlt_Qlt. lia. }
           assert (0 < pw E * (7 - 2 * inject_Z r))%Q by (apply Qmult_lt_0_compat; lra).
           setoid_replace (2 * ((7 * inject_Z q + inject_Z r) / 7 * pw E))%Q
             with ((2 * inject_Z q) * pw E + (2 * inject_Z r * pw E) * (1#7))%Q by field.
           lra.
        -- apply (proj1 (Qgt_alt _ _)).
           assert (7 < 2 * inject_Z r)%Q.
           { change 7%Q with (inject_Z 7). change 2%Q with (inject_Z 2).
             rewrite <- inject_Z_mult, <- Zlt_Qlt. lia. }
           assert (0 < pw E * (2 * inject_Z r - 7))%Q by (apply Qmult_lt_0_compat; lra).
           setoid_replace (2 * ((7 * inject_Z q + inject_Z r) / 7 * pw E))%Q
             with ((2 * inject_Z q) * pw E + (2 * inject_Z r * pw E) * (1#7))%Q by field.
           lra.
  - rewrite fexp_eq.
    assert (d1 - 4 - E < Zdigits2 q) by (apply Zdigits2_ge; lia).
    lia.
Qed.

Lemma ceil_finite (M E c : Z) :
  E < 0 -> (inject_Z (c - 1) < inject_Z M * pw E <= inject_Z c)%Q ->
  - (- M / 2 ^ (- E)) = c.
Proof.
  intros HE [H1 H2].
  set (K := 2 ^ (- E)).
  assert (HK : 0 < K) by (apply Z.pow_pos_nonneg; lia).
  assert (KE : forall a, (inject_Z (a * K) * pw E == inject_Z a)%Q).
  { intros a. unfold K. rewrite inject_Z_mult, <- pw_Z by lia.
    rewrite <- Qmult_assoc, <- pw_add. replace (- E + E) with 0 by lia.
    change (pw 0) with 1%Q. ring. }
  pose proof (pw_pos E) as P.
  assert (A1 : (c - 1) * K < M).
  { apply (Zlt_of_Qmult _ _ (pw E) P). rewrite KE. exact H1. }
  assert (A2 : M <= c * K).
  { apply (Zle_of_Qmult _ _ (pw E) P). rewrite KE. exact H2. }
  enough (- M / K = - c) by lia.
  symmetry. apply (Z.div_unique (- M) K (- c) (c * K - M)); [left; nia | ring].
Qed.

Lemma ceil_out_spec (M E c : Z) :
  1 <= M <= 9007199254740992 -> E + 1 < 0 ->
  (inject_Z (c - 1) < inject_Z M * pw E <= inject_Z c)%Q ->
  Py.ceil (out_spec M E) = Some c.
Proof.
  intros HM HE Hb. unfold out_spec.
  rewrite (proj2 (Z.eqb_neq M 0)) by lia.
  destruct (Z.eqb_spec M 9007199254740992) as [->|H53].
  - rewrite (proj2 (Z.leb_le (E + 1) 971)) by lia. cbn [Py.ceil cond_Zopp].
    rewrite (proj2 (Z.leb_gt 0 (E + 1))) by lia. f_equal.
    apply ceil_finite; [lia|].
    setoid_replace (inject_Z 4503599627370496 * pw (E + 1))%Q
      with (inject_Z 9007199254740992 * pw E)%Q; [exact Hb|].
    rewrite pw_succ. change (inject_Z 9007199254740992) with (2 * inject_Z 4503599627370496)%Q. ring.
  - rewrite (proj2 (Z.leb_le E 971)) by lia. cbn [Py.ceil cond_Zopp].
    rewrite (proj2 (Z.leb_gt 0 E)) by lia. f_equal.
    rewrite Z2Pos.id by lia. apply ceil_finite; [lia | exact Hb].
Qed.

Lemma ceil_weeks_float_exact (days : Z) :
  days <= 7 * 2 ^ 49 -> ceil_weeks_float days = Some (ceil_weeks days).
Proof.
  intros Hd. unfold ceil_weeks_float, ceil_weeks.
  destruct (Z.leb_spec days 0) as [D|D]; [reflexivity|].
  unfold Py.int_truediv.
  set (x := (inject_Z (Zpos (Z.to_pos days)) / 7)%Q).
  assert (Hx : (x == inject_Z days / 7)%Q) by (unfold x; rewrite Z2Pos.id by lia; reflexivity).
  pose proof (div7_rnd (Z.to_pos days)) as R. fold x in R.
  destruct R as [[H0 _]|(m & e & l & Rp & ->)].
  { exfalso. assert (H1 : (inject_Z days * (1 # 7) == 0)%Q).
    { rewrite <- H0, Hx. field. }
    assert (0 < inject_Z days)%Q by (change 0%Q with (inject_Z 0); rewrite <- Zlt_Qlt; lia).
    lra. }
  pose proof (rep_mag _ _ _ _ Rp) as [G1 G2].
  destruct (BRA_rep_spec _ _ _ _ Rp) as (M & m' & l' & -> & B & L & Hl & Hm' & HM).
  set (g := Zdigits2 m + e) in *.
  assert (Xlo : (1 # 7 <= x)%Q).
  { rewrite Hx. assert (1 <= inject_Z days)%Q by (change 1%Q with (inject_Z 1); rewrite <- Zle_Qle; lia).
    setoid_replace (inject_Z days / 7)%Q with (inject_Z days * (1 # 7))%Q by field. lra. }
  assert (Xhi : (x <= pw 49)%Q).
  { rewrite Hx, pw_Z by lia.
    assert (inject_Z days <= inject_Z (7 * 2 ^ 49))%Q by (rewrite <- Zle_Qle; exact Hd).
    rewrite inject_Z_mult in H. change (inject_Z 7) with 7%Q in H.
    setoid_replace (inject_Z days / 7)%Q with (inject_Z days * (1 # 7))%Q by field. lra. }
  assert (Gl : -2 <= g).
  { apply (mag_mono (1 # 8) x); [change (pw (-2 - 1)) with (1 # 8); apply Qle_refl | lra | exact G2]. }
  assert (Gh : g <= 50).
  { apply (mag_mono x x); [exact G1 | apply Qle_refl|].
    apply (Qle_lt_trans _ (pw 49)); [exact Xhi|]. rewrite !pw_Z by lia. reflexivity. }
  assert (FE : fexp prec emax g = g - 53) by (rewrite fexp_eq; lia).
  rewrite FE in B, L, Hl |- *.
  replace (g - (g - 53)) with 53 in B by lia.
  replace (g - 1 - (g - 53)) with 52 in L by lia.
  specialize (L ltac:(lia)).
  change (2 ^ 53) with 9007199254740992 in B. change (2 ^ 52) with 4503599627370496 in L.
  set (E := g - 53) in *.
  assert (PE : (pw E <= 1 # 8)%Q) by (change (1 # 8) with (pw (-3)); apply pw_le_mono; lia).
  pose proof (pw_pos E) as P.
  pose proof (loc_ok_bounds _ _ _ _ Hl) as [B1 B2].
  pose proof (rne_bounds m' l') as RB. rewrite <- HM in RB.
  assert (MB1 : (inject_Z m' * pw E <= inject_Z M * pw E)%Q)
    by (apply Qmult_le_compat_r; [rewrite <- Zle_Qle; lia | lra]).
  assert (MB2 : (inject_Z M * pw E <= (inject_Z m' + 1) * pw E)%Q).
  { apply Qmult_le_compat_r; [|lra]. change 1%Q with (inject_Z 1). rewrite <- inject_Z_plus, <- Zle_Qle. lia. }
  set (c := (days + 6) / 7).
  pose proof (Z.div_mod (days + 6) 7 ltac:(lia)) as DM. pose proof (Z.mod_pos_bound (days + 6) 7 ltac:(lia)) as MB.
  fold c in DM.
  set (t := 6 - (days + 6) mod 7).
  assert (Hdt : days = 7 * c - t) by lia.
  assert (Hxc : (x == inject_Z c - inject_Z t / 7)%Q).
  { rewrite Hx, Hdt. unfold Z.sub. rewrite inject_Z_plus, inject_Z_opp, inject_Z_mult. change (inject_Z 7) with 7%Q. field. }
  setoid_replace (inject_Z t / 7)%Q with (inject_Z t * (1 # 7))%Q in Hxc by field.
  apply ceil_out_spec; [lia | lia |].
  unfold Z.sub. rewrite inject_Z_plus, inject_Z_opp. change (inject_Z 1) with 1%Q.
  destruct (Z.eq_dec t 0) as [T0|T0].
  - (* [days] is a multiple of 7: [x = c] is a multiple of [pw E] *)
    rewrite T0 in Hxc. change (inject_Z 0) with 0%Q in Hxc.
    set (K := 2 ^ (- E)).
    assert (KE : (inject_Z (c * K) * pw E == inject_Z c)%Q).
    { unfold K. rewrite inject_Z_mult, <- pw_Z by lia.
      rewrite <- Qmult_assoc, <- pw_add. replace (- E + E) with 0 by lia.
      change (pw 0) with 1%Q. ring. }
    assert (Em : m' = c * K).
    { assert (m' <= c * K) by (apply (Zle_of_Qmult _ _ (pw E) P); rewrite KE; lra).
      assert (c * K < m' + 1).
      { apply (Zlt_of_Qmult _ _ (pw E) P). rewrite KE, inject_Z_plus.
        change (inject_Z 1) with 1%Q. lra. }
      lia. }
    destruct l' as [|cmp].
    + cbn [round_nearest_even] in HM. subst M. rewrite Em, KE. lra.
    + exfalso. destruct Hl as [[Hl _] _]. rewrite Em, KE in Hl. lra.
  - assert (T1 : (1 <= inject_Z t <= 6)%Q).
    { change 1%Q with (inject_Z 1). change 6%Q with (inject_Z 6). rewrite <- !Zle_Qle. lia. }
    lra.
Qed.

(** The exact week count differs from the float one for large [days]. *)
Lemma ceil_weeks_float_coarse : ceil_weeks_float (7 * 2 ^ 52 + 1) = Some (2 ^ 52).
Proof. vm_compute. reflexivity. Qed.

(** * Further properties of the code *)

(** [_ceil_weeks(days)], computed as [ceil(days / 7)] in floats, equals the
    exact count [ceil_weeks days] for every [days <= 7 * 2^49] (every
    difference of two dates is below 3652059). It is [0] for [days <= 0];
    for [days > 0] it is the number of started weeks: at least 1, with
    [7 * (w - 1) < days <= 7 * w]. *)
Theorem ceil_weeks_started (days : Z) :
  days <= 7 * 2 ^ 49 ->
  ceil_weeks_float days = Some (ceil_weeks days) /\
  (days <= 0 -> ceil_weeks days = 0) /\
  (0 < days -> 1 <= ceil_weeks days /\
               7 * (ceil_weeks days - 1) < days <= 7 * ceil_weeks days).
Proof.
  intros H. split; [apply ceil_weeks_float_exact, H|].
  split; [apply ceil_weeks_nonpos | apply ceil_weeks_pos_bounds].
Qed.

Lemma ceil_weeks_started_witness :
  10 <= 7 * 2 ^ 49 /\
  ceil_weeks_float 10 = Some (ceil_weeks 10) /\
  (10 <= 0 -> ceil_weeks 10 = 0) /\
  (0 < 10 -> 1 <= ceil_weeks 10 /\ 7 * (ceil_weeks 10 - 1) < 10 <= 7 * ceil_weeks 10).
Proof. split; [lia | apply ceil_weeks_started; lia]. Defined.

(** [overdue_weeks] is [0] exactly when there is no due date or [as_of] is
    not after it; past the due date it counts the started weeks since the
    due date, at least 1. *)
Theorem overdue_weeks_spec (as_of : Z) (due_on : option Z) (disbursed_on : Z) :
  (overdue_weeks as_of due_on disbursed_on = 0 <->
   due_on = None \/ exists due, due_on = Some due /\ as_of <= due) /\
  (forall due, due_on = Some due -> due < as_of ->
   1 <= overdue_weeks as_of due_on disbursed_on /\
   7 * (overdue_weeks as_of due_on disbursed_on - 1) < as_of - due <=
   7 * overdue_weeks as_of due_on disbursed_on).
Proof.
  split.
  - destruct due_on as [due|]; cbn [overdue_weeks].
    + destruct (Z.leb_spec as_of due).
      * split; [intros _; right; exists due; split; [reflexivity | assumption] | reflexivity].
      * pose proof (ceil_weeks_pos_bounds (as_of - due) ltac:(lia)).
        split; [lia|]. intros [D|(dd & E & Le)]; [discriminate D|].
        injection E as <-. lia.
    + split; [left; reflexivity | reflexivity].
  - intros due -> Hlt. cbn [overdue_weeks].
    rewrite (proj2 (Z.leb_gt _ _) Hlt). apply ceil_weeks_pos_bounds. lia.
Qed.

(** The aging bucket of [overdue_weeks] never moves back to an earlier
    bucket as [as_of] advances (Current, 1–2w, 3–4w, 5+w). *)
Theorem aging_bucket_monotone (as_of1 as_of2 : Z) (due_on : option Z) (disbursed_on : Z) :
  as_of1 <= as_of2 ->
  (bucket_rank (aging_bucket (overdue_weeks as_of1 due_on disbursed_on)) <=
   bucket_rank (aging_bucket (overdue_weeks as_of2 due_on disbursed_on)))%nat.
Proof. intros H. apply aging_rank_mono, overdue_weeks_mono, H. Qed.

Lemma aging_bucket_monotone_witness :
  d_2024_01_08 <= d_2024_01_22 /\
  (bucket_rank (aging_bucket (overdue_weeks d_2024_01_08 (Some d_2024_01_01) d_2024_01_01)) <=
   bucket_rank (aging_bucket (overdue_weeks d_2024_01_22 (Some d_2024_01_01) d_2024_01_01)))%nat.
Proof.
  split; [unfold d_2024_01_08, d_2024_01_22; lia|].
  apply aging_bucket_monotone. unfold d_2024_01_08, d_2024_01_22; lia.
Defined.

(** The preview's [weeks] is at least 1, is the number of started weeks
    from [disbursed_on] to [due_on] (1 when that is at most 7 days), and is
    the [term_weeks] that [amount_due_with_payments] derives when only
    [agreed_due_on = due_on] is given. *)
Theorem scheduled_weeks_spec (principal : float) (disbursed_on due_on : Z)
    (weekly_interest_rate processing_fee_rate : float) :
  let w := weeks (scheduled_due_on_date principal disbursed_on due_on
                    weekly_interest_rate processing_fee_rate) in
  w = fst (resolve_terms disbursed_on None (Some due_on)) /\ 1 <= w /\
  (due_on - disbursed_on <= 7 -> w = 1) /\
  (7 < due_on - disbursed_on -> 7 * (w - 1) < due_on - disbursed_on <= 7 * w).
Proof.
  intros w. subst w. unfold scheduled_due_on_date. cbv zeta. cbn [weeks resolve_terms fst].
  split; [reflexivity|]. split; [lia|]. split.
  - intros H. destruct (Z.leb_spec (due_on - disbursed_on) 0).
    + rewrite ceil_weeks_nonpos by lia. lia.
    + pose proof (ceil_weeks_pos_bounds (due_on - disbursed_on) ltac:(lia)). lia.
  - intros H. pose proof (ceil_weeks_pos_bounds (due_on - disbursed_on) ltac:(lia)). lia.
Qed.

(** With a finite principal and finite rates, all [>= 0], and dates in the
    range of [datetime.date], the preview's [scheduled_due_amount] is at
    least the principal rounded to 2 decimals, and [processing_fee_upfront]
    is [>= 0]. *)
Theorem scheduled_amounts_bounds (principal : float) (disbursed_on due_on : Z)
    (weekly_interest_rate processing_fee_rate : float) :
  is_finite principal = true -> (0 <=? principal)%float = true ->
  is_finite weekly_interest_rate = true -> (0 <=? weekly_interest_rate)%float = true ->
  is_finite processing_fee_rate = true -> (0 <=? processing_fee_rate)%float = true ->
  1 <= disbursed_on -> due_on <= 3652059 ->
  let r := scheduled_due_on_date principal disbursed_on due_on
             weekly_interest_rate processing_fee_rate in
  (Py.round2 principal <=? scheduled_due_amount r)%float = true /\
  (0 <=? scheduled_due_amount r)%float = true /\
  (0 <=? processing_fee_upfront r)%float = true.
Proof.
  intros Pf P0 Wf W0 Ff F0 Hd Hdue r. subst r.
  unfold scheduled_due_on_date. cbv zeta. cbn [scheduled_due_amount processing_fee_upfront].
  set (w := Z.max 1 (ceil_weeks (due_on - disbursed_on))).
  assert (Hw : 1 <= w <= 2 ^ 53).
  { unfold w. destruct (Z.leb_spec (due_on - disbursed_on) 0).
    - rewrite ceil_weeks_nonpos by lia. lia.
    - pose proof (ceil_weeks_pos_bounds (due_on - disbursed_on) ltac:(lia)). lia. }
  destruct (float_of_Z_small w ltac:(lia)) as [Fw _].
  pose proof (float_of_Z_pos w Hw) as Pw.
  assert (B1 : (0 <=? principal * weekly_interest_rate)%float = true)
    by (apply mul_nn; auto).
  assert (B2 : (0 <=? principal * weekly_interest_rate * Py.float_of_Z w)%float = true)
    by (apply mul_nn; auto; apply F64.ltb_leb, Pw).
  pose proof (leb_add_self _ _ P0 B2) as S.
  split; [apply round2_mono; assumption|]. split.
  - apply F64.round2_nonneg. exact (nn_of_leb _ _ P0 S).
  - apply F64.round2_nonneg, mul_nn; auto.
Qed.

(** A payment whose amount is not negative (a NaN included), applied to
    finite balances [>= 0], leaves each of interest, late and principal
    finite, [>= 0] and not above its value before. *)
Theorem apply_payment_bounds (amt : float) (s : State) :
  (amt <? 0)%float = false ->
  is_finite (principal_rem s) = true -> (0 <=? principal_rem s)%float = true ->
  is_finite (accrued_interest s) = true -> (0 <=? accrued_interest s)%float = true ->
  is_finite (accrued_late s) = true -> (0 <=? accrued_late s)%float = true ->
  let s' := apply_payment amt s in
  (is_finite (accrued_interest s') = true /\ (0 <=? accrued_interest s')%float = true /\
   (accrued_interest s' <=? accrued_interest s)%float = true) /\
  (is_finite (accrued_late s') = true /\ (0 <=? accrued_late s')%float = true /\
   (accrued_late s' <=? accrued_late s)%float = true) /\
  (is_finite (principal_rem s') = true /\ (0 <=? principal_rem s')%float = true /\
   (principal_rem s' <=? principal_rem s)%float = true).
Proof.
  intros Ha Pf P0 If I0 Lf L0 s'. subst s'.
  unfold apply_payment. cbv zeta. cbn [principal_rem accrued_interest accrued_late].
  pose proof (sub_fmin_not_neg (accrued_interest s) amt Ha) as N1.
  pose proof (sub_fmin_not_neg (accrued_late s) _ N1) as N2.
  split; [|split]; apply pr_step; assumption.
Qed.

(** A NaN payment amount clears all three finite balances: [min(x, nan)]
    is [x], so each balance is paid in full. *)
Theorem apply_payment_nan (amt : float) (s : State) :
  Prim2SF amt = S754_nan ->
  is_finite (principal_rem s) = true -> is_finite (accrued_interest s) = true ->
  is_finite (accrued_late s) = true ->
  let s' := apply_payment amt s in
  principal_rem s' = 0%float /\ accrued_interest s' = 0%float /\ accrued_late s' = 0%float.
Proof.
  intros Hn Pf If Lf s'. subst s'.
  unfold apply_payment. cbv zeta. cbn [principal_rem accrued_interest accrued_late].
  rewrite (fmin_nan (accrued_interest s) amt Hn).
  pose proof (sub_nan (accrued_interest s) amt Hn) as N1.
  rewrite (fmin_nan (accrued_late s) _ N1).
  pose proof (sub_nan (accrued_late s) _ N1) as N2.
  rewrite (fmin_nan (principal_rem s) _ N2).
  rewrite !F64.sub_self by assumption. split; [reflexivity | split; reflexivity].
Qed.

Lemma apply_payment_nan_witness :
  Prim2SF nan = S754_nan /\
  let s' := apply_payment nan (mkState 100000 10000 2500 1 1) in
  principal_rem s' = 0%float /\ accrued_interest s' = 0%float /\ accrued_late s' = 0%float.
Proof.
  split; [reflexivity|].
  apply apply_payment_nan; reflexivity.
Defined.

Lemma apply_payment_bounds_witness :
  (5000 <? 0)%float = false /\
  let s := mkState 100000 10000 2500 1 1 in
  let s' := apply_payment 5000 s in
  (is_finite (accrued_interest s') = true /\ (0 <=? accrued_interest s')%float = true /\
   (accrued_interest s' <=? accrued_interest s)%float = true) /\
  (is_finite (accrued_late s') = true /\ (0 <=? accrued_late s')%float = true /\
   (accrued_late s' <=? accrued_late s)%float = true) /\
  (is_finite (principal_rem s') = true /\ (0 <=? principal_rem s')%float = true /\
   (principal_rem s' <=? principal_rem s)%float = true).
Proof.
  split; [reflexivity|].
  apply apply_payment_bounds; reflexivity.
Defined.

Lemma scheduled_amounts_bounds_witness :
  (1 <= d_2024_01_01 /\ d_2024_01_08 <= 3652059) /\
  let r := scheduled_due_on_date 100000 d_2024_01_01 d_2024_01_08
             default_weekly_interest_rate default_processing_fee_rate in
  (Py.round2 100000 <=? scheduled_due_amount r)%float = true /\
  (0 <=? scheduled_due_amount r)%float = true /\
  (0 <=? processing_fee_upfront r)%float = true.
Proof.
  split; [unfold d_2024_01_01, d_2024_01_08; lia|].
  apply scheduled_amounts_bounds;
    [reflexivity | reflexivity | reflexivity | reflexivity | reflexivity | reflexivity
    | unfold d_2024_01_01; lia | unfold d_2024_01_08; lia].
Defined.

(** Accruing up to [t1] and then up to [t2 >= t1] gives the same state as
    accruing up to [t2] at once: [_process_accrual_until] charges each
    started week once, however the dates are split. *)
Theorem process_accrual_compose (disbursed_on due tw : Z) (wr lr : float)
    (t1 t2 : Z) (s : State) :
  t1 <= t2 ->
  process_accrual_until disbursed_on due tw wr lr t2
    (process_accrual_until disbursed_on due tw wr lr t1 s) =
  process_accrual_until disbursed_on due tw wr lr t2 s.
Proof. apply process_comp. Qed.

Lemma process_accrual_compose_witness :
  d_2024_01_08 <= d_2024_01_22 /\
  process_accrual_until d_2024_01_01 d_2024_01_08 1 default_weekly_interest_rate
    default_late_step_rate d_2024_01_22
    (process_accrual_until d_2024_01_01 d_2024_01_08 1 default_weekly_interest_rate
       default_late_step_rate d_2024_01_08 (init_state 200000)) =
  process_accrual_until d_2024_01_01 d_2024_01_08 1 default_weekly_interest_rate
    default_late_step_rate d_2024_01_22 (init_state 200000).
Proof.
  split; [unfold d_2024_01_08, d_2024_01_22; lia|].
  apply process_accrual_compose. unfold d_2024_01_08, d_2024_01_22; lia.
Defined.

(** Accrual never changes the principal, and after accruing up to [t] the
    number of overdue weeks charged is the larger of those charged before
    and [overdue_weeks(t, due, disbursed_on)]. *)
Theorem process_accrual_overdue_weeks (disbursed_on due tw : Z) (wr lr : float)
    (t : Z) (s : State) :
  0 <= over_charged_weeks s ->
  let s' := process_accrual_until disbursed_on due tw wr lr t s in
  principal_rem s' = principal_rem s /\
  over_charged_weeks s' =
    Z.max (over_charged_weeks s) (overdue_weeks t (Some due) disbursed_on).
Proof.
  intros H0 s'. subst s'. unfold process_accrual_until. cbv zeta.
  match goal with |- context [pre_loop wr ?n ?T s] =>
    destruct (pre_loop_fields wr T n s (le_n _)) as (P1 & _ & O1);
    set (s1 := pre_loop wr n T s) in * end.
  cbn [overdue_weeks].
  destruct (due <? t) eqn:E.
  - apply Z.ltb_lt in E. rewrite (proj2 (Z.leb_gt t due)) by lia.
    match goal with |- context [over_loop wr lr ?n ?T s1] =>
      destruct (over_loop_fields wr lr T n s1 (le_n _)) as (P2 & _ & O2) end.
    rewrite P2, O2, P1, O1. split; reflexivity.
  - apply Z.ltb_ge in E. rewrite (proj2 (Z.leb_le t due)) by lia.
    rewrite P1, O1. split; [reflexivity | lia].
Qed.

Lemma process_accrual_overdue_weeks_witness :
  0 <= over_charged_weeks (init_state 200000) /\
  let s' := process_accrual_until d_2024_01_01 d_2024_01_08 1 default_weekly_interest_rate
              default_late_step_rate d_2024_01_22 (init_state 200000) in
  principal_rem s' = principal_rem (init_state 200000) /\
  over_charged_weeks s' =
    Z.max (over_charged_weeks (init_state 200000))
          (overdue_weeks d_2024_01_22 (Some d_2024_01_08) d_2024_01_01).
Proof.
  split; [cbn; lia|].
  apply process_accrual_overdue_weeks. cbn; lia.
Defined.

(** With finite rates [>= 0], accrual from a state with a finite principal
    [>= 0] and accrued interest and late [>= 0] never decreases the accrued
    interest or the accrued late, which stay [>= 0] (for dates in the range
    of [datetime.date], [t - due <= 2^53]). *)
Theorem process_accrual_monotone (disbursed_on due tw : Z) (wr lr : float)
    (t : Z) (s : State) :
  is_finite wr = true -> (0 <=? wr)%float = true ->
  is_finite lr = true -> (0 <=? lr)%float = true ->
  is_finite (principal_rem s) = true -> (0 <=? principal_rem s)%float = true ->
  (0 <=? accrued_interest s)%float = true -> (0 <=? accrued_late s)%float = true ->
  0 <= over_charged_weeks s -> t - due <= 2 ^ 53 ->
  let s' := process_accrual_until disbursed_on due tw wr lr t s in
  (accrued_interest s <=? accrued_interest s')%float = true /\
  (accrued_late s <=? accrued_late s')%float = true /\
  (0 <=? accrued_interest s')%float = true /\ (0 <=? accrued_late s')%float = true.
Proof.
  intros Wf W0 Lf L0 Pf P0 I0 A0 O0 Ht s'. subst s'.
  assert (I : I6 s) by (repeat split; assumption).
  destruct (process_I6 wr lr Wf W0 Lf L0 disbursed_on due tw t s Ht I)
    as [(_ & _ & I1 & L1 & _) [M1 M2]].
  repeat split; assumption.
Qed.

Lemma process_accrual_monotone_witness :
  d_2024_01_22 - d_2024_01_08 <= 2 ^ 53 /\
  let s' := process_accrual_until d_2024_01_01 d_2024_01_08 1 default_weekly_interest_rate
              default_late_step_rate d_2024_01_22 (init_state 200000) in
  (accrued_interest (init_state 200000) <=? accrued_interest s')%float = true /\
  (accrued_late (init_state 200000) <=? accrued_late s')%float = true /\
  (0 <=? accrued_interest s')%float = true /\ (0 <=? accrued_late s')%float = true.
Proof.
  split; [unfold d_2024_01_08, d_2024_01_22; lia|].
  apply process_accrual_monotone;
    [reflexivity | reflexivity | reflexivity | reflexivity | reflexivity | reflexivity
    | reflexivity | reflexivity | cbn; lia | unfold d_2024_01_08, d_2024_01_22; lia].
Defined.

(** When no payment amount is negative, no late penalty is reported for an
    [as_of] on or before the effective due date ([agreed_due_on], else
    [disbursed_on + 7 * term_weeks], else [disbursed_on + 7 days]):
    [late_incremental] is 0. *)
Theorem no_late_fee_until_due (principal : float) (disbursed_on as_of : Z)
    (payments : list Payment) (weekly_interest_rate late_step_rate : float)
    (term_weeks agreed_due_on : option Z) :
  Forall (fun p => (amount p <? 0)%float = false) payments ->
  as_of <= snd (resolve_terms disbursed_on term_weeks agreed_due_on) ->
  late_incremental (amount_due_with_payments principal disbursed_on as_of payments
                      weekly_interest_rate late_step_rate term_weeks agreed_due_on) = 0%float.
Proof.
  intros Hpay Hdue. unfold amount_due_with_payments.
  destruct (resolve_terms disbursed_on term_weeks agreed_due_on) as [tw due].
  cbn [snd] in Hdue.
  set (L := normalize_payments as_of payments).
  assert (Hproc : forall t s, t <= as_of -> accrued_late s = 0%float ->
            accrued_late (process_accrual_until disbursed_on due tw weekly_interest_rate
                            late_step_rate t s) = 0%float).
  { intros t s Ht Hs. rewrite process_late_before by lia. exact Hs. }
  assert (HpayI : forall p s, (amount p <? 0)%float = false -> accrued_late s = 0%float ->
            accrued_late (apply_payment (amount p) s) = 0%float).
  { intros p s Hp Hs. apply pay_late_zero; assumption. }
  assert (HL : Forall (fun p => (amount p <? 0)%float = false /\ paid_on p <= as_of) L).
  { apply Forall_forall. intros x Hx. apply in_normalize in Hx as [Hx Hd].
    rewrite Forall_forall in Hpay. split; [apply Hpay, Hx | exact Hd]. }
  pose proof (walk_inv disbursed_on due tw weekly_interest_rate late_step_rate as_of _
                (fun s => accrued_late s = 0%float) Hproc HpayI (length L) L
                (init_state principal) HL eq_refl) as W.
  destruct (walk _ _ _ _ _ _ _ _) as [s b] eqn:Ew. cbn [fst] in W.
  destruct b; cbv beta iota zeta; cbn [late_incremental].
  - rewrite W. reflexivity.
  - rewrite process_late_before by lia. rewrite W. reflexivity.
Qed.

Lemma no_late_fee_until_due_witness :
  (Forall (fun p => (amount p <? 0)%float = false) [mkPayment 5000 (d_2024_01_01 + 3)] /\
   d_2024_01_08 <= snd (resolve_terms d_2024_01_01 None (Some d_2024_01_08))) /\
  late_incremental (amount_due_with_payments 100000 d_2024_01_01 d_2024_01_08
                      [mkPayment 5000 (d_2024_01_01 + 3)] default_weekly_interest_rate
                      default_late_step_rate None (Some d_2024_01_08)) = 0%float.
Proof.
  split.
  - split; [repeat constructor | cbn; lia].
  - apply no_late_fee_until_due; [repeat constructor | cbn; lia].
Defined.

(** When the walk over the payments stops with [settled = True], the result
    is all zero: [principal_receivable], [accrued_interest_fees] and
    [outstanding] are 0. *)
Theorem settled_result_zero (principal : float) (disbursed_on as_of : Z)
    (payments : list Payment) (weekly_interest_rate late_step_rate : float)
    (term_weeks agreed_due_on : option Z) :
  settled_flag principal disbursed_on as_of payments weekly_interest_rate late_step_rate
    term_weeks agreed_due_on = true ->
  let r := amount_due_with_payments principal disbursed_on as_of payments
             weekly_interest_rate late_step_rate term_weeks agreed_due_on in
  principal_receivable r = 0%float /\ accrued_interest_fees r = 0%float /\
  outstanding r = 0%float.
Proof.
  unfold settled_flag, amount_due_with_payments. cbv zeta.
  destruct (resolve_terms disbursed_on term_weeks agreed_due_on) as [tw due].
  destruct (walk _ _ _ _ _ _ _ _) as [s b] eqn:Ew. cbn [snd]. intros Hb. subst b.
  pose proof (walk_settled _ _ _ _ _ _ _ _ _ Ew) as S.
  unfold is_settled in S. apply andb_prop in S as [S1 S2].
  cbv beta iota. cbn [principal_receivable accrued_interest_fees outstanding].
  rewrite (round2_fmax_small _ S1), (round2_fmax_small _ S2).
  split; [reflexivity | split; reflexivity].
Qed.

Lemma settled_result_zero_witness :
  settled_flag 100000 d_2024_01_01 d_2024_01_22 [mkPayment 110000 d_2024_01_08]
    default_weekly_interest_rate default_late_step_rate None (Some d_2024_01_08) = true /\
  let r := amount_due_with_payments 100000 d_2024_01_01 d_2024_01_22
             [mkPayment 110000 d_2024_01_08] default_weekly_interest_rate
             default_late_step_rate None (Some d_2024_01_08) in
  principal_receivable r = 0%float /\ accrued_interest_fees r = 0%float /\
  outstanding r = 0%float.
Proof.
  split; [vm_compute; reflexivity|].
  apply settled_result_zero. vm_compute. reflexivity.
Defined.

(** ** Order of the payments *)

Lemma float_ltb_irrefl (a : float) : (0 <=? a)%float = true -> (a <? a)%float = false.
Proof. intros H. apply F64.leb_not_gtb, leb_refl_nn, H. Qed.

Lemma float_ltb_trans (a b c : float) :
  is_finite a = true -> (0 <=? a)%float = true ->
  is_finite b = true -> (0 <=? b)%float = true ->
  is_finite c = true -> (0 <=? c)%float = true ->
  (a <? b)%float = true -> (b <? c)%float = true -> (a <? c)%float = true.
Proof.
  intros Af A0 Bf B0 Cf C0 H1 H2.
  destruct (a <? c)%float eqn:E; [reflexivity|].
  apply F64.not_ltb_leb in E; [|apply F64.is_finite_sf; assumption ..].
  pose proof (leb_trans_nn _ _ _ C0 A0 B0 E (F64.ltb_leb _ _ H1)) as Le.
  rewrite (F64.leb_not_gtb _ _ Le) in H2. discriminate H2.
Qed.

Lemma key_lt_irrefl (p : Payment) : fin_amount p -> key_lt p p = false.
Proof.
  intros [_ H0]. unfold key_lt. rewrite Z.ltb_irrefl, Z.eqb_refl, float_ltb_irrefl by exact H0.
  reflexivity.
Qed.

Lemma key_lt_trans (p q r : Payment) :
  fin_amount p -> fin_amount q -> fin_amount r ->
  key_lt p q = true -> key_lt q r = true -> key_lt p r = true.
Proof.
  intros [Pf P0] [Qf Q0] [Rf R0]. unfold key_lt.
  intros H1 H2. apply orb_true_iff in H1, H2. apply orb_true_iff.
  destruct H1 as [H1|H1], H2 as [H2|H2];
    try (apply andb_true_iff in H1 as [E1 L1]); try (apply andb_true_iff in H2 as [E2 L2]);
    rewrite ?Z.ltb_lt, ?Z.eqb_eq in *.
  - left. lia.
  - left. lia.
  - left. lia.
  - right. apply andb_true_iff. split; [apply Z.eqb_eq; lia|].
    apply (float_ltb_trans _ (amount q)); assumption.
Qed.

Lemma insert_sorted_ssorted (p : Payment) (l : list Payment) :
  fin_amount p -> Forall fin_amount l -> StronglySorted kle l ->
  StronglySorted kle (insert_sorted p l).
Proof.
  intros Hp. induction l as [|q l IH]; intros Hl Hs; cbn [insert_sorted].
  - repeat constructor.
  - inversion Hl as [|? ? Hq Hl']; subst. inversion Hs as [|? ? Hs' Hf]; subst.
    destruct (key_lt p q) eqn:E.
    + constructor; [exact Hs|]. constructor.
      * unfold kle. destruct (key_lt q p) eqn:E2; [|reflexivity].
        pose proof (key_lt_trans _ _ _ Hp Hq Hp E E2). rewrite key_lt_irrefl in H by exact Hp.
        discriminate H.
      * rewrite Forall_forall in Hf, Hl' |- *. intros x Hx. unfold kle.
        destruct (key_lt x p) eqn:E2; [|reflexivity].
        pose proof (key_lt_trans _ _ _ (Hl' x Hx) Hp Hq E2 E) as C.
        specialize (Hf x Hx). unfold kle in Hf. congruence.
    + constructor; [apply IH; assumption|].
      rewrite Forall_forall in Hf |- *. intros x Hx.
      apply in_insert_sorted in Hx as [->|Hx]; [exact E | apply Hf, Hx].
Qed.

Lemma sort_payments_ssorted (l : list Payment) :
  Forall fin_amount l -> StronglySorted kle (sort_payments l).
Proof.
  unfold sort_payments. intros Hl.
  assert (G : forall acc, Forall fin_amount acc -> StronglySorted kle acc ->
            StronglySorted kle (fold_left (fun acc p => insert_sorted p acc) l acc)).
  { induction l as [|p l IH]; intros acc Ha Hs; cbn [fold_left]; [exact Hs|].
    inversion Hl as [|? ? Hp Hl']; subst.
    apply IH; [exact Hl' | | apply insert_sorted_ssorted; assumption].
    apply Forall_forall. intros x Hx. apply in_insert_sorted in Hx as [->|Hx]; [exact Hp|].
    rewrite Forall_forall in Ha. apply Ha, Hx. }
  apply G; constructor.
Qed.



Lemma ssorted_perm_unique (l1 l2 : list Payment) :
  (forall p q, In p l1 -> In q l1 -> key_lt p q = false -> key_lt q p = false -> p = q) ->
  StronglySorted kle l1 -> StronglySorted kle l2 -> Permutation l1 l2 -> l1 = l2.
Proof.
  revert l2. induction l1 as [|a l1 IH]; intros l2 Ht S1 S2 P.
  - symmetry. apply Permutation_nil, P.
  - destruct l2 as [|b l2]; [apply Permutation_sym, Permutation_nil in P; discriminate P|].
    inversion S1 as [|? ? S1' F1]; subst. inversion S2 as [|? ? S2' F2]; subst.
    assert (Eab : a = b).
    { assert (Ha : In a (b :: l2)) by (apply (Permutation_in _ P); left; reflexivity).
      assert (Hb : In b (a :: l1)) by (apply (Permutation_in _ (Permutation_sym P)); left; reflexivity).
      destruct Ha as [->|Ha]; [reflexivity|]. destruct Hb as [<-|Hb]; [reflexivity|].
      rewrite Forall_forall in F1, F2.
      apply Ht; [left; reflexivity | right; exact Hb | apply (F2 a Ha) | apply (F1 b Hb)]. }
    subst b. f_equal. apply IH; [| exact S1' | exact S2' | apply Permutation_cons_inv in P; exact P].
    intros p q Hp Hq. apply Ht; right; assumption.
Qed.

Lemma perm_filter (f : Payment -> bool) (l1 l2 : list Payment) :
  Permutation l1 l2 -> Permutation (filter f l1) (filter f l2).
Proof.
  induction 1 as [|x l1 l2 _ IH|x y l|l1 l2 l3 _ IH1 _ IH2]; cbn [filter].
  - constructor.
  - destruct (f x); [apply perm_skip|]; exact IH.
  - destruct (f x), (f y); try apply perm_swap; try apply perm_skip; reflexivity.
  - etransitivity; eassumption.
Qed.

Lemma normalize_payments_perm (as_of : Z) (l1 l2 : list Payment) :
  Permutation l1 l2 ->
  Forall fin_amount l1 ->
  (forall p q, In p l1 -> In q l1 -> key_lt p q = false -> key_lt q p = false -> p = q) ->
  normalize_payments as_of l1 = normalize_payments as_of l2.
Proof.
  intros P F T. unfold normalize_payments.
  set (f := fun p : Payment => paid_on p <=? as_of).
  assert (Pf : Permutation (filter f l1) (filter f l2)) by (apply perm_filter, P).
  assert (F1 : Forall fin_amount (filter f l1)).
  { apply Forall_forall. intros x Hx. apply filter_In in Hx as [Hx _].
    rewrite Forall_forall in F. apply F, Hx. }
  assert (F2 : Forall fin_amount (filter f l2)).
  { apply Forall_forall. intros x Hx. apply (Permutation_in _ (Permutation_sym Pf)) in Hx.
    rewrite Forall_forall in F1. apply F1, Hx. }
  apply ssorted_perm_unique.
  - intros p q Hp Hq. apply T.
    + unfold sort_payments in Hp. apply in_fold_insert in Hp as [Hp|[]].
      apply filter_In in Hp as [Hp _]. exact Hp.
    + unfold sort_payments in Hq. apply in_fold_insert in Hq as [Hq|[]].
      apply filter_In in Hq as [Hq _]. exact Hq.
  - apply sort_payments_ssorted, F1.
  - apply sort_payments_ssorted, F2.
  - unfold sort_payments. rewrite !fold_insert_perm, !app_nil_r. exact Pf.
Qed.

(** With finite payment amounts [>= 0] and no two different payments with
    the same sort key [(paid_on, amount)], the result does not depend on the
    order in which the payments are listed. *)
Theorem amount_due_order_independent (principal : float) (disbursed_on as_of : Z)
    (payments1 payments2 : list Payment) (weekly_interest_rate late_step_rate : float)
    (term_weeks agreed_due_on : option Z) :
  Permutation payments1 payments2 ->
  Forall (fun p => is_finite (amount p) = true /\ (0 <=? amount p)%float = true) payments1 ->
  (forall p q, In p payments1 -> In q payments1 ->
     key_lt p q = false -> key_lt q p = false -> p = q) ->
  amount_due_with_payments principal disbursed_on as_of payments1
    weekly_interest_rate late_step_rate term_weeks agreed_due_on =
  amount_due_with_payments principal disbursed_on as_of payments2
    weekly_interest_rate late_step_rate term_weeks agreed_due_on.
Proof.
  intros P F T. unfold amount_due_with_payments.
  rewrite (normalize_payments_perm as_of payments1 payments2 P F T). reflexivity.
Qed.

Lemma amount_due_order_independent_witness :
  (Permutation [mkPayment 5000 (d_2024_01_01 + 3); mkPayment 20000 (d_2024_01_01 + 3)]
               [mkPayment 20000 (d_2024_01_01 + 3); mkPayment 5000 (d_2024_01_01 + 3)] /\
   Forall (fun p => is_finite (amount p) = true /\ (0 <=? amount p)%float = true)
          [mkPayment 5000 (d_2024_01_01 + 3); mkPayment 20000 (d_2024_01_01 + 3)] /\
   (forall p q,
      In p [mkPayment 5000 (d_2024_01_01 + 3); mkPayment 20000 (d_2024_01_01 + 3)] ->
      In q [mkPayment 5000 (d_2024_01_01 + 3); mkPayment 20000 (d_2024_01_01 + 3)] ->
      key_lt p q = false -> key_lt q p = false -> p = q)) /\
  amount_due_with_payments 100000 d_2024_01_01 d_2024_01_22
    [mkPayment 5000 (d_2024_01_01 + 3); mkPayment 20000 (d_2024_01_01 + 3)]
    default_weekly_interest_rate default_late_step_rate None None =
  amount_due_with_payments 100000 d_2024_01_01 d_2024_01_22
    [mkPayment 20000 (d_2024_01_01 + 3); mkPayment 5000 (d_2024_01_01 + 3)]
    default_weekly_interest_rate default_late_step_rate None None.
Proof.
  split; [split; [apply perm_swap | split; [repeat constructor|]]|].
  - intros p q [<-|[<-|[]]] [<-|[<-|[]]] H1 H2; try reflexivity;
      vm_compute in H1, H2; discriminate.
  - apply amount_due_order_independent; [apply perm_swap | repeat constructor|].
    intros p q [<-|[<-|[]]] [<-|[<-|[]]] H1 H2; try reflexivity;
      vm_compute in H1, H2; discriminate.
Defined.

(** ** Zero rates *)

Lemma add_mul_zero (x : float) :
  is_finite x = true -> (0 <=? x)%float = true -> (0 + x * 0)%float = 0%float.
Proof.
  intros F N. apply Prim2SF_inj. rewrite add_spec, mul_spec, F64.Prim2SF_zero.
  rewrite F64.nonneg_spec in N. apply F64.is_finite_sf in F.
  destruct (Prim2SF x) as [[]|[]| |[] m e]; try discriminate; reflexivity.
Qed.

Lemma add_mul_mul_zero (x y : float) :
  is_finite x = true -> (0 <=? x)%float = true ->
  is_finite y = true -> (0 <=? y)%float = true -> (0 + x * (y * 0))%float = 0%float.
Proof.
  intros F N G M. apply Prim2SF_inj. rewrite add_spec, !mul_spec, F64.Prim2SF_zero.
  rewrite F64.nonneg_spec in N, M. apply F64.is_finite_sf in F, G.
  destruct (Prim2SF x) as [[]|[]| |[] m e], (Prim2SF y) as [[]|[]| |[] m2 e2];
    try discriminate; reflexivity.
Qed.

Lemma pay_interest_zero (amt : float) (s : State) :
  (amt <? 0)%float = false -> accrued_interest s = 0%float ->
  accrued_interest (apply_payment amt s) = 0%float.
Proof.
  intros Ha Hi. unfold apply_payment. cbv zeta. cbn [accrued_interest]. rewrite Hi.
  unfold Py.fmin at 1. rewrite Ha. reflexivity.
Qed.

Lemma pay_J0 (amt : float) (s : State) :
  (amt <? 0)%float = false -> J0 s -> J0 (apply_payment amt s).
Proof.
  intros Ha (Pf & P0 & Hi & Hl & Ho).
  split; [|split; [|split; [|split]]].
  - unfold apply_payment. cbv zeta. cbn [principal_rem].
    apply pr_step; [assumption | assumption|].
    apply sub_fmin_not_neg, sub_fmin_not_neg, Ha.
  - unfold apply_payment. cbv zeta. cbn [principal_rem].
    apply pr_step; [assumption | assumption|].
    apply sub_fmin_not_neg, sub_fmin_not_neg, Ha.
  - apply pay_interest_zero; assumption.
  - apply pay_late_zero; assumption.
  - exact Ho.
Qed.

Lemma pre_step_J0 (s : State) : J0 s -> J0 (pre_step 0 s).
Proof.
  intros (Pf & P0 & Hi & Hl & Ho). unfold pre_step. cbv zeta.
  cbn [principal_rem accrued_interest accrued_late pre_charged_weeks over_charged_weeks].
  destruct (eps <? principal_rem s)%float;
    cbn [principal_rem accrued_interest accrued_late pre_charged_weeks over_charged_weeks].
  - rewrite Hi, (add_mul_zero _ Pf P0). repeat split; try reflexivity; assumption.
  - repeat split; assumption.
Qed.

Lemma over_step_J0 (s : State) :
  over_charged_weeks s + 1 <= 2 ^ 53 -> J0 s -> J0 (over_step 0 0 s).
Proof.
  intros Hk (Pf & P0 & Hi & Hl & Ho). unfold over_step. cbv zeta.
  cbn [principal_rem accrued_interest accrued_late pre_charged_weeks over_charged_weeks].
  destruct (eps <? principal_rem s)%float;
    cbn [principal_rem accrued_interest accrued_late pre_charged_weeks over_charged_weeks].
  - destruct (float_of_Z_small (over_charged_weeks s + 1) ltac:(lia)) as [Kf Kn].
    rewrite Hi, Hl, (add_mul_zero _ Pf P0), (add_mul_mul_zero _ _ Pf P0 Kf Kn).
    repeat split; try assumption; try reflexivity; cbn [over_charged_weeks]; lia.
  - repeat split; try assumption; cbn [over_charged_weeks]; lia.
Qed.

Lemma pre_loop_J0 (T : Z) (n : nat) (s : State) : J0 s -> J0 (pre_loop 0 n T s).
Proof.
  revert s. induction n as [|n IH]; intros s Hs; cbn [pre_loop]; [exact Hs|].
  destruct (pre_charged_weeks s <? T); [|exact Hs].
  apply IH, pre_step_J0, Hs.
Qed.

Lemma over_loop_J0 (T : Z) (n : nat) (s : State) :
  T <= 2 ^ 53 -> J0 s -> J0 (over_loop 0 0 n T s).
Proof.
  intros HT. revert s. induction n as [|n IH]; intros s Hs; cbn [over_loop]; [exact Hs|].
  destruct (over_charged_weeks s <? T) eqn:E; [|exact Hs].
  apply Z.ltb_lt in E. apply IH, over_step_J0; [lia | exact Hs].
Qed.

Lemma process_J0 (d due tw t : Z) (s : State) :
  t - due <= 2 ^ 53 -> J0 s -> J0 (process_accrual_until d due tw 0 0 t s).
Proof.
  intros Ht Hs. unfold process_accrual_until. cbv zeta.
  match goal with |- context [pre_loop 0 ?n ?T s] =>
    pose proof (pre_loop_J0 T n s Hs) as H1; set (s1 := pre_loop 0 n T s) in * end.
  destruct (due <? t); [|exact H1].
  assert (CW : ceil_weeks (t - due) <= 2 ^ 53).
  { unfold ceil_weeks. destruct (t - due <=? 0) eqn:E; [lia|].
    apply Z.leb_gt in E. apply Z.div_le_upper_bound; lia. }
  apply over_loop_J0; assumption.
Qed.

(** With [weekly_interest_rate = 0] and [late_step_rate = 0], a finite
    principal [>= 0], no negative payment amount and dates in the range of
    [datetime.date], nothing ever accrues: [interest], [late_incremental]
    and [accrued_interest_fees] are 0. *)
Theorem zero_rates_no_accrual (principal : float) (disbursed_on as_of : Z)
    (payments : list Payment) (term_weeks agreed_due_on : option Z) :
  is_finite principal = true -> (0 <=? principal)%float = true ->
  Forall (fun p => (amount p <? 0)%float = false) payments ->
  (forall dd, agreed_due_on = Some dd -> disbursed_on <= dd) ->
  (forall w, term_weeks = Some w -> 0 <= w) ->
  1 <= disbursed_on -> as_of <= 3652059 ->
  let r := amount_due_with_payments principal disbursed_on as_of payments 0 0
             term_weeks agreed_due_on in
  interest r = 0%float /\ late_incremental r = 0%float /\ accrued_interest_fees r = 0%float.
Proof.
  intros Pf P0 Hpay Hdue Htw Hd Hmax r. subst r. unfold amount_due_with_payments.
  pose proof (resolve_terms_due_ge disbursed_on term_weeks agreed_due_on Hdue Htw) as Hdd.
  destruct (resolve_terms disbursed_on term_weeks agreed_due_on) as [tw due].
  cbn [snd] in Hdd.
  set (L := normalize_payments as_of payments).
  assert (Hproc : forall t s, t <= as_of -> J0 s ->
            J0 (process_accrual_until disbursed_on due tw 0 0 t s)).
  { intros t s Ht Hs. apply process_J0; [lia | exact Hs]. }
  assert (HpayI : forall p s, (amount p <? 0)%float = false -> J0 s ->
            J0 (apply_payment (amount p) s)).
  { intros p s Hp Hs. apply pay_J0; assumption. }
  assert (HL : Forall (fun p => (amount p <? 0)%float = false /\ paid_on p <= as_of) L).
  { apply Forall_forall. intros x Hx. apply in_normalize in Hx as [Hx Hd'].
    rewrite Forall_forall in Hpay. split; [apply Hpay, Hx | exact Hd']. }
  assert (Hi : J0 (init_state principal))
    by (unfold J0, init_state; cbn; repeat split; try assumption; lia).
  pose proof (walk_inv disbursed_on due tw 0 0 as_of _ J0 Hproc HpayI (length L) L
                (init_state principal) HL Hi) as W.
  destruct (walk _ _ _ _ _ _ _ _) as [s b] eqn:Ew. cbn [fst] in W.
  assert (E : forall s', J0 s' ->
            Py.round2 (accrued_interest s') = 0%float /\ Py.round2 (accrued_late s') = 0%float /\
            Py.round2 (Py.fmax 0 (accrued_interest s' + accrued_late s')) = 0%float).
  { intros s' (_ & _ & -> & -> & _). split; [reflexivity | split; reflexivity]. }
  destruct b; cbv beta iota zeta; cbn [interest late_incremental accrued_interest_fees].
  - apply E, W.
  - apply E, Hproc; [lia | exact W].
Qed.

Lemma zero_rates_no_accrual_witness :
  (1 <= d_2024_01_01 /\ d_2024_01_22 <= 3652059) /\
  let r := amount_due_with_payments 100000 d_2024_01_01 d_2024_01_22
             [mkPayment 5000 (d_2024_01_01 + 3)] 0 0 None (Some d_2024_01_08) in
  interest r = 0%float /\ late_incremental r = 0%float /\ accrued_interest_fees r = 0%float.
Proof.
  split; [unfold d_2024_01_01, d_2024_01_22; lia|].
  apply zero_rates_no_accrual;
    [reflexivity | reflexivity | repeat constructor
    | intros dd H; injection H as <-; unfold d_2024_01_01, d_2024_01_08; lia
    | discriminate | unfold d_2024_01_01; lia | unfold d_2024_01_22; lia].
Defined.
